(** * Stenella: a shallow embedding of [stenella.go]

    The program is a single Go file: an RSS aggregator with an in-memory
    registry of feed URLs.  Its logic is glue around the Go standard
    library, so the development has two layers:

    - the library functions the program calls ([strings.TrimSpace],
      [net/url], [sort.Slice], the [time] layouts), embedded from the Go
      sources of the release the README asks for (Go 1.22);
    - the program itself ([parsePubDate], [fetchFeed], [aggregateFeeds] and
      the registry handlers), embedded from [stenella.go].

    Go strings are byte sequences: [gostring] is [list ascii].  What the
    program cannot compute on its own -- the network, the XML and JSON
    decoders, the clock, [time.Parse] -- is a parameter of the development. *)

From Stdlib Require Import Ascii String.
From Stdlib Require Import List ZArith Bool Lia Arith.
From Stdlib Require Import Permutation Sorted.
Import ListNotations.

Local Open Scope Z_scope.
Local Open Scope list_scope.

(* ===================================================================== *)
(** * Go strings *)
(* ===================================================================== *)

Definition gostring : Type := list ascii.

(** A Go string literal. *)
Definition str (s : string) : gostring := list_ascii_of_string s.

(** The value of a byte, [0 .. 255]. *)
Definition code (c : ascii) : Z := Z.of_N (N_of_ascii c).

(** [a == b] on Go strings. *)
Fixpoint streq (a b : gostring) : bool :=
  match a, b with
  | [], [] => true
  | x :: a', y :: b' => Ascii.eqb x y && streq a' b'
  | _, _ => false
  end.

(** [lo <= c && c <= hi] on bytes. *)
Definition between (lo : ascii) (c : ascii) (hi : ascii) : bool :=
  (code lo <=? code c) && (code c <=? code hi).

(** [c] is one of the bytes of [set]. *)
Definition oneOf (c : ascii) (set : string) : bool :=
  existsb (Ascii.eqb c) (list_ascii_of_string set).

(* ===================================================================== *)
(** * Package [unicode/utf8] *)
(* ===================================================================== *)

Module utf8.

Definition RuneError : Z := 0xFFFD.
Definition RuneSelf : Z := 0x80.
Definition UTFMax : nat := 4%nat.

Definition maskx : Z := 0x3F.
Definition mask2 : Z := 0x1F.
Definition mask3 : Z := 0x0F.
Definition mask4 : Z := 0x07.

Definition locb : Z := 0x80.
Definition hicb : Z := 0xBF.

(** Entries of the [first] table: the low three bits are the length of the
    sequence, the high four bits index [acceptRanges]. *)
Definition xx : Z := 0xF1.
Definition as_ : Z := 0xF0.
Definition s1 : Z := 0x02.
Definition s2 : Z := 0x13.
Definition s3 : Z := 0x03.
Definition s4 : Z := 0x23.
Definition s5 : Z := 0x34.
Definition s6 : Z := 0x04.
Definition s7 : Z := 0x44.

(** [first[b]]: information about the first byte of a sequence. *)
Definition first (b : Z) : Z :=
  if b <? 0x80 then as_
  else if b <? 0xC2 then xx
  else if b <? 0xE0 then s1
  else if b =? 0xE0 then s2
  else if b <? 0xED then s3
  else if b =? 0xED then s4
  else if b <? 0xF0 then s3
  else if b =? 0xF0 then s5
  else if b <? 0xF4 then s6
  else if b =? 0xF4 then s7
  else xx.

(** [acceptRanges[i]]: the range allowed for the second byte. *)
Definition acceptRanges (i : Z) : Z * Z :=
  if i =? 0 then (locb, hicb)
  else if i =? 1 then (0xA0, hicb)
  else if i =? 2 then (locb, 0x9F)
  else if i =? 3 then (0x90, hicb)
  else if i =? 4 then (locb, 0x8F)
  else (0, 0).

(** [utf8.DecodeRuneInString]: the first rune of [s] and its width in
    bytes; [(RuneError, 0)] on the empty string, [(RuneError, 1)] on an
    invalid encoding. *)
Definition DecodeRuneInString (s : gostring) : Z * nat :=
  match s with
  | [] => (RuneError, 0%nat)
  | c0 :: t0 =>
    let x := first (code c0) in
    if as_ <=? x then
      ((if x =? xx then RuneError else code c0), 1%nat)
    else
      let sz := Z.land x 7 in
      let accept := acceptRanges (Z.shiftr x 4) in
      match t0 with
      | [] => (RuneError, 1%nat)
      | c1 :: t1 =>
        if (code c1 <? fst accept) || (snd accept <? code c1) then (RuneError, 1%nat)
        else if sz <=? 2 then
          (Z.lor (Z.shiftl (Z.land (code c0) mask2) 6) (Z.land (code c1) maskx), 2%nat)
        else
          match t1 with
          | [] => (RuneError, 1%nat)
          | c2 :: t2 =>
            if (code c2 <? locb) || (hicb <? code c2) then (RuneError, 1%nat)
            else if sz <=? 3 then
              (Z.lor (Z.lor (Z.shiftl (Z.land (code c0) mask3) 12)
                            (Z.shiftl (Z.land (code c1) maskx) 6))
                     (Z.land (code c2) maskx), 3%nat)
            else
              match t2 with
              | [] => (RuneError, 1%nat)
              | c3 :: _ =>
                if (code c3 <? locb) || (hicb <? code c3) then (RuneError, 1%nat)
                else
                  (Z.lor (Z.lor (Z.lor (Z.shiftl (Z.land (code c0) mask4) 18)
                                       (Z.shiftl (Z.land (code c1) maskx) 12))
                                (Z.shiftl (Z.land (code c2) maskx) 6))
                         (Z.land (code c3) maskx), 4%nat)
              end
          end
      end
  end.

(** [utf8.RuneStart]: [b] is not a continuation byte. *)
Definition RuneStart (b : ascii) : bool :=
  negb (Z.land (code b) 0xC0 =? 0x80).

(** The backward scan of [DecodeLastRuneInString]:
    [for start--; start >= lim; start-- { if RuneStart(s[start]) { break } }],
    entered with [start] already decremented once.  [n] bounds the number of
    steps; the result is the final [start], [None] when it fell below [lim]
    (which the caller resets to [0] when it is negative). *)
Fixpoint lastStart (n : nat) (s : gostring) (start lim : nat) : option nat :=
  match n with
  | O => None
  | S n' =>
    match nth_error s start with
    | Some c =>
      if RuneStart c then Some start
      else if (start <=? lim)%nat then None
      else lastStart n' s (start - 1) lim
    | None => None
    end
  end.

(** [utf8.DecodeLastRuneInString]: the last rune of [s] and its width. *)
Definition DecodeLastRuneInString (s : gostring) : Z * nat :=
  let end_ := length s in
  match end_ with
  | O => (RuneError, 0%nat)
  | S start =>
    match nth_error s start with
    | None => (RuneError, 0%nat)
    | Some c =>
      if code c <? RuneSelf then (code c, 1%nat)
      else
        let lim := (end_ - UTFMax)%nat in
        let start' :=
          match start with
          | O => 0%nat   (* start-- gives -1 < lim: the loop does not run, start = 0 *)
          | S p =>
            match lastStart UTFMax s p lim with
            | Some k => k
            | None => if (lim =? 0)%nat then 0%nat else (lim - 1)%nat
            end
          end in
        let '(r, size) := DecodeRuneInString (skipn start' s) in
        if (start' + size =? end_)%nat then (r, size) else (RuneError, 1%nat)
    end
  end.

End utf8.

(* ===================================================================== *)
(** * Package [unicode] *)
(* ===================================================================== *)

Module unicode.

Definition MaxLatin1 : Z := 0xFF.

(** [unicode.IsSpace]: the Latin-1 cases are listed in the function, the
    others are the [White_Space] range table without its Latin-1 part. *)
Definition IsSpace (r : Z) : bool :=
  if (0 <=? r) && (r <=? MaxLatin1) then
    (r =? 9) || (r =? 10) || (r =? 11) || (r =? 12) || (r =? 13) || (r =? 32)
    || (r =? 0x85) || (r =? 0xA0)
  else
    (r =? 0x1680) || ((0x2000 <=? r) && (r <=? 0x200A))
    || (r =? 0x2028) || (r =? 0x2029) || (r =? 0x202F) || (r =? 0x205F)
    || (r =? 0x3000).

End unicode.

(* ===================================================================== *)
(** * Package [strings] *)
(* ===================================================================== *)

Module strings.

(** The [asciiSpace] table: tab, newline, vertical tab, form feed, carriage
    return and space. *)
Definition asciiSpace (c : ascii) : bool :=
  let k := code c in
  (k =? 9) || (k =? 10) || (k =? 11) || (k =? 12) || (k =? 13) || (k =? 32).

(** [for i, r := range s { if f(r) == truth { return i } }; return -1], the
    index counted from [i]; [None] stands for [-1]. *)
Fixpoint indexFunc_from (fuel : nat) (f : Z -> bool) (truth : bool)
    (s : gostring) (i : nat) : option nat :=
  match fuel with
  | O => None
  | S fuel' =>
    match s with
    | [] => None
    | _ :: _ =>
      let '(r, size) := utf8.DecodeRuneInString s in
      if Bool.eqb (f r) truth then Some i
      else indexFunc_from fuel' f truth (skipn size s) (i + size)%nat
    end
  end.

Definition indexFunc (s : gostring) (f : Z -> bool) (truth : bool) : option nat :=
  indexFunc_from (length s) f truth s 0%nat.

(** [for i := len(s); i > 0; { r, size := DecodeLastRuneInString(s[0:i]);
    i -= size; if f(r) == truth { return i } }; return -1]. *)
Fixpoint lastIndexFunc_from (fuel : nat) (f : Z -> bool) (truth : bool)
    (s : gostring) (i : nat) : option nat :=
  match fuel with
  | O => None
  | S fuel' =>
    if (0 <? i)%nat then
      let '(r, size) := utf8.DecodeLastRuneInString (firstn i s) in
      let i' := (i - size)%nat in
      if Bool.eqb (f r) truth then Some i'
      else lastIndexFunc_from fuel' f truth s i'
    else None
  end.

Definition lastIndexFunc (s : gostring) (f : Z -> bool) (truth : bool) : option nat :=
  lastIndexFunc_from (length s) f truth s (length s).

Definition TrimLeftFunc (s : gostring) (f : Z -> bool) : gostring :=
  match indexFunc s f false with
  | None => []
  | Some i => skipn i s
  end.

Definition TrimRightFunc (s : gostring) (f : Z -> bool) : gostring :=
  match lastIndexFunc s f false with
  | Some i =>
    match nth_error s i with
    | Some c =>
      if utf8.RuneSelf <=? code c then
        let '(_, wid) := utf8.DecodeRuneInString (skipn i s) in
        firstn (i + wid) s
      else firstn (i + 1) s
    | None => firstn (i + 1) s
    end
  | None => firstn 0 s
  end.

Definition TrimFunc (s : gostring) (f : Z -> bool) : gostring :=
  TrimRightFunc (TrimLeftFunc s f) f.

(** The second loop of [TrimSpace], on [t = s[start:]] with [stop] counted
    from [start]: look for the first ASCII non-space byte from the end. *)
Fixpoint TrimSpace_stop (t : gostring) (stop : nat) : gostring :=
  match stop with
  | O => firstn 0 t
  | S k =>
    match nth_error t k with
    | Some c =>
      if utf8.RuneSelf <=? code c then TrimRightFunc (firstn stop t) unicode.IsSpace
      else if asciiSpace c then TrimSpace_stop t k
      else firstn stop t
    | None => firstn stop t
    end
  end.

(** [strings.TrimSpace]: the ASCII fast path from the start, falling back to
    [TrimFunc] on the first non-ASCII byte, then the same from the end. *)
Fixpoint TrimSpace (s : gostring) : gostring :=
  match s with
  | [] => []
  | c :: s' =>
    if utf8.RuneSelf <=? code c then TrimFunc s unicode.IsSpace
    else if asciiSpace c then TrimSpace s'
    else TrimSpace_stop s (length s)
  end.

Fixpoint HasPrefix (s prefix : gostring) : bool :=
  match prefix, s with
  | [], _ => true
  | p :: prefix', c :: s' => Ascii.eqb c p && HasPrefix s' prefix'
  | _ :: _, [] => false
  end.

Definition HasSuffix (s suffix : gostring) : bool :=
  HasPrefix (rev s) (rev suffix).

(** [strings.Index]: the index of the first instance of [sep] in [s];
    [None] stands for [-1]. *)
Fixpoint Index (s sep : gostring) : option nat :=
  if HasPrefix s sep then Some 0%nat
  else match s with
       | [] => None
       | _ :: s' => option_map S (Index s' sep)
       end.

(** [strings.LastIndex]: the index of the last instance of [sep] in [s]. *)
Fixpoint LastIndex (s sep : gostring) : option nat :=
  match s with
  | [] => if HasPrefix s sep then Some 0%nat else None
  | _ :: s' =>
    match LastIndex s' sep with
    | Some i => Some (S i)
    | None => if HasPrefix s sep then Some 0%nat else None
    end
  end.

Definition Contains (s substr : gostring) : bool :=
  match Index s substr with Some _ => true | None => false end.

(** [strings.Count] for a separator of one byte, which is how the program's
    libraries call it. *)
Definition CountByte (s : gostring) (c : ascii) : nat :=
  length (filter (Ascii.eqb c) s).

(** [strings.Cut]: [s] around the first instance of [sep]. *)
Definition Cut (s sep : gostring) : gostring * gostring * bool :=
  match Index s sep with
  | Some i => (firstn i s, skipn (i + length sep) s, true)
  | None => (s, [], false)
  end.

(** [strings.ToLower] on its ASCII path.  Its one caller passes a URL
    scheme, which [getScheme] restricts to ASCII letters, digits and
    [+ - .]; the Unicode case tables are not needed there. *)
Definition ToLower (s : gostring) : gostring :=
  map (fun c => if between "A" c "Z" then ascii_of_N (N_of_ascii c + 32) else c) s.

End strings.

(* ===================================================================== *)
(** * Package [net/url] *)
(* ===================================================================== *)

Module url.

Inductive encoding : Type :=
| encodePath
| encodePathSegment
| encodeHost
| encodeZone
| encodeUserPassword
| encodeQueryComponent
| encodeFragment.

Definition isHostOrZone (mode : encoding) : bool :=
  match mode with encodeHost | encodeZone => true | _ => false end.

Record Userinfo : Type := mkUserinfo {
  username : gostring;
  password : gostring;
  passwordSet : bool
}.

Record URL : Type := mkURL {
  Scheme : gostring;
  Opaque : gostring;          (* encoded opaque data *)
  User : option Userinfo;     (* username and password information *)
  Host : gostring;            (* host or host:port *)
  Path : gostring;            (* path (relative paths may omit leading slash) *)
  RawPath : gostring;         (* encoded path hint *)
  OmitHost : bool;            (* do not emit empty host (authority) *)
  ForceQuery : bool;          (* append a query ('?') even if RawQuery is empty *)
  RawQuery : gostring;        (* encoded query values, without '?' *)
  Fragment : gostring;        (* fragment for references, without '#' *)
  RawFragment : gostring      (* encoded fragment hint *)
}.

(** [new(URL)]: the zero value. *)
Definition zeroURL : URL := mkURL [] [] None [] [] [] false false [] [] [].

Definition isEmpty (s : gostring) : bool :=
  match s with [] => true | _ :: _ => false end.

Definition ishex (c : ascii) : bool :=
  between "0" c "9" || between "a" c "f" || between "A" c "F".

Definition unhex (c : ascii) : Z :=
  if between "0" c "9" then code c - code "0"
  else if between "a" c "f" then code c - code "a" + 10
  else if between "A" c "F" then code c - code "A" + 10
  else 0.

Definition byteOf (v : Z) : ascii := ascii_of_N (Z.to_N v).

(** [shouldEscape]: whether the byte must be escaped in the given part of a
    URL (RFC 3986, with the package's deviations). *)
Definition shouldEscape (c : ascii) (mode : encoding) : bool :=
  (* §2.3 Unreserved characters (alphanum) *)
  if between "a" c "z" || between "A" c "Z" || between "0" c "9" then false
  (* §3.2.2 Host allows sub-delims, and : [ ] < > and the double quote *)
  else if isHostOrZone mode && (oneOf c "!$&'()*+,;=:[]<>" || (code c =? 34)) then false
  (* §2.3 Unreserved characters (mark) *)
  else if oneOf c "-_.~" then false
  (* §2.2 Reserved characters (reserved) *)
  else if oneOf c "$&+,/:;=?@" then
    match mode with
    | encodePath => Ascii.eqb c "?"
    | encodePathSegment => oneOf c "/;,?"
    | encodeUserPassword => oneOf c "@/?:"
    | encodeQueryComponent => true
    | encodeFragment => false
    | encodeHost | encodeZone => true
    end
  else if match mode with encodeFragment => oneOf c "!()*" | _ => false end then false
  (* Everything else must be escaped. *)
  else true.

(** The first pass of [unescape]: the escapes are well formed and, in a host
    or a zone, no byte is one that cannot appear there. *)
Fixpoint unescape_ok (s : gostring) (mode : encoding) : bool :=
  match s with
  | [] => true
  | c :: t =>
    if Ascii.eqb c "%" then
      match t with
      | h1 :: h2 :: t' =>
        let is25 := Ascii.eqb h1 "2" && Ascii.eqb h2 "5" in
        let v := Z.lor (Z.shiftl (unhex h1) 4) (unhex h2) in
        if negb (ishex h1 && ishex h2) then false
        else if match mode with encodeHost => (unhex h1 <? 8) && negb is25 | _ => false end
        then false
        else if match mode with
                | encodeZone => negb is25 && negb (v =? 32) && shouldEscape (byteOf v) encodeHost
                | _ => false
                end
        then false
        else unescape_ok t' mode
      | _ => false
      end
    else if Ascii.eqb c "+" then unescape_ok t mode
    else if isHostOrZone mode && (code c <? 0x80) && shouldEscape c encodeHost then false
    else unescape_ok t mode
  end.

(** The second pass of [unescape]: the bytes the escapes stand for. *)
Fixpoint unescape_bytes (s : gostring) (mode : encoding) : gostring :=
  match s with
  | [] => []
  | c :: t =>
    if Ascii.eqb c "%" then
      match t with
      | h1 :: h2 :: t' =>
        byteOf (Z.lor (Z.shiftl (unhex h1) 4) (unhex h2)) :: unescape_bytes t' mode
      | _ => []
      end
    else if Ascii.eqb c "+" then
      (match mode with encodeQueryComponent => " "%char | _ => "+"%char end)
        :: unescape_bytes t mode
    else c :: unescape_bytes t mode
  end.

(** [unescape]; [None] stands for a non-nil error. *)
Definition unescape (s : gostring) (mode : encoding) : option gostring :=
  if unescape_ok s mode then Some (unescape_bytes s mode) else None.

Definition upperhex (v : Z) : ascii :=
  nth (Z.to_nat v) (str "0123456789ABCDEF") "0"%char.

Fixpoint escape (s : gostring) (mode : encoding) : gostring :=
  match s with
  | [] => []
  | c :: t =>
    if shouldEscape c mode then
      if Ascii.eqb c " " && match mode with encodeQueryComponent => true | _ => false end
      then "+"%char :: escape t mode
      else "%"%char :: upperhex (Z.shiftr (code c) 4) :: upperhex (Z.land (code c) 15)
             :: escape t mode
    else c :: escape t mode
  end.

(** The loop of [getScheme] at index [i], with [rest = rawURL[i:]]; [None]
    stands for the error "missing protocol scheme". *)
Fixpoint getScheme_from (rawURL rest : gostring) (i : nat) : option (gostring * gostring) :=
  match rest with
  | [] => Some ([], rawURL)
  | c :: rest' =>
    if between "a" c "z" || between "A" c "Z" then getScheme_from rawURL rest' (S i)
    else if between "0" c "9" || oneOf c "+-." then
      if (i =? 0)%nat then Some ([], rawURL) else getScheme_from rawURL rest' (S i)
    else if Ascii.eqb c ":" then
      if (i =? 0)%nat then None else Some (firstn i rawURL, rest')
    else
      (* an invalid character: there is no valid scheme *)
      Some ([], rawURL)
  end.

Definition getScheme (rawURL : gostring) : option (gostring * gostring) :=
  getScheme_from rawURL rawURL 0%nat.

Definition stringContainsCTLByte (s : gostring) : bool :=
  existsb (fun b => (code b <? 32) || (code b =? 0x7f)) s.

Definition validOptionalPort (port : gostring) : bool :=
  match port with
  | [] => true
  | c :: digits => Ascii.eqb c ":" && forallb (fun b => between "0" b "9") digits
  end.

Definition validUserinfo (s : gostring) : bool :=
  forallb (fun r => between "A" r "Z" || between "a" r "z" || between "0" r "9"
                    || oneOf r "-._:~!$&'()*+,;=%@") s.

Definition parseHost (host : gostring) : option gostring :=
  if strings.HasPrefix host (str "[") then
    (* an IP-literal (RFC 3986 and RFC 6874) *)
    match strings.LastIndex host (str "]") with
    | None => None
    | Some i =>
      if negb (validOptionalPort (skipn (i + 1) host)) then None
      else
        match strings.Index (firstn i host) (str "%25") with
        | Some zone =>
          match unescape (firstn zone host) encodeHost,
                unescape (firstn (i - zone) (skipn zone host)) encodeZone,
                unescape (skipn i host) encodeHost with
          | Some host1, Some host2, Some host3 => Some (host1 ++ host2 ++ host3)
          | _, _, _ => None
          end
        | None => unescape host encodeHost
        end
    end
  else
    match strings.LastIndex host (str ":") with
    | Some i =>
      if negb (validOptionalPort (skipn i host)) then None
      else unescape host encodeHost
    | None => unescape host encodeHost
    end.

Definition parseAuthority (authority : gostring) : option (option Userinfo * gostring) :=
  match strings.LastIndex authority (str "@") with
  | None =>
    match parseHost authority with
    | None => None
    | Some host => Some (None, host)
    end
  | Some i =>
    match parseHost (skipn (i + 1) authority) with
    | None => None
    | Some host =>
      let userinfo := firstn i authority in
      if negb (validUserinfo userinfo) then None
      else if negb (strings.Contains userinfo (str ":")) then
        match unescape userinfo encodeUserPassword with
        | None => None
        | Some u => Some (Some (mkUserinfo u [] false), host)
        end
      else
        let '(username, password, _) := strings.Cut userinfo (str ":") in
        match unescape username encodeUserPassword, unescape password encodeUserPassword with
        | Some u, Some p => Some (Some (mkUserinfo u p true), host)
        | _, _ => None
        end
    end
  end.

(** [u.setPath(p)]: sets [Path] and, when the default encoding of the path
    differs from [p], [RawPath]. *)
Definition setPath (u : URL) (p : gostring) : option URL :=
  match unescape p encodePath with
  | None => None
  | Some path =>
    Some (mkURL (Scheme u) (Opaque u) (User u) (Host u) path
                (if streq p (escape path encodePath) then [] else p)
                (OmitHost u) (ForceQuery u) (RawQuery u) (Fragment u) (RawFragment u))
  end.

Definition setFragment (u : URL) (f : gostring) : option URL :=
  match unescape f encodeFragment with
  | None => None
  | Some frag =>
    Some (mkURL (Scheme u) (Opaque u) (User u) (Host u) (Path u) (RawPath u)
                (OmitHost u) (ForceQuery u) (RawQuery u) frag
                (if streq f (escape frag encodeFragment) then [] else f))
  end.

(** [parse]: a URL without its fragment. *)
Definition parse (rawURL : gostring) (viaRequest : bool) : option URL :=
  if stringContainsCTLByte rawURL then None
  else if isEmpty rawURL && viaRequest then None
  else if streq rawURL (str "*") then
    Some (mkURL [] [] None [] (str "*") [] false false [] [] [])
  else
    match getScheme rawURL with
    | None => None
    | Some (scheme0, rest0) =>
      let scheme := strings.ToLower scheme0 in
      let '(rest, rawQuery, forceQuery) :=
        if strings.HasSuffix rest0 (str "?") && (strings.CountByte rest0 "?" =? 1)%nat
        then (removelast rest0, [], true)
        else let '(r, q, _) := strings.Cut rest0 (str "?") in (r, q, false) in
      let rootless := negb (strings.HasPrefix rest (str "/")) in
      if rootless && negb (isEmpty scheme) then
        (* rootless paths are opaque *)
        Some (mkURL scheme rest None [] [] [] false forceQuery rawQuery [] [])
      else if rootless && viaRequest then None
      else if rootless &&
              (let '(segment, _, _) := strings.Cut rest (str "/") in
               strings.Contains segment (str ":"))
      then None (* first path segment in URL cannot contain colon *)
      else if (negb (isEmpty scheme)
               || (negb viaRequest && negb (strings.HasPrefix rest (str "///"))))
              && strings.HasPrefix rest (str "//")
      then
        let authority0 := skipn 2 rest in
        let '(authority, rest') :=
          match strings.Index authority0 (str "/") with
          | Some i => (firstn i authority0, skipn i authority0)
          | None => (authority0, [])
          end in
        match parseAuthority authority with
        | None => None
        | Some (user, host) =>
          setPath (mkURL scheme [] user host [] [] false forceQuery rawQuery [] []) rest'
        end
      else
        let omitHost := negb (isEmpty scheme) && strings.HasPrefix rest (str "/") in
        setPath (mkURL scheme [] None [] [] [] omitHost forceQuery rawQuery [] []) rest
    end.

(** [url.Parse]; [None] stands for a non-nil error. *)
Definition Parse (rawURL : gostring) : option URL :=
  let '(u, frag, _) := strings.Cut rawURL (str "#") in
  match parse u false with
  | None => None
  | Some url => if isEmpty frag then Some url else setFragment url frag
  end.

(** [u.IsAbs()]. *)
Definition IsAbs (u : URL) : bool := negb (isEmpty (Scheme u)).

Definition validEncoded (s : gostring) (mode : encoding) : bool :=
  forallb (fun c => oneOf c "!$&'()*+,;=:@" || oneOf c "[]" || Ascii.eqb c "%"
                    || negb (shouldEscape c mode)) s.

Definition EscapedPath (u : URL) : gostring :=
  if negb (isEmpty (RawPath u)) && validEncoded (RawPath u) encodePath
     && match unescape (RawPath u) encodePath with
        | Some p => streq p (Path u)
        | None => false
        end
  then RawPath u
  else if streq (Path u) (str "*") then str "*"
  else escape (Path u) encodePath.

Definition EscapedFragment (u : URL) : gostring :=
  if negb (isEmpty (RawFragment u)) && validEncoded (RawFragment u) encodeFragment
     && match unescape (RawFragment u) encodeFragment with
        | Some f => streq f (Fragment u)
        | None => false
        end
  then RawFragment u
  else escape (Fragment u) encodeFragment.

Definition Userinfo_String (ui : Userinfo) : gostring :=
  escape (username ui) encodeUserPassword
  ++ (if passwordSet ui then str ":" ++ escape (password ui) encodeUserPassword else []).

Definition isSome {A : Type} (o : option A) : bool :=
  match o with Some _ => true | None => false end.

(** [u.String()]: the URL reassembled. *)
Definition String (u : URL) : gostring :=
  let buf0 := if negb (isEmpty (Scheme u)) then Scheme u ++ str ":" else [] in
  let buf1 :=
    if negb (isEmpty (Opaque u)) then buf0 ++ Opaque u
    else
      let bufA :=
        if negb (isEmpty (Scheme u)) || negb (isEmpty (Host u)) || isSome (User u) then
          if OmitHost u && isEmpty (Host u) && negb (isSome (User u)) then buf0
          else
            let b1 :=
              if negb (isEmpty (Host u)) || negb (isEmpty (Path u)) || isSome (User u)
              then buf0 ++ str "//" else buf0 in
            let b2 :=
              match User u with
              | Some ui => b1 ++ Userinfo_String ui ++ str "@"
              | None => b1
              end in
            if negb (isEmpty (Host u)) then b2 ++ escape (Host u) encodeHost else b2
        else buf0 in
      let path := EscapedPath u in
      let bufB :=
        if negb (isEmpty path) && negb (strings.HasPrefix path (str "/"))
           && negb (isEmpty (Host u))
        then bufA ++ str "/" else bufA in
      let bufC :=
        if isEmpty bufB then
          let '(segment, _, _) := strings.Cut path (str "/") in
          if strings.Contains segment (str ":") then bufB ++ str "./" else bufB
        else bufB in
      bufC ++ path in
  let buf2 :=
    if ForceQuery u || negb (isEmpty (RawQuery u))
    then buf1 ++ str "?" ++ RawQuery u else buf1 in
  if negb (isEmpty (Fragment u)) then buf2 ++ str "#" ++ EscapedFragment u else buf2.

(** The loop of [resolvePath]: [elem, remaining, found = Cut(remaining, "/")]
    until no separator is found.  Returns [dst] and the last [elem]. *)
Fixpoint resolvePath_loop (fuel : nat) (remaining dst : gostring) (first : bool)
  : gostring * gostring :=
  match fuel with
  | O => (dst, [])
  | S fuel' =>
    let '(elem, remaining', found) := strings.Cut remaining (str "/") in
    let '(dst', first') :=
      if streq elem (str ".") then (dst, false)
      else if streq elem (str "..") then
        (* ignore the leading '/' already written *)
        let s := skipn 1 dst in
        match strings.LastIndex s (str "/") with
        | None => (str "/", true)
        | Some index => (str "/" ++ firstn index s, first)
        end
      else ((if first then dst else dst ++ str "/") ++ elem, false) in
    if found then resolvePath_loop fuel' remaining' dst' first' else (dst', elem)
  end.

(** [resolvePath]: applies the special path segments of [ref] to [base], per
    RFC 3986. *)
Definition resolvePath (base ref : gostring) : gostring :=
  let full :=
    match ref with
    | [] => base
    | c :: _ =>
      if Ascii.eqb c "/" then ref
      else
        match strings.LastIndex base (str "/") with
        | Some i => firstn (i + 1) base ++ ref
        | None => ref
        end
    end in
  if isEmpty full then []
  else
    let '(dst, elem) := resolvePath_loop (S (length full)) full (str "/") true in
    let r := if streq elem (str ".") || streq elem (str "..") then dst ++ str "/" else dst in
    (* an initial '/' was written, but two are not wanted *)
    match r with
    | _ :: c :: _ => if Ascii.eqb c "/" then skipn 1 r else r
    | _ => r
    end.

(** [url.setPath(p)] with its error ignored, as [ResolveReference] calls it. *)
Definition setPath_ (u : URL) (p : gostring) : URL :=
  match setPath u p with Some u' => u' | None => u end.

Definition withScheme (u : URL) (s : gostring) : URL :=
  mkURL s (Opaque u) (User u) (Host u) (Path u) (RawPath u) (OmitHost u)
        (ForceQuery u) (RawQuery u) (Fragment u) (RawFragment u).

(** [u.ResolveReference(ref)]: [ref] resolved against the base [u]. *)
Definition ResolveReference (u ref : URL) : URL :=
  let url0 := if isEmpty (Scheme ref) then withScheme ref (Scheme u) else ref in
  if negb (isEmpty (Scheme ref)) || negb (isEmpty (Host ref)) || isSome (User ref) then
    (* the "absoluteURI" or "net_path" cases *)
    setPath_ url0 (resolvePath (EscapedPath ref) [])
  else if negb (isEmpty (Opaque ref)) then
    mkURL (Scheme url0) (Opaque url0) None [] [] (RawPath url0) (OmitHost url0)
          (ForceQuery url0) (RawQuery url0) (Fragment url0) (RawFragment url0)
  else
    let url1 :=
      if isEmpty (Path ref) && negb (ForceQuery ref) && isEmpty (RawQuery ref) then
        if isEmpty (Fragment ref) then
          mkURL (Scheme url0) (Opaque url0) (User url0) (Host url0) (Path url0)
                (RawPath url0) (OmitHost url0) (ForceQuery url0) (RawQuery u)
                (Fragment u) (RawFragment u)
        else
          mkURL (Scheme url0) (Opaque url0) (User url0) (Host url0) (Path url0)
                (RawPath url0) (OmitHost url0) (ForceQuery url0) (RawQuery u)
                (Fragment url0) (RawFragment url0)
      else url0 in
    if isEmpty (Path ref) && negb (isEmpty (Opaque u)) then
      mkURL (Scheme url1) (Opaque u) None [] [] (RawPath url1) (OmitHost url1)
            (ForceQuery url1) (RawQuery url1) (Fragment url1) (RawFragment url1)
    else
      (* the "abs_path" or "rel_path" cases *)
      setPath_ (mkURL (Scheme url1) (Opaque url1) (User u) (Host u) (Path url1)
                      (RawPath url1) (OmitHost url1) (ForceQuery url1) (RawQuery url1)
                      (Fragment url1) (RawFragment url1))
               (resolvePath (EscapedPath u) (EscapedPath ref)).

End url.

(* ===================================================================== *)
(** * Package [sort]: [sort.Slice] *)
(* ===================================================================== *)

(** [sort.Slice(x, less)] runs the pattern-defeating quicksort of
    [zsortfunc.go] on a [lessSwap]: [less(i, j)] compares the elements at two
    indices of the slice, [swap(i, j)] exchanges them.  The slice is a list;
    the comparison of the program reads the two elements, so [less] is given
    on elements. *)

Module sort.

Section Pdqsort.

Context {A : Type}.
Variable less : A -> A -> bool.

(** The step of the [xorshift] generator of [breakPatterns], on the 64-bit
    state.  The result of sorting depends on it only through which elements
    are exchanged. *)
Variable xorshiftNext : Z -> Z.

(** [data[i] = x], nothing out of range. *)
Fixpoint update (data : list A) (i : nat) (x : A) : list A :=
  match data, i with
  | [], _ => []
  | _ :: t, O => x :: t
  | h :: t, S i' => h :: update t i' x
  end.

(** [data.Less(i, j)]. *)
Definition Less (data : list A) (i j : nat) : bool :=
  match nth_error data i, nth_error data j with
  | Some x, Some y => less x y
  | _, _ => false
  end.

(** [data.Swap(i, j)]. *)
Definition Swap (data : list A) (i j : nat) : list A :=
  match nth_error data i, nth_error data j with
  | Some x, Some y => update (update data i y) j x
  | _, _ => data
  end.

(** [for j := i; j > a && data.Less(j, j-1); j-- { data.Swap(j, j-1) }]. *)
Fixpoint insertionSort_inner (data : list A) (a j : nat) : list A :=
  match j with
  | O => data
  | S j' =>
    if (a <? j)%nat && Less data j j' then insertionSort_inner (Swap data j j') a j'
    else data
  end.

(** [for i := ...; i < b; i++ { inner loop }], [n] iterations at most. *)
Fixpoint insertionSort_outer (n : nat) (data : list A) (a i b : nat) : list A :=
  match n with
  | O => data
  | S n' =>
    if (i <? b)%nat then insertionSort_outer n' (insertionSort_inner data a i) a (S i) b
    else data
  end.

(** [insertionSortLessFunc] sorts [data[a:b]] using insertion sort. *)
Definition insertionSort (data : list A) (a b : nat) : list A :=
  insertionSort_outer (b - a) data a (a + 1) b.

(** [siftDownLessFunc] implements the heap property on [data[lo:hi]];
    [first] is an offset into the slice. *)
Fixpoint siftDown_from (fuel : nat) (data : list A) (root hi first : nat) : list A :=
  match fuel with
  | O => data
  | S fuel' =>
    let child := (2 * root + 1)%nat in
    if (hi <=? child)%nat then data
    else
      let child' :=
        if (child + 1 <? hi)%nat && Less data (first + child) (first + child + 1)
        then S child else child in
      if negb (Less data (first + root) (first + child')) then data
      else siftDown_from fuel' (Swap data (first + root) (first + child')) child' hi first
  end.

Definition siftDown (data : list A) (lo hi first : nat) : list A :=
  siftDown_from hi data lo hi first.

(** [for i := (hi - 1) / 2; i >= 0; i-- { siftDown(data, i, hi, first) }],
    with [n = i + 1]. *)
Fixpoint heapSort_build (n : nat) (data : list A) (hi first : nat) : list A :=
  match n with
  | O => data
  | S i => heapSort_build i (siftDown data i hi first) hi first
  end.

(** [for i := hi - 1; i >= 0; i-- { data.Swap(first, first+i);
    siftDown(data, lo, i, first) }], with [n = i + 1]. *)
Fixpoint heapSort_pop (n : nat) (data : list A) (first : nat) : list A :=
  match n with
  | O => data
  | S i => heapSort_pop i (siftDown (Swap data first (first + i)) 0 i first) first
  end.

(** [heapSortLessFunc] sorts [data[a:b]]. *)
Definition heapSort (data : list A) (a b : nat) : list A :=
  let first := a in
  let hi := (b - a)%nat in
  heapSort_pop hi (heapSort_build (S ((hi - 1) / 2)) data hi first) first.

(** [order2LessFunc]: [(a, b)] ordered by the elements they index, counting
    the exchange. *)
Definition order2 (data : list A) (a b swaps : nat) : nat * nat * nat :=
  if Less data b a then (b, a, S swaps) else (a, b, swaps).

(** [medianLessFunc]: the index of the median of three elements. *)
Definition median (data : list A) (a b c swaps : nat) : nat * nat :=
  let '(a1, b1, n1) := order2 data a b swaps in
  let '(b2, c2, n2) := order2 data b1 c n1 in
  let '(a3, b3, n3) := order2 data a1 b2 n2 in
  (b3, n3).

(** [medianAdjacentLessFunc]: the median of [data[a-1], data[a], data[a+1]]. *)
Definition medianAdjacent (data : list A) (a swaps : nat) : nat * nat :=
  median data (a - 1) a (a + 1) swaps.

Inductive sortedHint : Type := unknownHint | increasingHint | decreasingHint.

Definition shortestNinther : nat := 50%nat.
Definition maxSwaps : nat := (4 * 3)%nat.

(** [choosePivotLessFunc] chooses a pivot in [data[a:b]]: a static pivot
    below 8 elements, the median of three below [shortestNinther], the Tukey
    ninther above. *)
Definition choosePivot (data : list A) (a b : nat) : nat * sortedHint :=
  let l := (b - a)%nat in
  let i := (a + l / 4 * 1)%nat in
  let j := (a + l / 4 * 2)%nat in
  let k := (a + l / 4 * 3)%nat in
  let '(j', swaps) :=
    if (8 <=? l)%nat then
      let '(i1, j1, k1, n1) :=
        if (shortestNinther <=? l)%nat then
          let '(i1, n1) := medianAdjacent data i 0%nat in
          let '(j1, n2) := medianAdjacent data j n1 in
          let '(k1, n3) := medianAdjacent data k n2 in
          (i1, j1, k1, n3)
        else (i, j, k, 0%nat) in
      median data i1 j1 k1 n1
    else (j, 0%nat) in
  if (swaps =? 0)%nat then (j', increasingHint)
  else if (swaps =? maxSwaps)%nat then (j', decreasingHint)
  else (j', unknownHint).

(** [for i < j { data.Swap(i, j); i++; j-- }]. *)
Fixpoint reverseRange_loop (n : nat) (data : list A) (i j : nat) : list A :=
  match n with
  | O => data
  | S n' =>
    if (i <? j)%nat then reverseRange_loop n' (Swap data i j) (S i) (j - 1) else data
  end.

Definition reverseRange (data : list A) (a b : nat) : list A :=
  reverseRange_loop (b - a) data a (b - 1).

(** [bits.Len(uint(n))]: the number of bits of [n], zero for zero. *)
Definition bitsLen (n : nat) : nat :=
  match n with
  | O => O
  | S _ => S (Nat.log2 n)
  end.

(** [nextPowerOfTwo]: [1 << bits.Len(uint(length))]. *)
Definition nextPowerOfTwo (length : nat) : Z := Z.shiftl 1 (Z.of_nat (bitsLen length)).

(** The three exchanges of [breakPatterns], from the generator state
    [random]; [i] counts from [0]. *)
Fixpoint breakPatterns_loop (n : nat) (data : list A) (random modulus : Z)
    (a length idx i : nat) : list A :=
  match n with
  | O => data
  | S n' =>
    let random' := xorshiftNext random in
    let other0 := Z.to_nat (Z.land random' (modulus - 1)) in
    let other := if (length <=? other0)%nat then (other0 - length)%nat else other0 in
    breakPatterns_loop n' (Swap data (idx - 1 + i) (a + other)) random' modulus
                       a length idx (S i)
  end.

(** [breakPatternsLessFunc] scatters some elements around in an attempt to
    break patterns that might cause imbalanced partitions. *)
Definition breakPatterns (data : list A) (a b : nat) : list A :=
  let length := (b - a)%nat in
  if (8 <=? length)%nat then
    breakPatterns_loop 3 data (Z.of_nat length) (nextPowerOfTwo length)
                       a length (a + (length / 4) * 2 - 1) 0
  else data.

(** [for i <= j && data.Less(i, a) { i++ }]. *)
Fixpoint scanUp (n : nat) (data : list A) (a i j : nat) : nat :=
  match n with
  | O => i
  | S n' => if (i <=? j)%nat && Less data i a then scanUp n' data a (S i) j else i
  end.

(** [for i <= j && !data.Less(j, a) { j-- }]. *)
Fixpoint scanDown (n : nat) (data : list A) (a i j : nat) : nat :=
  match n with
  | O => j
  | S n' =>
    if (i <=? j)%nat && negb (Less data j a) then scanDown n' data a i (j - 1) else j
  end.

(** The [for { ... }] loop of [partitionLessFunc]: both scans, then an
    exchange, until [i > j]. *)
Fixpoint partition_loop (n : nat) (data : list A) (a i j : nat) : list A * nat :=
  match n with
  | O => (data, j)
  | S n' =>
    let i' := scanUp (S j - i) data a i j in
    let j' := scanDown (S j - i') data a i' j in
    if (j' <? i')%nat then (data, j')
    else partition_loop n' (Swap data i' j') a (S i') (j' - 1)
  end.

(** [partitionLessFunc] does one quicksort partition: with [p = data[pivot]],
    the elements of [data[a:b]] are moved so that [data[i] < p] before the
    new pivot index and [data[j] >= p] after it.  Returns the new index and
    whether the slice was already partitioned. *)
Definition partition (data : list A) (a b pivot : nat) : list A * nat * bool :=
  let data1 := Swap data a pivot in
  let i := scanUp (b - a) data1 a (a + 1) (b - 1) in
  let j := scanDown (b - a) data1 a i (b - 1) in
  if (j <? i)%nat then (Swap data1 j a, j, true)
  else
    let data2 := Swap data1 i j in
    let '(data3, j') := partition_loop (b - a) data2 a (S i) (j - 1) in
    (Swap data3 j' a, j', false).

(** [for i <= j && !data.Less(a, i) { i++ }]. *)
Fixpoint scanUpEq (n : nat) (data : list A) (a i j : nat) : nat :=
  match n with
  | O => i
  | S n' => if (i <=? j)%nat && negb (Less data a i) then scanUpEq n' data a (S i) j else i
  end.

(** [for i <= j && data.Less(a, j) { j-- }]. *)
Fixpoint scanDownEq (n : nat) (data : list A) (a i j : nat) : nat :=
  match n with
  | O => j
  | S n' => if (i <=? j)%nat && Less data a j then scanDownEq n' data a i (j - 1) else j
  end.

Fixpoint partitionEqual_loop (n : nat) (data : list A) (a i j : nat) : list A * nat :=
  match n with
  | O => (data, i)
  | S n' =>
    let i' := scanUpEq (S j - i) data a i j in
    let j' := scanDownEq (S j - i') data a i' j in
    if (j' <? i')%nat then (data, i')
    else partitionEqual_loop n' (Swap data i' j') a (S i') (j' - 1)
  end.

(** [partitionEqualLessFunc] partitions [data[a:b]] into the elements equal
    to [data[pivot]] followed by the elements greater than it; it assumes
    that [data[a:b]] has no element smaller than [data[pivot]]. *)
Definition partitionEqual (data : list A) (a b pivot : nat) : list A * nat :=
  partitionEqual_loop (b - a) (Swap data a pivot) a (a + 1) (b - 1).

Definition maxSteps : nat := 5%nat.
Definition shortestShifting : nat := 50%nat.

(** [for i < b && !data.Less(i, i-1) { i++ }]. *)
Fixpoint scanSorted (n : nat) (data : list A) (i b : nat) : nat :=
  match n with
  | O => i
  | S n' =>
    if (i <? b)%nat && negb (Less data i (i - 1)) then scanSorted n' data (S i) b else i
  end.

(** [for j := ...; j >= 1; j-- { if !data.Less(j, j-1) { break };
    data.Swap(j, j-1) }]. *)
Fixpoint shiftLeft (data : list A) (j : nat) : list A :=
  match j with
  | O => data
  | S j' => if negb (Less data j j') then data else shiftLeft (Swap data j j') j'
  end.

(** [for j := ...; j < b; j++ { if !data.Less(j, j-1) { break };
    data.Swap(j, j-1) }]. *)
Fixpoint shiftRight (n : nat) (data : list A) (j b : nat) : list A :=
  match n with
  | O => data
  | S n' =>
    if (j <? b)%nat then
      if negb (Less data j (j - 1)) then data
      else shiftRight n' (Swap data j (j - 1)) (S j) b
    else data
  end.

Fixpoint partialInsertionSort_loop (steps : nat) (data : list A) (a b i : nat)
  : list A * bool :=
  match steps with
  | O => (data, false)
  | S steps' =>
    let i1 := scanSorted (b - i) data i b in
    if (i1 =? b)%nat then (data, true)
    else if (b - a <? shortestShifting)%nat then (data, false)
    else
      let data1 := Swap data i1 (i1 - 1) in
      (* shift the smaller one to the left *)
      let data2 := if (2 <=? i1 - a)%nat then shiftLeft data1 (i1 - 1) else data1 in
      (* shift the greater one to the right *)
      let data3 := if (2 <=? b - i1)%nat then shiftRight (b - i1) data2 (i1 + 1) b
                   else data2 in
      partialInsertionSort_loop steps' data3 a b i1
  end.

(** [partialInsertionSortLessFunc] partially sorts a slice; returns [true]
    if the slice is sorted at the end. *)
Definition partialInsertionSort (data : list A) (a b : nat) : list A * bool :=
  partialInsertionSort_loop maxSteps data a b (a + 1).

Definition maxInsertion : nat := 12%nat.

(** [pdqsortLessFunc] sorts [data[a:b]].  [limit] is the number of allowed
    bad (very unbalanced) pivots before falling back to heapsort.  One unit
    of [fuel] is one iteration of the [for] loop or one recursive call. *)
Fixpoint pdqsort (fuel : nat) (data : list A) (a b limit : nat)
    (wasBalanced wasPartitioned : bool) : list A :=
  match fuel with
  | O => data
  | S fuel' =>
    let length := (b - a)%nat in
    if (length <=? maxInsertion)%nat then insertionSort data a b
    else if (limit =? 0)%nat then
      (* fall back to heapsort if too many bad choices were made *)
      heapSort data a b
    else
      (* if the last partitioning was imbalanced, break patterns *)
      let '(data1, limit1) :=
        if negb wasBalanced then (breakPatterns data a b, (limit - 1)%nat)
        else (data, limit) in
      let '(pivot0, hint0) := choosePivot data1 a b in
      let '(data2, pivot, hint) :=
        match hint0 with
        | decreasingHint =>
          (reverseRange data1 a b, ((b - 1) - (pivot0 - a))%nat, increasingHint)
        | _ => (data1, pivot0, hint0)
        end in
      (* the slice is likely already sorted *)
      let '(data3, sorted) :=
        if wasBalanced && wasPartitioned
           && match hint with increasingHint => true | _ => false end
        then partialInsertionSort data2 a b
        else (data2, false) in
      if sorted then data3
      else if (0 <? a)%nat && negb (Less data3 (a - 1) pivot) then
        (* probably many duplicate elements: partition into the elements
           equal to and the elements greater than the pivot *)
        let '(data4, mid) := partitionEqual data3 a b pivot in
        pdqsort fuel' data4 mid b limit1 wasBalanced wasPartitioned
      else
        let '(data4, mid, alreadyPartitioned) := partition data3 a b pivot in
        let leftLen := (mid - a)%nat in
        let rightLen := (b - mid)%nat in
        let balanceThreshold := (length / 8)%nat in
        if (leftLen <? rightLen)%nat then
          let data5 := pdqsort fuel' data4 a mid limit1 true true in
          pdqsort fuel' data5 (mid + 1) b limit1
                  (balanceThreshold <=? leftLen)%nat alreadyPartitioned
        else
          let data5 := pdqsort fuel' data4 (mid + 1) b limit1 true true in
          pdqsort fuel' data5 a mid limit1
                  (balanceThreshold <=? rightLen)%nat alreadyPartitioned
  end.

(** [sort.Slice(x, less)]: [pdqsort_func] on the whole slice, with
    [limit = bits.Len(uint(length))]. *)
Definition Slice (data : list A) : list A :=
  let length := List.length data in
  pdqsort (S length) data 0 length (bitsLen length) true true.

End Pdqsort.

End sort.

(* ===================================================================== *)
(** * Package [time] *)
(* ===================================================================== *)

Module time.

(** A [time.Time] is modelled by the instant it denotes, in nanoseconds
    since the epoch; the location and the monotonic clock reading are not
    kept. *)
Definition Time : Type := Z.

(** [t.After(u)]. *)
Definition After (t u : Time) : bool := u <? t.

Definition RFC1123Z : gostring := str "Mon, 02 Jan 2006 15:04:05 -0700".
Definition RFC1123 : gostring := str "Mon, 02 Jan 2006 15:04:05 MST".
Definition RFC822Z : gostring := str "02 Jan 06 15:04 -0700".
Definition RFC822 : gostring := str "02 Jan 06 15:04 MST".
Definition RFC3339 : gostring := str "2006-01-02T15:04:05Z07:00".

End time.

(* ===================================================================== *)
(** * The outside world *)
(* ===================================================================== *)

(** What a Go statement leaves behind: a value, or a run-time panic. *)
Inductive outcome (A : Type) : Type :=
| Done (a : A)
| Panic.
Arguments Done {A} a.
Arguments Panic {A}.

(** Computations that read the clock and the network: state passing over
    the world [W]. *)
Definition M (W A : Type) : Type := W -> outcome A * W.

Definition ret {W A : Type} (a : A) : M W A := fun w => (Done a, w).

Definition bind {W A B : Type} (m : M W A) (k : A -> M W B) : M W B :=
  fun w =>
    match m w with
    | (Done a, w') => k a w'
    | (Panic, w') => (Panic, w')
    end.

Definition panic {W A : Type} : M W A := fun w => (Panic, w).

Notation "x <- m ;; k" := (bind m (fun x => k))
  (at level 61, m at next level, right associativity).
Notation "' pat <- m ;; k" := (bind m (fun x => match x with pat => k end))
  (at level 61, pat pattern, m at next level, right associativity).

(* ===================================================================== *)
(** * [stenella.go]: data *)
(* ===================================================================== *)

(** [type Item struct]: one [<item>] of the decoded document. *)
Module Item.
Record t : Type := mk {
  Title : gostring;
  Link : gostring;
  Description : gostring;
  PubDate : gostring
}.
End Item.

(** [type Channel struct]. *)
Module Channel.
Record t : Type := mk {
  Title : gostring;
  Items : list Item.t
}.
End Channel.

(** [type RSS struct]. *)
Module RSS.
Record t : Type := mk {
  Channel : Channel.t
}.
End RSS.

(** [type FeedItem struct]: the unified feed item. *)
Module FeedItem.
Record t : Type := mk {
  Title : gostring;
  Link : gostring;
  Description : gostring;
  Published : time.Time;
  Source : gostring   (* which feed it came from *)
}.
End FeedItem.

(** The non-nil [error] values of the program. *)
Inductive error : Type :=
| GET_error (feedURL : gostring)          (* "GET %s: %w" *)
| decode_XML_error (feedURL : gostring)   (* "decode XML %s: %w" *)
| unparseable_date (v : gostring).        (* "unparseable date %q" *)

(** What the program takes from its environment:
    - [World], the state of the clock and of the network;
    - [time_Now], the clock;
    - [time_Parse layout value], [None] for a non-nil error;
    - [roundTrip], the round trip of [http.DefaultTransport] for a request
      URL that has an http or https scheme and a host: the body of the
      response, [None] for a non-nil error;
    - [xml_Decode], the XML decoder on a response body, [None] for a
      non-nil error;
    - [xorshiftNext], the generator of [sort]'s [breakPatterns]. *)
Class Env : Type := {
  World : Type;
  time_Now : World -> time.Time * World;
  time_Parse : gostring -> gostring -> option time.Time;
  roundTrip : url.URL -> World -> option gostring * World;
  xml_Decode : gostring -> option RSS.t;
  xorshiftNext : Z -> Z
}.

(** The body of a POST request as
    [json.NewDecoder(r.Body).Decode(&payload)] leaves it: an error, or the
    [URL] field of the payload (empty when the field is absent). *)
Inductive RequestBody : Type :=
| InvalidJSON
| Payload (URL : gostring).

(** What a handler does with its [ResponseWriter]: [http.Error(w, msg, code)];
    [w.WriteHeader(code)]; or, with the content type set and no status
    written (so 200), the call [json.NewEncoder(w).Encode(v)] for the items
    or the sources [v].  [JSON_items] and [JSON_sources] record the value
    given to the encoder, not the bytes written: the handlers drop the error
    of [Encode], and for items that do not marshal (a [Published] that
    [MarshalJSON] refuses) the answer is 200 with an empty body. *)
Inductive Response : Type :=
| http_Error (msg : gostring) (code : Z)
| WriteHeader (code : Z)
| JSON_items (items : list FeedItem.t)
| JSON_sources (list : list gostring).

Definition StatusBadRequest : Z := 400.
Definition StatusNotFound : Z := 404.
Definition StatusConflict : Z := 409.
Definition StatusInternalServerError : Z := 500.
Definition StatusOK : Z := 200.
Definition StatusCreated : Z := 201.

Definition StatusCode (r : Response) : Z :=
  match r with
  | http_Error _ code => code
  | WriteHeader code => code
  | JSON_items _ => StatusOK
  | JSON_sources _ => StatusOK
  end.

(* ===================================================================== *)
(** * [stenella.go]: the program *)
(* ===================================================================== *)

(** The in-memory feed source list at process start. *)
Definition feedSources0 : list gostring :=
  [ str "https://news.ycombinator.com/rss";
    str "https://www.reddit.com/r/golang/.rss" ].

Section Program.

Context {E : Env}.

Definition now : M World time.Time :=
  fun w => let '(t, w') := time_Now w in (Done t, w').

(** [http.Get(url)] up to the round trip: [http.NewRequest] parses the URL
    and fails if it does not parse; the default transport refuses a scheme
    other than http and https, and a URL without host. *)
Definition http_Get (rawurl : gostring) : M World (option gostring) :=
  match url.Parse rawurl with
  | None => ret None
  | Some u =>
    if (streq (url.Scheme u) (str "http") || streq (url.Scheme u) (str "https"))
       && negb (url.isEmpty (url.Host u))
    then fun w => let '(r, w') := roundTrip u w in (Done r, w')
    else ret None
  end.

Definition layouts : list gostring :=
  [ time.RFC1123Z; time.RFC1123; time.RFC822Z; time.RFC822; time.RFC3339 ].

(** [for _, l := range layouts { t, err = time.Parse(l, v);
    if err == nil { return t, nil } }]; [None] when the loop ends. *)
Fixpoint parsePubDate_layouts (ls : list gostring) (v : gostring) : option time.Time :=
  match ls with
  | [] => None
  | l :: ls' =>
    match time_Parse l v with
    | Some t => Some t
    | None => parsePubDate_layouts ls' v
    end
  end.

(** Parse many common date formats used in RSS feeds. *)
Definition parsePubDate (v : gostring) : M World (time.Time * option error) :=
  match parsePubDate_layouts layouts v with
  | Some t => ret (t, None)
  | None =>
    (* fallback without timezone *)
    match time_Parse (str "Mon, 02 Jan 2006 15:04:05") v with
    | Some t => ret (t, None)
    | None => t <- now ;; ret (t, Some (unparseable_date v))
    end
  end.

(** Lines 81-84 of [fetchFeed]: resolve relative links against the feed
    URL.  [base] is the result of [url.Parse(feedURL)], [None] for the nil
    pointer; calling [ResolveReference] on it panics. *)
Definition fetchFeed_link (base : option url.URL) (it_Link : gostring) : outcome gostring :=
  match url.Parse it_Link with
  | Some link =>
    if negb (url.IsAbs link) then
      match base with
      | Some b => Done (url.String (url.ResolveReference b link))
      | None => Panic
      end
    else Done it_Link
  | None => Done it_Link
  end.

(** The loop of [fetchFeed] over [rss.Channel.Items]. *)
Fixpoint fetchFeed_items (base : option url.URL) (channelTitle : gostring)
    (its : list Item.t) : M World (list FeedItem.t) :=
  match its with
  | [] => ret []
  | it :: rest =>
    '(pub, _) <- parsePubDate (Item.PubDate it) ;;
    it_Link <- (fun w => (fetchFeed_link base (Item.Link it), w)) ;;
    let item := FeedItem.mk (strings.TrimSpace (Item.Title it))
                            (strings.TrimSpace it_Link)
                            (strings.TrimSpace (Item.Description it))
                            pub
                            channelTitle in
    items <- fetchFeed_items base channelTitle rest ;;
    ret (item :: items)
  end.

(** Fetch and parse a single feed. *)
Definition fetchFeed (feedURL : gostring) : M World (list FeedItem.t + error) :=
  resp <- http_Get feedURL ;;
  match resp with
  | None => ret (inr (GET_error feedURL))
  | Some body =>
    match xml_Decode body with
    | None => ret (inr (decode_XML_error feedURL))
    | Some rss =>
      let base := url.Parse feedURL in
      items <- fetchFeed_items base (Channel.Title (RSS.Channel rss))
                               (Channel.Items (RSS.Channel rss)) ;;
      ret (inl items)
    end
  end.

(** The loop of [aggregateFeeds] over the snapshot of the sources. *)
Fixpoint aggregateFeeds_loop (sources : list gostring) (all : list FeedItem.t)
  : M World (list FeedItem.t) :=
  match sources with
  | [] => ret all
  | src :: rest =>
    r <- fetchFeed src ;;
    match r with
    | inr _ => aggregateFeeds_loop rest all   (* skip failing feeds *)
    | inl itms => aggregateFeeds_loop rest (all ++ itms)
    end
  end.

(** The comparison given to [sort.Slice]:
    [all[i].Published.After(all[j].Published)]. *)
Definition newestFirst (x y : FeedItem.t) : bool :=
  time.After (FeedItem.Published x) (FeedItem.Published y).

(** Aggregate all feeds.  [feedSources] is the registry, of which the
    function takes a copy under the read lock. *)
Definition aggregateFeeds (feedSources : list gostring)
  : M World (list FeedItem.t * option error) :=
  let sources := feedSources in
  all <- aggregateFeeds_loop sources [] ;;
  (* newest first *)
  ret (sort.Slice newestFirst xorshiftNext all, None).

(** JSON API returning merged feed items.  With a nil error the handler
    gives the items to the encoder, whose error it drops: [JSON_items] says
    which items, and the status, not that a document was written. *)
Definition apiFeedsHandler (feedSources : list gostring) : M World Response :=
  '(items, err) <- aggregateFeeds feedSources ;;
  match err with
  | Some _ => ret (http_Error (str "failed to load feeds") StatusInternalServerError)
  | None => ret (JSON_items items)
  end.

End Program.

(** Return the current list of RSS URLs. *)
Definition apiSourcesHandler (feedSources : list gostring) : Response :=
  JSON_sources feedSources.

(** [for _, s := range feedSources { if s == payload.URL { ... return } }]:
    whether the loop returns. *)
Fixpoint hasSource (feedSources : list gostring) (URL : gostring) : bool :=
  match feedSources with
  | [] => false
  | s :: rest => if streq s URL then true else hasSource rest URL
  end.

(** Add a new RSS URL.  Returns the response and the registry. *)
Definition apiAddSourceHandler (r : RequestBody) (feedSources : list gostring)
  : Response * list gostring :=
  match r with
  | InvalidJSON => (http_Error (str "invalid JSON payload") StatusBadRequest, feedSources)
  | Payload URL0 =>
    if url.isEmpty (strings.TrimSpace URL0) then
      (http_Error (str "invalid JSON payload") StatusBadRequest, feedSources)
    else
      let URL := strings.TrimSpace URL0 in
      (* basic validation: must be a parsable absolute URL *)
      match url.Parse URL with
      | None => (http_Error (str "invalid URL") StatusBadRequest, feedSources)
      | Some u =>
        if negb (url.IsAbs u) then
          (http_Error (str "invalid URL") StatusBadRequest, feedSources)
        else if hasSource feedSources URL then
          (* avoid duplicates *)
          (http_Error (str "source already exists") StatusConflict, feedSources)
        else (WriteHeader StatusCreated, feedSources ++ [URL])
      end
  end.

(** The loop of [apiRemoveSourceHandler]: the entries other than [URL], in
    order, and whether [URL] was found. *)
Fixpoint removeSource (feedSources : list gostring) (URL : gostring)
    (newList : list gostring) (found : bool) : list gostring * bool :=
  match feedSources with
  | [] => (newList, found)
  | s :: rest =>
    if streq s URL then removeSource rest URL newList true
    else removeSource rest URL (newList ++ [s]) found
  end.

(** Remove an existing RSS URL.  Returns the response and the registry. *)
Definition apiRemoveSourceHandler (r : RequestBody) (feedSources : list gostring)
  : Response * list gostring :=
  match r with
  | InvalidJSON => (http_Error (str "invalid JSON payload") StatusBadRequest, feedSources)
  | Payload URL0 =>
    if url.isEmpty (strings.TrimSpace URL0) then
      (http_Error (str "invalid JSON payload") StatusBadRequest, feedSources)
    else
      let URL := strings.TrimSpace URL0 in
      let '(newList, found) := removeSource feedSources URL [] false in
      if negb found then
        (http_Error (str "source not found") StatusNotFound, feedSources)
      else (WriteHeader StatusOK, newList)
  end.

(* ===================================================================== *)
(** * Vocabulary of the specification *)
(* ===================================================================== *)

(** ** Whitespace *)

(** [s] starts with a white space rune, as [unicode.IsSpace] defines it. *)
Definition leadingSpace (s : gostring) : bool :=
  match s with
  | [] => false
  | _ :: _ => unicode.IsSpace (fst (utf8.DecodeRuneInString s))
  end.

(** [s] ends with a white space rune. *)
Definition trailingSpace (s : gostring) : bool :=
  match s with
  | [] => false
  | _ :: _ => unicode.IsSpace (fst (utf8.DecodeLastRuneInString s))
  end.

(** Every rune of [s], read from the start, is white space: the string
    provides no content. *)
Fixpoint blank_from (fuel : nat) (s : gostring) : bool :=
  match fuel with
  | O => true
  | S fuel' =>
    match s with
    | [] => true
    | _ :: _ =>
      let '(r, size) := utf8.DecodeRuneInString s in
      unicode.IsSpace r && blank_from fuel' (skipn size s)
    end
  end.

Definition blank (s : gostring) : bool := blank_from (length s) s.

(** A decoding other than the error of width one: a valid encoding. *)
Definition valid (p : Z * nat) : Prop := p <> (utf8.RuneError, 1%nat).

(** The position [e] is the end of the string or holds a byte that starts a
    rune. *)
Definition boundary (t : gostring) (e : nat) : Prop :=
  match nth_error t e with
  | Some c => utf8.RuneStart c = true
  | None => True
  end.

(** ** The registry as a state machine *)

(** The two operations that change the registry, with the request each
    handler receives. *)
Inductive Op : Type :=
| Add (r : RequestBody)
| Remove (r : RequestBody).

Definition step (feedSources : list gostring) (op : Op) : list gostring :=
  match op with
  | Add r => snd (apiAddSourceHandler r feedSources)
  | Remove r => snd (apiRemoveSourceHandler r feedSources)
  end.

(** The registry after the operations [ops], from the state at process
    start. *)
Definition run (ops : list Op) : list gostring := fold_left step ops feedSources0.

(** The same run with every entry stamped by the time of its insertion:
    the defaults are inserted at times 0 and 1, the operation number [n]
    (from 0) inserts at time [n + 2]. *)
Definition step_stamped (clock : nat) (st : list (nat * gostring)) (op : Op)
  : list (nat * gostring) :=
  let feedSources := map snd st in
  match op with
  | Add r =>
    match apiAddSourceHandler r feedSources with
    | (WriteHeader _, feedSources') => st ++ [(clock, last feedSources' [])]
    | _ => st
    end
  | Remove r =>
    match apiRemoveSourceHandler r feedSources with
    | (WriteHeader _, feedSources') => filter (fun e => hasSource feedSources' (snd e)) st
    | _ => st
    end
  end.

Fixpoint run_stamped_from (ops : list Op) (clock : nat) (st : list (nat * gostring))
  : list (nat * gostring) :=
  match ops with
  | [] => st
  | op :: ops' => run_stamped_from ops' (S clock) (step_stamped clock st op)
  end.

Definition run_stamped (ops : list Op) : list (nat * gostring) :=
  run_stamped_from ops 2%nat (combine [0%nat; 1%nat] feedSources0).

(** The entries that the remove handler keeps when it removes [URL]. *)
Definition keeps (URL : gostring) (s : gostring) : bool := negb (streq s URL).

(** The trimmed URL parses as an absolute URL: the validation of
    [apiAddSourceHandler]. *)
Definition absoluteURL (URL : gostring) : bool :=
  match url.Parse URL with
  | Some u => url.IsAbs u
  | None => false
  end.

(** ** Fetching *)

(** The link of an item after lines 81-84 of [fetchFeed], when the feed URL
    parsed to [base]: resolved against [base] if it parses as a relative
    URL, left alone otherwise. *)
Definition resolvedLink (base : url.URL) (it_Link : gostring) : gostring :=
  match url.Parse it_Link with
  | Some link =>
    if url.IsAbs link then it_Link else url.String (url.ResolveReference base link)
  | None => it_Link
  end.

(** The feed item [fi] is the normal form of the channel item [it] of a
    feed at [base] with title [channelTitle]: trimmed fields, the link
    resolved, and for [Published] the result of the date parser in some
    state of the world. *)
Definition normalizes {E : Env} (base : url.URL) (channelTitle : gostring)
    (it : Item.t) (fi : FeedItem.t) : Prop :=
  FeedItem.Title fi = strings.TrimSpace (Item.Title it) /\
  FeedItem.Link fi = strings.TrimSpace (resolvedLink base (Item.Link it)) /\
  FeedItem.Description fi = strings.TrimSpace (Item.Description it) /\
  FeedItem.Source fi = channelTitle /\
  exists w0 e w1,
    parsePubDate (Item.PubDate it) w0 = (Done (FeedItem.Published fi, e), w1).

(** ** Aggregation *)

(** The results of fetching the sources one after the other, from the world
    [w], and the world afterwards. *)
Fixpoint fetchResults {E : Env} (sources : list gostring) (w : World)
  : list (list FeedItem.t + error) * World :=
  match sources with
  | [] => ([], w)
  | src :: rest =>
    match fetchFeed src w with
    | (Done r, w') => let '(rs, w'') := fetchResults rest w' in (r :: rs, w'')
    | (Panic, w') => ([], w')
    end
  end.

(** The items of the fetches that succeeded, concatenated in source order. *)
Definition successes (rs : list (list FeedItem.t + error)) : list FeedItem.t :=
  concat (map (fun r => match r with inl itms => itms | inr _ => [] end) rs).

(** The list is in descending order of [Published]: newest first. *)
Definition newestFirstOrder (l : list FeedItem.t) : Prop :=
  StronglySorted (fun x y => FeedItem.Published y <= FeedItem.Published x) l.

(** The specification's sort, following its words: descending by published
    timestamp, ties in their original relative order.  An item is inserted
    before the first item that is not strictly newer. *)
Fixpoint insertNewestFirst (x : FeedItem.t) (l : list FeedItem.t) : list FeedItem.t :=
  match l with
  | [] => [x]
  | y :: l' =>
    if time.After (FeedItem.Published y) (FeedItem.Published x)
    then y :: insertNewestFirst x l'
    else x :: l
  end.

Definition stableNewestFirst (l : list FeedItem.t) : list FeedItem.t :=
  fold_right insertNewestFirst [] l.

(** ** Slices under sorting *)

Section SliceVocabulary.

Context {A : Type}.

(** [d'] comes from [d] by exchanges of elements at indices of [a .. b-1]:
    all that [sort]'s functions do to [data[a:b]]. *)
Inductive Touch (a b : nat) : list A -> list A -> Prop :=
| Touch_refl : forall d, Touch a b d d
| Touch_swap : forall d i j d',
    (a <= i < b)%nat -> (a <= j < b)%nat ->
    (i < length d)%nat -> (j < length d)%nat ->
    Touch a b (sort.Swap d i j) d' -> Touch a b d d'.

Variable key : A -> Z.

(** The sort key of [data[i]]; zero out of range. *)
Definition K (data : list A) (i : nat) : Z :=
  match nth_error data i with
  | Some x => key x
  | None => 0
  end.

(** [data[a:b]] is in ascending order of the key. *)
Definition sortedK (data : list A) (a b : nat) : Prop :=
  forall i j, (a <= i)%nat -> (i <= j)%nat -> (j < b)%nat -> K data i <= K data j.

(** The same from one element to the next. *)
Definition asorted (data : list A) (a b : nat) : Prop :=
  forall i, (a <= i)%nat -> (S i < b)%nat -> K data i <= K data (S i).

(** The element before [data[a:b]], if there is one, is a lower bound of
    the slice: what [pdqsort] knows of a slice to the right of a pivot. *)
Definition lowerBound (data : list A) (a b : nat) : Prop :=
  (0 < a)%nat -> forall k, (a <= k < b)%nat -> K data (a - 1) <= K data k.

(** [data[first+lo .. first+hi-1]] is a max-heap from the node [lo] on: no
    child, among the nodes below [hi], is above its parent. *)
Definition heapFrom (data : list A) (first lo hi : nat) : Prop :=
  forall i c, (lo <= i)%nat -> (c = 2 * i + 1 \/ c = 2 * i + 2)%nat -> (c < hi)%nat ->
    K data (first + c) <= K data (first + i).

End SliceVocabulary.

(** ** An environment to run the program in *)

(** A closed world for examples: the clock ticks at every reading; a site
    serves a document under each URL of [site] and refuses the others; the
    body of a response is named by its URL.  [time_Parse] knows the RFC 3339
    and RFC 1123 (numeric zone) forms of two instants and fails on every
    other input. *)
Definition demo_time_Parse (layout value : gostring) : option time.Time :=
  if streq layout time.RFC3339 && streq value (str "2024-01-01T00:00:00Z")
  then Some 1704067200000000000
  else if streq layout time.RFC3339 && streq value (str "2024-01-02T00:00:00Z")
  then Some 1704153600000000000
  else if streq layout time.RFC1123Z && streq value (str "Mon, 01 Jan 2024 00:00:00 +0000")
  then Some 1704067200000000000
  else None.

Definition demoEnv (site : gostring -> option RSS.t) : Env := {|
  World := Z;
  time_Now := fun w => (w, w + 1);
  time_Parse := demo_time_Parse;
  roundTrip := fun u w =>
    (match site (url.String u) with Some _ => Some (url.String u) | None => None end, w);
  xml_Decode := site;
  xorshiftNext := fun r => r
|}.

(** A site with one feed at [feedURL]. *)
Definition oneFeed (feedURL : gostring) (rss : RSS.t) : gostring -> option RSS.t :=
  fun u => if streq u feedURL then Some rss else None.

(** A feed with three items: a relative link and a good date, an absolute
    link and an unparseable date, a link in spaces and no date. *)
Definition demoFeed : RSS.t :=
  RSS.mk (Channel.mk (str "Example")
    [ Item.mk (str " First ") (str "/foo") (str "one") (str "2024-01-01T00:00:00Z");
      Item.mk (str "Second") (str "https://other.org/a") (str " two ") (str "yesterday");
      Item.mk (str "Third") (str "  bar  ") (str "") (str "") ]).

Definition demoSite : gostring -> option RSS.t :=
  oneFeed (str "https://example.com/rss") demoFeed.

(** A feed of thirteen items: twelve published at the same instant and, in
    the last place, one published a day later. *)
Definition tieFeed : RSS.t :=
  RSS.mk (Channel.mk (str "Ties")
    (map (fun n => Item.mk (str n) (str "https://example.com/" ++ str n) []
                           (str "2024-01-01T00:00:00Z"))
         ["0"; "1"; "2"; "3"; "4"; "5"; "6"; "7"; "8"; "9"; "10"; "11"]%string
     ++ [Item.mk (str "12") (str "https://example.com/12") []
                 (str "2024-01-02T00:00:00Z")])).

Definition tieSite : gostring -> option RSS.t :=
  oneFeed (str "https://example.com/ties") tieFeed.

(** The titles of a list of feed items, to show an order. *)
Definition titles (l : list FeedItem.t) : list string :=
  map (fun fi => string_of_list_ascii (FeedItem.Title fi)) l.

(* ===================================================================== *)
(** * Further vocabulary *)
(* ===================================================================== *)

(** ** Elements of equal key *)

Section KeyVocabulary.

Context {A : Type}.
Variable key : A -> Z.

(** The elements of [l] whose key is [k], in their order in [l]. *)
Definition withKey (k : Z) (l : list A) : list A :=
  filter (fun x => key x =? k) l.

End KeyVocabulary.

(** The items of [l] published at the instant [t], in their order in [l]. *)
Definition publishedAt (t : time.Time) (l : list FeedItem.t) : list FeedItem.t :=
  filter (fun fi => FeedItem.Published fi =? t) l.

(** The key by which [newestFirst] compares: an item is before another when
    its key is smaller. *)
Definition newestKey (fi : FeedItem.t) : Z := - FeedItem.Published fi.

(** ** Entries of the registry *)

(** What the add handler can store: a string that is not empty, that
    [strings.TrimSpace] leaves as it is, and that parses as an absolute
    URL. *)
Definition acceptable (s : gostring) : bool :=
  negb (url.isEmpty s) && streq (strings.TrimSpace s) s && absoluteURL s.

(** The bytes of a URL scheme: a letter first, then letters, digits and
    [+ - .]. *)
Definition letter (c : ascii) : bool := between "a" c "z" || between "A" c "Z".

Definition schemeByte (c : ascii) : bool :=
  letter c || between "0" c "9" || oneOf c "+-.".

(** ** Links *)

(** The part of a URL string before its fragment: up to the first [#]. *)
Definition beforeFragment (s : gostring) : gostring :=
  fst (fst (strings.Cut s (str "#"))).

(** The default transport can send a request to [u]: the scheme is http or
    https and there is a host. *)
Definition fetchable (u : url.URL) : bool :=
  (streq (url.Scheme u) (str "http") || streq (url.Scheme u) (str "https"))
  && negb (url.isEmpty (url.Host u)).

(** ** More documents to run the program on *)

(** A feed whose one item has a relative link on a line of its own, between
    two newlines. *)
Definition lineFeed : RSS.t :=
  RSS.mk (Channel.mk (str "Lines")
    [ Item.mk (str "Only") ("010"%char :: str "/foo" ++ ["010"%char]) []
              (str "2024-01-01T00:00:00Z") ]).

Definition lineSite : gostring -> option RSS.t :=
  oneFeed (str "https://example.com/lines") lineFeed.

(** ** Dates *)

(** No layout of [parsePubDate] parses [v]. *)
Definition undated {E : Env} (v : gostring) : Prop :=
  forall l, In l (layouts ++ [str "Mon, 02 Jan 2006 15:04:05"]) -> time_Parse l v = None.

(** ** Reference resolution: examples *)

(** A base URL, a reference and the target of the reference: the examples
    of RFC 3986, section 5.4, on its base, and some links of a feed at
    [https://example.com/blog/feed.xml]. *)
Definition rfc3986Examples : list (string * string) :=
  [ ("g", "http://a/b/c/g"); ("./g", "http://a/b/c/g"); ("g/", "http://a/b/c/g/");
    ("/g", "http://a/g"); ("//g", "http://g"); ("?y", "http://a/b/c/d;p?y");
    ("g?y", "http://a/b/c/g?y"); ("#s", "http://a/b/c/d;p?q#s");
    ("g#s", "http://a/b/c/g#s"); ("g?y#s", "http://a/b/c/g?y#s");
    (";x", "http://a/b/c/;x"); ("g;x", "http://a/b/c/g;x");
    ("g;x?y#s", "http://a/b/c/g;x?y#s"); (EmptyString, "http://a/b/c/d;p?q");
    (".", "http://a/b/c/"); ("./", "http://a/b/c/"); ("..", "http://a/b/");
    ("../", "http://a/b/"); ("../g", "http://a/b/g"); ("../..", "http://a/");
    ("../../", "http://a/"); ("../../g", "http://a/g");
    ("../../../g", "http://a/g"); ("/./g", "http://a/g"); ("/../g", "http://a/g");
    ("g.", "http://a/b/c/g."); (".g", "http://a/b/c/.g"); ("g..", "http://a/b/c/g..");
    ("..g", "http://a/b/c/..g"); ("./../g", "http://a/b/g");
    ("./g/.", "http://a/b/c/g/"); ("g/./h", "http://a/b/c/g/h");
    ("g/../h", "http://a/b/c/h"); ("g;x=1/./y", "http://a/b/c/g;x=1/y");
    ("g;x=1/../y", "http://a/b/c/y"); ("g?y/./x", "http://a/b/c/g?y/./x");
    ("g#s/../x", "http://a/b/c/g#s/../x") ]%string.

Definition blogExamples : list (string * string) :=
  [ ("post/1", "https://example.com/blog/post/1");
    ("../a/./b", "https://example.com/a/b");
    ("/foo", "https://example.com/foo");
    ("?page=2", "https://example.com/blog/feed.xml?page=2");
    ("//cdn.example.org/x", "https://cdn.example.org/x");
    ("..", "https://example.com/") ]%string.

Definition resolutionExamples : list (string * string * string) :=
  List.app
    (map (fun e => ("http://a/b/c/d;p?q"%string, fst e, snd e)) rfc3986Examples)
    (map (fun e => ("https://example.com/blog/feed.xml"%string, fst e, snd e))
         blogExamples).

(** Whether the model resolves the example as the table says. *)
Definition resolvesTo (e : string * string * string) : bool :=
  let '(base, ref, target) := e in
  match url.Parse (str base) with
  | Some B => streq (strings.TrimSpace (resolvedLink B (str ref))) (str target)
  | None => false
  end.

(** A feed at [https://example.com/blog/feed.xml] with links relative to
    its directory. *)
Definition blogFeed : RSS.t :=
  RSS.mk (Channel.mk (str "Blog")
    [ Item.mk (str "One") (str "post/1") [] (str "2024-01-01T00:00:00Z");
      Item.mk (str "Two") (str "../a/./b") [] (str "2024-01-02T00:00:00Z") ]).

Definition blogSite : gostring -> option RSS.t :=
  oneFeed (str "https://example.com/blog/feed.xml") blogFeed.

(** A feed whose one item has a relative link with a space at the end of
    its query. *)
Definition queryFeed : RSS.t :=
  RSS.mk (Channel.mk (str "Query")
    [ Item.mk (str "Q") (str "/path?x=1 ") [] (str "2024-01-01T00:00:00Z") ]).

Definition querySite : gostring -> option RSS.t :=
  oneFeed (str "https://example.com/rss") queryFeed.

(** ** Well-formed strings *)

(** [s] is well-formed UTF-8: reading it rune by rune, as
    [utf8.DecodeRuneInString] does, never meets an invalid byte (the error
    of width one).  These are the strings that [json.Decode] stores in a
    field: it replaces invalid bytes. *)
Fixpoint wellFormed_from (fuel : nat) (s : gostring) : bool :=
  match fuel with
  | O => true
  | S fuel' =>
    match s with
    | [] => true
    | _ :: _ =>
      let '(r, size) := utf8.DecodeRuneInString s in
      negb ((r =? utf8.RuneError) && (size =? 1)%nat)
      && wellFormed_from fuel' (skipn size s)
    end
  end.

Definition wellFormed (s : gostring) : bool := wellFormed_from (length s) s.

(** A request whose url, if it has one, is well-formed. *)
Definition wellFormedOp (op : Op) : Prop :=
  match op with
  | Add (Payload u) | Remove (Payload u) => wellFormed u = true
  | _ => True
  end.

(* ===================================================================== *)
(** * Facts: Go strings *)
(* ===================================================================== *)

Lemma streq_spec (a b : gostring) : streq a b = true <-> a = b.
Proof.
  revert b; induction a as [|x a IH]; intros [|y b]; simpl; split;
    try congruence; try reflexivity.
  - intros H. apply andb_prop in H as [Hxy Hab].
    apply Ascii.eqb_eq in Hxy. apply IH in Hab. congruence.
  - intros H. injection H as -> ->. rewrite Ascii.eqb_refl. simpl. now apply IH.
Qed.

Lemma streq_refl (a : gostring) : streq a a = true.
Proof. now apply streq_spec. Qed.

Lemma streq_neq (a b : gostring) : streq a b = false <-> a <> b.
Proof.
  split.
  - intros H Heq. apply streq_spec in Heq. congruence.
  - intros H. destruct (streq a b) eqn:Hab; [|reflexivity].
    apply streq_spec in Hab. contradiction.
Qed.

Lemma isEmpty_spec (s : gostring) : url.isEmpty s = true <-> s = [].
Proof. destruct s; simpl; split; congruence. Qed.

(* ===================================================================== *)
(** * Facts: the registry handlers *)
(* ===================================================================== *)

Lemma hasSource_In (l : list gostring) (u : gostring) :
  hasSource l u = true <-> In u l.
Proof.
  induction l as [|s l IH]; simpl.
  - split; [discriminate | tauto].
  - destruct (streq s u) eqn:Hsu.
    + apply streq_spec in Hsu. split; auto.
    + apply streq_neq in Hsu. rewrite IH. split; [auto | intros [H|H]; [contradiction | exact H]].
Qed.

Lemma hasSource_not_In (l : list gostring) (u : gostring) :
  hasSource l u = false <-> ~ In u l.
Proof.
  rewrite <- hasSource_In. destruct (hasSource l u); split; congruence.
Qed.

(** The loop of the remove handler is a filter, and [found] is membership. *)
Lemma removeSource_spec (l : list gostring) (URL : gostring) (acc : list gostring)
    (found : bool) :
  removeSource l URL acc found = (acc ++ filter (keeps URL) l, found || hasSource l URL).
Proof.
  revert acc found; induction l as [|s l IH]; intros acc found; simpl.
  - now rewrite app_nil_r, orb_false_r.
  - unfold keeps at 1. destruct (streq s URL); simpl; rewrite IH.
    + now rewrite orb_true_r.
    + now rewrite <- app_assoc.
Qed.

Lemma filter_keeps_In (URL s : gostring) (l : list gostring) :
  In s (filter (keeps URL) l) <-> In s l /\ s <> URL.
Proof.
  rewrite filter_In. unfold keeps. rewrite negb_true_iff, streq_neq. tauto.
Qed.

(** In a registry without duplicates the filter deletes exactly one entry. *)
Lemma filter_keeps_NoDup (URL : gostring) (l : list gostring) :
  NoDup l -> In URL l ->
  exists l1 l2, l = l1 ++ URL :: l2 /\ filter (keeps URL) l = l1 ++ l2.
Proof.
  induction l as [|s l IH]; intros Hnd Hin; [destruct Hin|].
  inversion Hnd as [|? ? Hs Hl]; subst.
  simpl. unfold keeps at 1. destruct (streq s URL) eqn:Hsu; simpl.
  - apply streq_spec in Hsu. subst s. exists [], l. split; [reflexivity|].
    simpl. clear IH Hnd Hl Hin. induction l as [|t l IH]; [reflexivity|].
    simpl. unfold keeps at 1. destruct (streq t URL) eqn:Ht.
    + apply streq_spec in Ht. subst. exfalso. apply Hs. now left.
    + simpl. f_equal. apply IH. intros H. apply Hs. now right.
  - apply streq_neq in Hsu. destruct Hin as [Hin|Hin]; [contradiction|].
    destruct (IH Hl Hin) as (l1 & l2 & -> & Hf).
    exists (s :: l1), l2. split; [reflexivity|]. simpl. now rewrite Hf.
Qed.

Lemma apiRemoveSourceHandler_eq (URL0 : gostring) (l : list gostring) :
  apiRemoveSourceHandler (Payload URL0) l =
  let URL := strings.TrimSpace URL0 in
  if url.isEmpty URL then (http_Error (str "invalid JSON payload") StatusBadRequest, l)
  else if hasSource l URL then (WriteHeader StatusOK, filter (keeps URL) l)
  else (http_Error (str "source not found") StatusNotFound, l).
Proof.
  unfold apiRemoveSourceHandler. cbv zeta.
  destruct (url.isEmpty (strings.TrimSpace URL0)); [reflexivity|].
  rewrite removeSource_spec. simpl.
  now destruct (hasSource l (strings.TrimSpace URL0)).
Qed.

Lemma apiAddSourceHandler_eq (URL0 : gostring) (l : list gostring) :
  apiAddSourceHandler (Payload URL0) l =
  let URL := strings.TrimSpace URL0 in
  if url.isEmpty URL || negb (absoluteURL URL)
  then (http_Error (if url.isEmpty URL then str "invalid JSON payload" else str "invalid URL")
                   StatusBadRequest, l)
  else if hasSource l URL then (http_Error (str "source already exists") StatusConflict, l)
  else (WriteHeader StatusCreated, l ++ [URL]).
Proof.
  unfold apiAddSourceHandler, absoluteURL. cbv zeta.
  destruct (url.isEmpty (strings.TrimSpace URL0)); [reflexivity|]. simpl.
  destruct (url.Parse (strings.TrimSpace URL0)) as [u|]; [|reflexivity].
  destruct (url.IsAbs u); reflexivity.
Qed.

(** ** Claims on the registry *)

(** C3 (as amended).  Remove works on the whitespace-trimmed url.  When the
    trimmed url is empty the request is refused as invalid (400) and the
    list is unchanged; when it is not in the list the handler fails with
    not-found (404) and the list is unchanged; otherwise it succeeds (200)
    and the list loses the entries equal to the trimmed url -- exactly one
    entry in a list without duplicates -- the other entries staying, in
    their order, with nothing added. *)
Theorem C3_remove (feedSources : list gostring) (url0 : gostring) :
  let URL := strings.TrimSpace url0 in
  let resp := fst (apiRemoveSourceHandler (Payload url0) feedSources) in
  let feedSources' := snd (apiRemoveSourceHandler (Payload url0) feedSources) in
  (URL = [] ->
     StatusCode resp = StatusBadRequest /\ feedSources' = feedSources) /\
  (URL <> [] -> ~ In URL feedSources ->
     StatusCode resp = StatusNotFound /\ feedSources' = feedSources) /\
  (URL <> [] -> In URL feedSources ->
     StatusCode resp = StatusOK /\
     feedSources' = filter (keeps URL) feedSources /\
     (forall s, In s feedSources' <-> In s feedSources /\ s <> URL) /\
     (NoDup feedSources ->
        exists l1 l2, feedSources = l1 ++ URL :: l2 /\ feedSources' = l1 ++ l2)).
Proof.
  cbv zeta. rewrite apiRemoveSourceHandler_eq. cbv zeta.
  destruct (url.isEmpty (strings.TrimSpace url0)) eqn:Hempty.
  - apply isEmpty_spec in Hempty. simpl.
    repeat split; try tauto; intros; contradiction.
  - assert (Hne : strings.TrimSpace url0 <> []).
    { intros H. apply isEmpty_spec in H. congruence. }
    destruct (hasSource feedSources (strings.TrimSpace url0)) eqn:Hhas; simpl.
    + apply hasSource_In in Hhas. split; [tauto|]. split; [tauto|].
      intros _ _. split; [reflexivity|]. split; [reflexivity|].
      split; [intros s; apply filter_keeps_In|].
      intros Hnd. now apply filter_keeps_NoDup.
    + apply hasSource_not_In in Hhas. split; [tauto|]. split; [auto|]. tauto.
Qed.

(** C2 (as amended).  Add works on the whitespace-trimmed url.  It fails
    with a validation error (400) when the trimmed url is empty or does not
    parse as an absolute URL; otherwise it fails with a conflict (409, a
    different status) when the trimmed url is already in the list;
    otherwise it succeeds (201) and appends the trimmed url at the end.  On
    every failure the list is unchanged. *)
Theorem C2_add (feedSources : list gostring) (url0 : gostring) :
  let URL := strings.TrimSpace url0 in
  let resp := fst (apiAddSourceHandler (Payload url0) feedSources) in
  let feedSources' := snd (apiAddSourceHandler (Payload url0) feedSources) in
  (URL = [] \/ absoluteURL URL = false ->
     StatusCode resp = StatusBadRequest /\ feedSources' = feedSources) /\
  (URL <> [] -> absoluteURL URL = true -> In URL feedSources ->
     StatusCode resp = StatusConflict /\ feedSources' = feedSources) /\
  (URL <> [] -> absoluteURL URL = true -> ~ In URL feedSources ->
     StatusCode resp = StatusCreated /\ feedSources' = feedSources ++ [URL]) /\
  StatusConflict <> StatusBadRequest.
Proof.
  cbv zeta. rewrite apiAddSourceHandler_eq. cbv zeta.
  destruct (url.isEmpty (strings.TrimSpace url0)) eqn:Hempty.
  - apply isEmpty_spec in Hempty. simpl.
    split; [tauto|]. split; [intros; contradiction|].
    split; [intros; contradiction | discriminate].
  - assert (Hne : strings.TrimSpace url0 <> []).
    { intros H. apply isEmpty_spec in H. congruence. }
    destruct (absoluteURL (strings.TrimSpace url0)) eqn:Habs; simpl.
    + split; [intros [H|H]; [contradiction | discriminate]|].
      destruct (hasSource feedSources (strings.TrimSpace url0)) eqn:Hhas; simpl.
      * apply hasSource_In in Hhas.
        split; [tauto|]. split; [intros; contradiction | discriminate].
      * apply hasSource_not_In in Hhas.
        split; [intros; contradiction|]. split; [tauto | discriminate].
    + split; [tauto|]. split; [intros; discriminate|].
      split; [intros; discriminate | discriminate].
Qed.

(** C3, the claim as stated, fails: the empty url is not in the list, yet
    Remove does not fail with not-found (it refuses the request as invalid);
    and a url with surrounding spaces is not in the list, yet Remove
    succeeds and changes the list. *)
Lemma C3_counterexample :
  (~ In (str "") feedSources0 /\
   StatusCode (fst (apiRemoveSourceHandler (Payload (str "")) feedSources0))
     <> StatusNotFound) /\
  (~ In (str " https://news.ycombinator.com/rss ") feedSources0 /\
   apiRemoveSourceHandler (Payload (str " https://news.ycombinator.com/rss ")) feedSources0
     = (WriteHeader StatusOK, [str "https://www.reddit.com/r/golang/.rss"])).
Proof.
  split; split.
  - simpl. intros [H|[H|[]]]; discriminate.
  - vm_compute. discriminate.
  - simpl. intros [H|[H|[]]]; discriminate.
  - vm_compute. reflexivity.
Qed.

Lemma C3_remove_witness :
  StatusCode (fst (apiRemoveSourceHandler
                     (Payload (str " https://news.ycombinator.com/rss ")) feedSources0))
    = StatusOK /\
  snd (apiRemoveSourceHandler
         (Payload (str " https://news.ycombinator.com/rss ")) feedSources0)
    = [str "https://www.reddit.com/r/golang/.rss"].
Proof.
  destruct (C3_remove feedSources0 (str " https://news.ycombinator.com/rss "))
    as (_ & _ & H).
  destruct H as (Hstatus & Hlist & _).
  - vm_compute. discriminate.
  - vm_compute. left. reflexivity.
  - split; [exact Hstatus|]. rewrite Hlist. vm_compute. reflexivity.
Defined.

(** C2, the claim as stated, fails: a url with surrounding spaces does not
    parse as a URL and is not in the list, yet Add succeeds, and what it
    appends is not the url but the trimmed url. *)
Lemma C2_counterexample :
  url.Parse (str " https://x/rss ") = None /\
  ~ In (str " https://x/rss ") feedSources0 /\
  apiAddSourceHandler (Payload (str " https://x/rss ")) feedSources0
    = (WriteHeader StatusCreated, feedSources0 ++ [str "https://x/rss"]) /\
  feedSources0 ++ [str "https://x/rss"] <> feedSources0 ++ [str " https://x/rss "].
Proof.
  split; [vm_compute; reflexivity|].
  split; [simpl; intros [H|[H|[]]]; discriminate|].
  split; [vm_compute; reflexivity|].
  vm_compute. discriminate.
Qed.

Lemma C2_add_witness :
  StatusCode (fst (apiAddSourceHandler (Payload (str " https://x/rss ")) feedSources0))
    = StatusCreated /\
  snd (apiAddSourceHandler (Payload (str " https://x/rss ")) feedSources0)
    = feedSources0 ++ [str "https://x/rss"].
Proof.
  destruct (C2_add feedSources0 (str " https://x/rss ")) as (_ & _ & H & _).
  destruct H as (Hstatus & Hlist).
  - vm_compute. discriminate.
  - vm_compute. reflexivity.
  - vm_compute. intros [H|[H|[]]]; discriminate.
  - split; [exact Hstatus|]. rewrite Hlist. vm_compute. reflexivity.
Defined.

(** ** The registry invariant *)

(** What one operation does to the registry: nothing, an append of a new
    entry, or the deletion of the entries equal to one url. *)
Lemma step_cases (l : list gostring) (op : Op) :
  step l op = l \/
  (exists u, ~ In u l /\ step l op = l ++ [u]) \/
  (exists u, In u l /\ step l op = filter (keeps u) l).
Proof.
  destruct op as [[|URL0]|[|URL0]]; unfold step; try (left; reflexivity).
  - rewrite apiAddSourceHandler_eq. cbv zeta.
    destruct (url.isEmpty _ || negb (absoluteURL _)); [now left|].
    destruct (hasSource l (strings.TrimSpace URL0)) eqn:Hhas; [now left|].
    right; left. exists (strings.TrimSpace URL0).
    split; [now apply hasSource_not_In | reflexivity].
  - rewrite apiRemoveSourceHandler_eq. cbv zeta.
    destruct (url.isEmpty _); [now left|].
    destruct (hasSource l (strings.TrimSpace URL0)) eqn:Hhas; [|now left].
    right; right. exists (strings.TrimSpace URL0).
    split; [now apply hasSource_In | reflexivity].
Qed.

Lemma NoDup_snoc {A : Type} (l : list A) (x : A) :
  NoDup l -> ~ In x l -> NoDup (l ++ [x]).
Proof.
  intros Hnd Hx. apply NoDup_app; [exact Hnd | repeat constructor; intros [] | ].
  intros y Hy [->|[]]. contradiction.
Qed.

Lemma step_NoDup (l : list gostring) (op : Op) : NoDup l -> NoDup (step l op).
Proof.
  intros Hnd. destruct (step_cases l op) as [->|[(u & Hu & ->)|(u & Hu & ->)]].
  - exact Hnd.
  - now apply NoDup_snoc.
  - now apply NoDup_filter.
Qed.

Lemma fold_step_NoDup (ops : list Op) (l : list gostring) :
  NoDup l -> NoDup (fold_left step ops l).
Proof.
  revert l; induction ops as [|op ops IH]; intros l Hnd; simpl; [exact Hnd|].
  apply IH. now apply step_NoDup.
Qed.

Lemma feedSources0_NoDup : NoDup feedSources0.
Proof.
  constructor; [simpl; intros [H|[]]; discriminate|].
  constructor; [intros []|constructor].
Qed.

(** The stamped run, with the stamps erased, is the run. *)
Lemma step_stamped_erase (clock : nat) (st : list (nat * gostring)) (op : Op) :
  map snd (step_stamped clock st op) = step (map snd st) op.
Proof.
  destruct op as [[|URL0]|[|URL0]]; unfold step_stamped, step; try reflexivity.
  - rewrite apiAddSourceHandler_eq. cbv zeta.
    destruct (url.isEmpty _ || negb (absoluteURL _)); [reflexivity|].
    destruct (hasSource _ _); [reflexivity|].
    simpl. rewrite map_app. simpl. now rewrite last_last.
  - rewrite apiRemoveSourceHandler_eq. cbv zeta.
    destruct (url.isEmpty _); [reflexivity|].
    destruct (hasSource (map snd st) (strings.TrimSpace URL0)) eqn:Hhas; [|reflexivity].
    simpl. set (URL := strings.TrimSpace URL0).
    assert (Hsub : forall st' : list (nat * gostring), incl (map snd st') (map snd st) ->
              map snd (filter (fun e => hasSource (filter (keeps URL) (map snd st)) (snd e)) st')
              = filter (keeps URL) (map snd st')).
    { induction st' as [|[n s] st' IH]; intros Hincl; [reflexivity|]. simpl.
      assert (Hs : In s (map snd st)) by (apply Hincl; now left).
      assert (Hrest : incl (map snd st') (map snd st)).
      { intros x Hx. apply Hincl. now right. }
      destruct (keeps URL s) eqn:Hk.
      - assert (Hh : hasSource (filter (keeps URL) (map snd st)) s = true).
        { apply hasSource_In. apply filter_In. now split. }
        rewrite Hh. simpl. now rewrite IH.
      - assert (Hh : hasSource (filter (keeps URL) (map snd st)) s = false).
        { apply hasSource_not_In. intros Hin. apply filter_In in Hin. destruct Hin. congruence. }
        rewrite Hh. now apply IH. }
    apply Hsub. apply incl_refl.
Qed.

(** One stamped step keeps the stamps increasing and below the next clock. *)
Lemma step_stamped_sorted (clock : nat) (st : list (nat * gostring)) (op : Op) :
  StronglySorted lt (map fst st) -> Forall (fun n => (n < clock)%nat) (map fst st) ->
  StronglySorted lt (map fst (step_stamped clock st op)) /\
  Forall (fun n => (n < S clock)%nat) (map fst (step_stamped clock st op)).
Proof.
  intros Hs Hb.
  assert (Hb' : Forall (fun n => (n < S clock)%nat) (map fst st)).
  { eapply Forall_impl; [|exact Hb]. simpl. intros; lia. }
  assert (Hfilter : forall f, StronglySorted lt (map fst (filter f st)) /\
            Forall (fun n => (n < S clock)%nat) (map fst (filter f st))).
  { intros f. clear Hb. induction st as [|[n s] st IH]; simpl; [split; constructor|].
    simpl in Hs, Hb'. inversion Hs as [|? ? Hs' Hn]; subst.
    inversion Hb' as [|? ? Hn' Hb'']; subst.
    destruct (IH Hs' Hb'') as [IH1 IH2].
    destruct (f (n, s)); simpl; [|now split].
    split; [|now constructor]. constructor; [exact IH1|].
    rewrite Forall_forall in *. intros x Hx. apply Hn.
    apply in_map_iff in Hx as ([m t] & <- & Hin). apply filter_In in Hin as [Hin _].
    apply in_map_iff. now exists (m, t). }
  destruct op as [r|r]; unfold step_stamped.
  - destruct (apiAddSourceHandler r (map snd st)) as [[msg code|code|items|l] l'];
      try (now split).
    rewrite map_app. simpl. split.
    + clear Hb'. induction (map fst st) as [|n ns IH]; simpl.
      * repeat constructor.
      * inversion Hs; subst. inversion Hb; subst. constructor; [now apply IH|].
        apply Forall_app. split; [assumption|]. now repeat constructor.
    + apply Forall_app. split; [exact Hb'|]. repeat constructor.
  - destruct (apiRemoveSourceHandler r (map snd st)) as [[msg code|code|items|l] l'];
      try (now split).
    apply Hfilter.
Qed.

Lemma run_stamped_from_spec (ops : list Op) (clock : nat) (st : list (nat * gostring)) :
  StronglySorted lt (map fst st) -> Forall (fun n => (n < clock)%nat) (map fst st) ->
  map snd (run_stamped_from ops clock st) = fold_left step ops (map snd st) /\
  StronglySorted lt (map fst (run_stamped_from ops clock st)).
Proof.
  revert clock st; induction ops as [|op ops IH]; intros clock st Hs Hb; simpl.
  - now split.
  - destruct (step_stamped_sorted clock st op Hs Hb) as [Hs' Hb'].
    destruct (IH (S clock) _ Hs' Hb') as [IH1 IH2].
    rewrite IH1, step_stamped_erase. now split.
Qed.

(** C4.  Every registry state reachable from the two defaults by Add and
    Remove operations has no duplicate entry, and its order is insertion
    order: an operation leaves the list as it is, appends one new entry at
    the end, or deletes one entry and keeps the others in their order; so
    the entries always stand in the order of the times at which they were
    inserted. *)
Theorem C4_registry_invariant (ops : list Op) :
  NoDup (run ops) /\
  (forall op,
     step (run ops) op = run ops \/
     (exists u, ~ In u (run ops) /\ step (run ops) op = run ops ++ [u]) \/
     (exists u l1 l2, run ops = l1 ++ u :: l2 /\ step (run ops) op = l1 ++ l2)) /\
  map snd (run_stamped ops) = run ops /\
  StronglySorted lt (map fst (run_stamped ops)).
Proof.
  assert (Hnd : NoDup (run ops)) by (apply fold_step_NoDup, feedSources0_NoDup).
  split; [exact Hnd|]. split.
  - intros op. destruct (step_cases (run ops) op) as [H|[H|(u & Hu & H)]]; auto.
    right; right. destruct (filter_keeps_NoDup u (run ops) Hnd Hu) as (l1 & l2 & H1 & H2).
    exists u, l1, l2. split; [exact H1|]. now rewrite H, H2.
  - apply (run_stamped_from_spec ops 2 (combine [0%nat; 1%nat] feedSources0)).
    + simpl. repeat constructor.
    + simpl. repeat constructor.
Qed.

(* ===================================================================== *)
(** * Facts: the date parser and the fetcher *)
(* ===================================================================== *)

Section FetchFacts.

Context {E : Env}.

(** The loop over the layouts returns the first layout that parses. *)
Lemma parsePubDate_layouts_first (ls : list gostring) (v : gostring) (k : nat)
    (l : gostring) (t : time.Time) :
  nth_error ls k = Some l -> time_Parse l v = Some t ->
  (forall i l', (i < k)%nat -> nth_error ls i = Some l' -> time_Parse l' v = None) ->
  parsePubDate_layouts ls v = Some t.
Proof.
  revert k; induction ls as [|l0 ls IH]; intros k Hk Ht Hprev.
  - destruct k; discriminate.
  - destruct k as [|k]; simpl in *.
    + injection Hk as ->. now rewrite Ht.
    + rewrite (Hprev 0%nat l0) by (simpl; auto; lia).
      apply (IH k); auto. intros i l' Hi Hl'. apply (Hprev (S i)); [lia | exact Hl'].
Qed.

Lemma parsePubDate_layouts_none (ls : list gostring) (v : gostring) :
  parsePubDate_layouts ls v = None <-> (forall l, In l ls -> time_Parse l v = None).
Proof.
  induction ls as [|l0 ls IH]; simpl.
  - split; [intros _ l [] | reflexivity].
  - destruct (time_Parse l0 v) eqn:H0.
    + split; [discriminate|]. intros H. rewrite (H l0) in H0 by now left. discriminate.
    + rewrite IH. split.
      * intros H l [<-|Hl]; auto.
      * intros H l Hl. apply H. now right.
Qed.

Lemma parsePubDate_Done (v : gostring) (w : World) :
  exists t e w', parsePubDate v w = (Done (t, e), w').
Proof.
  unfold parsePubDate.
  destruct (parsePubDate_layouts layouts v); [now eexists _, _, _|].
  destruct (time_Parse _ v); [now eexists _, _, _|].
  unfold bind, now. destruct (time_Now w). now eexists _, _, _.
Qed.

(** [http.Get] does not panic, and a response means that the URL parsed,
    with an http or https scheme. *)
Lemma http_Get_Done (feedURL : gostring) (w : World) :
  exists r w', http_Get feedURL w = (Done r, w') /\
    (forall body, r = Some body ->
       exists u, url.Parse feedURL = Some u /\
         (url.Scheme u = str "http" \/ url.Scheme u = str "https")).
Proof.
  unfold http_Get. destruct (url.Parse feedURL) as [u|].
  - destruct ((streq (url.Scheme u) (str "http") || streq (url.Scheme u) (str "https"))
              && negb (url.isEmpty (url.Host u))) eqn:Hok.
    + destruct (roundTrip u w) as [r w'] eqn:Hrt. exists r, w'. split; [reflexivity|].
      intros body _. exists u. split; [reflexivity|].
      apply andb_prop in Hok as [Hs _]. apply orb_prop in Hs as [Hs|Hs];
        apply streq_spec in Hs; auto.
    + exists None, w. split; [reflexivity | discriminate].
  - exists None, w. split; [reflexivity | discriminate].
Qed.

Lemma fetchFeed_link_base (base : url.URL) (it_Link : gostring) :
  fetchFeed_link (Some base) it_Link = Done (resolvedLink base it_Link).
Proof.
  unfold fetchFeed_link, resolvedLink.
  destruct (url.Parse it_Link) as [link|]; [|reflexivity].
  now destruct (url.IsAbs link).
Qed.

(** With a base URL the loop of the fetcher does not panic and yields one
    normalized item per channel item, in order. *)
Lemma fetchFeed_items_spec (base : url.URL) (title : gostring) (its : list Item.t)
    (w : World) :
  exists items w',
    fetchFeed_items (Some base) title its w = (Done items, w') /\
    Forall2 (normalizes base title) its items.
Proof.
  revert w; induction its as [|it its IH]; intros w; simpl.
  - exists [], w. split; [reflexivity | constructor].
  - unfold bind at 1.
    destruct (parsePubDate_Done (Item.PubDate it) w) as (t & e & w1 & Hp). rewrite Hp.
    unfold bind at 1. rewrite fetchFeed_link_base.
    unfold bind at 1. destruct (IH w1) as (items & w' & Hitems & Hall). rewrite Hitems.
    eexists _, w'. split; [reflexivity|].
    constructor; [|exact Hall].
    repeat split; simpl; try reflexivity. now exists w, e, w1.
Qed.

(** What [fetchFeed] returns, by the outcome of the request and of the
    decoder.  It never panics: a response is only there when the feed URL
    parsed, so the base URL is not nil. *)
Lemma fetchFeed_cases (feedURL : gostring) (w : World) :
  exists r w1, http_Get feedURL w = (Done r, w1) /\
  match r with
  | None => fetchFeed feedURL w = (Done (inr (GET_error feedURL)), w1)
  | Some body =>
    match xml_Decode body with
    | None => fetchFeed feedURL w = (Done (inr (decode_XML_error feedURL)), w1)
    | Some rss =>
      exists base items w',
        url.Parse feedURL = Some base /\
        (url.Scheme base = str "http" \/ url.Scheme base = str "https") /\
        fetchFeed feedURL w = (Done (inl items), w') /\
        Forall2 (normalizes base (Channel.Title (RSS.Channel rss)))
                (Channel.Items (RSS.Channel rss)) items
    end
  end.
Proof.
  destruct (http_Get_Done feedURL w) as (r & w1 & Hget & Hurl).
  exists r, w1. split; [exact Hget|].
  unfold fetchFeed, bind. rewrite Hget.
  destruct r as [body|]; [|reflexivity].
  destruct (xml_Decode body) as [rss|]; [|reflexivity].
  destruct (Hurl body eq_refl) as (base & Hbase & Hscheme).
  rewrite Hbase.
  destruct (fetchFeed_items_spec base (Channel.Title (RSS.Channel rss))
              (Channel.Items (RSS.Channel rss)) w1) as (items & w' & Hitems & Hall).
  exists base, items, w'. repeat split; auto.
  now rewrite Hitems.
Qed.

Lemma fetchFeed_Done (feedURL : gostring) (w : World) :
  exists r w', fetchFeed feedURL w = (Done r, w').
Proof.
  destruct (fetchFeed_cases feedURL w) as (r & w1 & _ & H).
  destruct r as [body|]; [|eexists _, _; exact H].
  destruct (xml_Decode body); [|eexists _, _; exact H].
  destruct H as (base & items & w' & _ & _ & H & _). eexists _, _; exact H.
Qed.

(** A decoded document gives its normalized items. *)
Lemma fetchFeed_decoded (feedURL : gostring) (w w1 : World) (body : gostring)
    (rss : RSS.t) :
  http_Get feedURL w = (Done (Some body), w1) -> xml_Decode body = Some rss ->
  exists base items w',
    url.Parse feedURL = Some base /\
    (url.Scheme base = str "http" \/ url.Scheme base = str "https") /\
    fetchFeed feedURL w = (Done (inl items), w') /\
    Forall2 (normalizes base (Channel.Title (RSS.Channel rss)))
            (Channel.Items (RSS.Channel rss)) items.
Proof.
  intros Hget Hdec. destruct (fetchFeed_cases feedURL w) as (r & w1' & Hget' & H).
  rewrite Hget in Hget'. injection Hget' as <- <-. now rewrite Hdec in H.
Qed.

Lemma Forall2_nth_error {A B : Type} (R : A -> B -> Prop) (l : list A) (l' : list B) :
  Forall2 R l l' ->
  forall k a, nth_error l k = Some a -> exists b, nth_error l' k = Some b /\ R a b.
Proof.
  induction 1 as [|x y l l' Hxy _ IH]; intros k a Hk.
  - destruct k; discriminate.
  - destruct k as [|k]; simpl in *.
    + injection Hk as <-. now exists y.
    + now apply IH.
Qed.

(** The loop of the aggregator: the items of the successful fetches are
    appended to [all] in source order; nothing panics. *)
Lemma aggregateFeeds_loop_spec (sources : list gostring) (all : list FeedItem.t)
    (w : World) :
  aggregateFeeds_loop sources all w =
  (Done (all ++ successes (fst (fetchResults sources w))), snd (fetchResults sources w)).
Proof.
  revert all w; induction sources as [|src rest IH]; intros all w; simpl.
  - unfold successes. simpl. now rewrite app_nil_r.
  - unfold bind. destruct (fetchFeed_Done src w) as (r & w' & Hf). rewrite Hf.
    destruct (fetchResults rest w') as [rs w''] eqn:Hrs.
    destruct r as [itms|e]; rewrite IH, Hrs; simpl.
    + unfold successes. simpl. now rewrite app_assoc.
    + reflexivity.
Qed.

Lemma aggregateFeeds_eq (feedSources : list gostring) (w : World) :
  aggregateFeeds feedSources w =
  (Done (sort.Slice newestFirst xorshiftNext (successes (fst (fetchResults feedSources w))),
         None),
   snd (fetchResults feedSources w)).
Proof.
  unfold aggregateFeeds, bind. now rewrite aggregateFeeds_loop_spec.
Qed.

End FetchFacts.

(* ===================================================================== *)
(** * Claims on the date parser and the fetcher *)
(* ===================================================================== *)

(** C5.  The date parser tries the layouts in the order RFC1123 with numeric
    zone, RFC1123, RFC822 with numeric zone, RFC822, RFC3339, then the
    fallback layout without timezone, and returns the timestamp of the first
    layout that parses, with a nil error.  It returns a non-nil error if and
    only if all six layouts fail, and then the timestamp is the current
    wall-clock time. *)
Theorem C5_parsePubDate {E : Env} (v : gostring) (w : World) :
  let order := [ time.RFC1123Z; time.RFC1123; time.RFC822Z; time.RFC822; time.RFC3339;
                 str "Mon, 02 Jan 2006 15:04:05" ] in
  (forall k layout t,
     nth_error order k = Some layout -> time_Parse layout v = Some t ->
     (forall i l, (i < k)%nat -> nth_error order i = Some l -> time_Parse l v = None) ->
     parsePubDate v w = (Done (t, None), w)) /\
  ((forall l, In l order -> time_Parse l v = None) <->
   (exists t e w', parsePubDate v w = (Done (t, Some e), w'))) /\
  ((forall l, In l order -> time_Parse l v = None) ->
   parsePubDate v w
   = (Done (fst (time_Now w), Some (unparseable_date v)), snd (time_Now w))).
Proof.
  cbv zeta.
  change [time.RFC1123Z; time.RFC1123; time.RFC822Z; time.RFC822; time.RFC3339;
          str "Mon, 02 Jan 2006 15:04:05"]
    with (layouts ++ [str "Mon, 02 Jan 2006 15:04:05"]).
  assert (Hfail : (forall l, In l (layouts ++ [str "Mon, 02 Jan 2006 15:04:05"]) ->
                     time_Parse l v = None) ->
                  parsePubDate v w
                  = (Done (fst (time_Now w), Some (unparseable_date v)), snd (time_Now w))).
  { intros Hall. unfold parsePubDate.
    assert (H1 : parsePubDate_layouts layouts v = None).
    { apply parsePubDate_layouts_none. intros l Hl. apply Hall, in_or_app. now left. }
    assert (H2 : time_Parse (str "Mon, 02 Jan 2006 15:04:05") v = None).
    { apply Hall, in_or_app. right. now left. }
    rewrite H1, H2. unfold bind, now. now destruct (time_Now w). }
  split; [|split; [split|]]; auto.
  - intros k layout t Hk Ht Hprev. unfold parsePubDate.
    destruct (Nat.lt_ge_cases k (length layouts)) as [Hlt|Hge].
    + rewrite nth_error_app1 in Hk by exact Hlt.
      rewrite (parsePubDate_layouts_first layouts v k layout t); auto.
      intros i l Hi Hl. apply (Hprev i); [exact Hi|].
      rewrite nth_error_app1; [exact Hl | lia].
    + assert (H1 : parsePubDate_layouts layouts v = None).
      { apply parsePubDate_layouts_none. intros l Hl.
        apply In_nth_error in Hl as [i Hi].
        assert (Hi' : (i < length layouts)%nat) by (apply nth_error_Some; congruence).
        apply (Hprev i); [lia|]. now rewrite nth_error_app1. }
      rewrite H1. rewrite nth_error_app2 in Hk by exact Hge.
      destruct (k - length layouts)%nat as [|[|n]]; cbn [nth_error] in Hk; try discriminate.
      injection Hk as <-.
      replace (time_Parse (str "Mon, 02 Jan 2006 15:04:05") v) with (Some t)
        by (rewrite <- Ht; reflexivity).
      reflexivity.
  - intros Hall. rewrite (Hfail Hall). now eexists _, _, _.
  - intros (t & e & w' & Hp) l Hl. unfold parsePubDate in Hp.
    destruct (parsePubDate_layouts layouts v) eqn:H1; [discriminate|].
    destruct (time_Parse (str "Mon, 02 Jan 2006 15:04:05") v) eqn:H2; [discriminate|].
    apply in_app_or in Hl as [Hl|[<-|[]]]; [|exact H2].
    now apply (proj1 (parsePubDate_layouts_none layouts v) H1).
Qed.

(** In the example world, an RFC 3339 date is parsed by the fifth layout
    after the four before it failed, and an unparseable date gives the
    clock reading with an error. *)
Lemma C5_parsePubDate_witness :
  @parsePubDate (demoEnv (fun _ => None)) (str "2024-01-01T00:00:00Z") 7
    = (Done (1704067200000000000, None), 7) /\
  @parsePubDate (demoEnv (fun _ => None)) (str "yesterday") 7
    = (Done (7, Some (unparseable_date (str "yesterday"))), 8).
Proof.
  split.
  - apply (proj1 (@C5_parsePubDate (demoEnv (fun _ => None))
                    (str "2024-01-01T00:00:00Z") 7)
             4%nat time.RFC3339 1704067200000000000).
    + reflexivity.
    + vm_compute. reflexivity.
    + intros i l Hi Hl.
      destruct i as [|[|[|[|i]]]]; [| | | |lia]; injection Hl as <-; vm_compute; reflexivity.
  - apply (proj2 (proj2 (@C5_parsePubDate (demoEnv (fun _ => None)) (str "yesterday") 7))).
    intros l Hl. simpl in Hl.
    destruct Hl as [<-|[<-|[<-|[<-|[<-|[<-|[]]]]]]]; vm_compute; reflexivity.
Defined.

(** C10.  For a successfully decoded feed document the fetcher produces
    exactly one feed item per channel item, in document order: the output
    has the length of the channel's item list and its k-th item is the
    normal form of the k-th channel item.  A pubDate that fails to parse
    does not drop the item: its timestamp is what the date parser returned,
    error or not. *)
Theorem C10_one_item_per_entry {E : Env} (feedURL body : gostring) (rss : RSS.t)
    (w w1 : World) :
  http_Get feedURL w = (Done (Some body), w1) ->
  xml_Decode body = Some rss ->
  exists items w',
    fetchFeed feedURL w = (Done (inl items), w') /\
    length items = length (Channel.Items (RSS.Channel rss)) /\
    (forall k it, nth_error (Channel.Items (RSS.Channel rss)) k = Some it ->
       exists fi, nth_error items k = Some fi /\
         FeedItem.Title fi = strings.TrimSpace (Item.Title it) /\
         FeedItem.Description fi = strings.TrimSpace (Item.Description it) /\
         FeedItem.Source fi = Channel.Title (RSS.Channel rss) /\
         exists w0 e w0',
           parsePubDate (Item.PubDate it) w0 = (Done (FeedItem.Published fi, e), w0')).
Proof.
  intros Hget Hdec.
  destruct (fetchFeed_decoded feedURL w w1 body rss Hget Hdec)
    as (base & items & w' & _ & _ & Hfetch & Hall).
  exists items, w'. split; [exact Hfetch|]. split.
  - symmetry. eapply Forall2_length, Hall.
  - intros k it Hk.
    destruct (Forall2_nth_error _ _ _ Hall k it Hk) as (fi & Hfi & Ht & _ & Hd & Hs & Hp).
    exists fi. auto.
Qed.

(** Resolution as the tables of examples have it. *)
Lemma resolutionExamples_ok : forallb resolvesTo resolutionExamples = true.
Proof. vm_compute. reflexivity. Qed.

(** C7 (as amended).  For a successfully decoded feed at the URL F, an item
    whose link parses as a relative URL has its link replaced by the
    resolution of that link against F, and the feed item carries the
    resolution trimmed of white space at either end, like the other fields.
    The resolution is that of RFC 3986: the reference is merged with the
    directory of the path of F and dot segments are removed, as in all the
    examples of its section 5.4; the link "post/1" of a feed at
    "https://example.com/blog/feed.xml" becomes
    "https://example.com/blog/post/1", the link "../a/./b" becomes
    "https://example.com/a/b"; in particular the link "/foo" of a feed at
    "https://example.com/rss" becomes "https://example.com/foo". *)
Theorem C7_relative_links {E : Env} (feedURL body : gostring) (rss : RSS.t)
    (w w1 : World) :
  http_Get feedURL w = (Done (Some body), w1) ->
  xml_Decode body = Some rss ->
  exists F items w',
    url.Parse feedURL = Some F /\
    fetchFeed feedURL w = (Done (inl items), w') /\
    (forall k it link,
       nth_error (Channel.Items (RSS.Channel rss)) k = Some it ->
       url.Parse (Item.Link it) = Some link -> url.IsAbs link = false ->
       fetchFeed_link (Some F) (Item.Link it)
         = Done (url.String (url.ResolveReference F link)) /\
       exists fi, nth_error items k = Some fi /\
         FeedItem.Link fi = strings.TrimSpace (url.String (url.ResolveReference F link))) /\
    (feedURL = str "https://example.com/rss" ->
     forall k it,
       nth_error (Channel.Items (RSS.Channel rss)) k = Some it ->
       Item.Link it = str "/foo" ->
       exists fi, nth_error items k = Some fi /\
         FeedItem.Link fi = str "https://example.com/foo") /\
    (forall base ref target,
       In (base, ref, target) resolutionExamples ->
       feedURL = str base ->
       forall k it,
         nth_error (Channel.Items (RSS.Channel rss)) k = Some it ->
         Item.Link it = str ref ->
         exists fi, nth_error items k = Some fi /\ FeedItem.Link fi = str target).
Proof.
  intros Hget Hdec.
  destruct (fetchFeed_decoded feedURL w w1 body rss Hget Hdec)
    as (base & items & w' & Hbase & _ & Hfetch & Hall).
  exists base, items, w'. split; [exact Hbase|]. split; [exact Hfetch|].
  split; [|split].
  - intros k it link Hk Hlink Habs.
    destruct (Forall2_nth_error _ _ _ Hall k it Hk) as (fi & Hfi & _ & Hl & _).
    assert (Hres : resolvedLink base (Item.Link it)
                   = url.String (url.ResolveReference base link)).
    { unfold resolvedLink. now rewrite Hlink, Habs. }
    split.
    + now rewrite fetchFeed_link_base, Hres.
    + exists fi. split; [exact Hfi|]. now rewrite Hl, Hres.
  - intros -> k it Hk Hfoo.
    destruct (Forall2_nth_error _ _ _ Hall k it Hk) as (fi & Hfi & _ & Hl & _).
    exists fi. split; [exact Hfi|]. rewrite Hl, Hfoo.
    assert (Hb : base = url.mkURL (str "https") [] None (str "example.com") (str "/rss")
                                  [] false false [] [] []).
    { apply (f_equal (fun o => match o with Some u => u | None => base end)) in Hbase.
      simpl in Hbase. rewrite <- Hbase. vm_compute. reflexivity. }
    rewrite Hb. vm_compute. reflexivity.
  - intros base0 ref target Hin -> k it Hk Href.
    destruct (Forall2_nth_error _ _ _ Hall k it Hk) as (fi & Hfi & _ & Hl & _).
    exists fi. split; [exact Hfi|]. rewrite Hl, Href.
    pose proof (proj1 (forallb_forall resolvesTo resolutionExamples)
                  resolutionExamples_ok _ Hin) as Hok.
    unfold resolvesTo in Hok. rewrite Hbase in Hok. now apply streq_spec.
Qed.

(** The claim without the trimming fails: the link "/path?x=1 ", with a
    space at the end of its query, parses as a relative URL; its resolution
    against "https://example.com/rss" ends with that space, and the feed
    item has it without. *)
Lemma C7_counterexample :
  exists F link fi w',
    url.Parse (str "https://example.com/rss") = Some F /\
    url.Parse (str "/path?x=1 ") = Some link /\
    url.IsAbs link = false /\
    @fetchFeed (demoEnv querySite) (str "https://example.com/rss") 0
      = (Done (inl [fi]), w') /\
    url.String (url.ResolveReference F link) = str "https://example.com/path?x=1 " /\
    FeedItem.Link fi = str "https://example.com/path?x=1" /\
    FeedItem.Link fi <> url.String (url.ResolveReference F link).
Proof.
  eexists. eexists. eexists. eexists.
  split; [vm_compute; reflexivity|].
  split; [vm_compute; reflexivity|].
  split; [vm_compute; reflexivity|].
  split; [vm_compute; reflexivity|].
  split; [vm_compute; reflexivity|].
  split; [vm_compute; reflexivity|].
  vm_compute. discriminate.
Qed.

Lemma C10_one_item_per_entry_witness :
  exists items w',
    @fetchFeed (demoEnv demoSite) (str "https://example.com/rss") 100
      = (Done (inl items), w') /\
    length items = 3%nat.
Proof.
  destruct (@C10_one_item_per_entry (demoEnv demoSite) (str "https://example.com/rss")
              (str "https://example.com/rss") demoFeed 100 100)
    as (items & w' & Hfetch & Hlen & _).
  - vm_compute. reflexivity.
  - vm_compute. reflexivity.
  - exists items, w'. split; [exact Hfetch | exact Hlen].
Defined.

Lemma C7_relative_links_witness :
  (exists items w',
     @fetchFeed (demoEnv demoSite) (str "https://example.com/rss") 100
       = (Done (inl items), w') /\
     exists fi, nth_error items 0 = Some fi /\
       FeedItem.Link fi = str "https://example.com/foo") /\
  (exists items w',
     @fetchFeed (demoEnv blogSite) (str "https://example.com/blog/feed.xml") 0
       = (Done (inl items), w') /\
     (exists fi, nth_error items 0 = Some fi /\
        FeedItem.Link fi = str "https://example.com/blog/post/1") /\
     (exists fi, nth_error items 1 = Some fi /\
        FeedItem.Link fi = str "https://example.com/a/b")).
Proof.
  split.
  - destruct (@C7_relative_links (demoEnv demoSite) (str "https://example.com/rss")
                (str "https://example.com/rss") demoFeed 100 100)
      as (F & items & w' & _ & Hfetch & _ & Hfoo & _).
    + vm_compute. reflexivity.
    + vm_compute. reflexivity.
    + exists items, w'. split; [exact Hfetch|].
      apply (Hfoo eq_refl 0%nat (Item.mk (str " First ") (str "/foo") (str "one")
                                         (str "2024-01-01T00:00:00Z"))); reflexivity.
  - destruct (@C7_relative_links (demoEnv blogSite)
                (str "https://example.com/blog/feed.xml")
                (str "https://example.com/blog/feed.xml") blogFeed 0 0)
      as (F & items & w' & _ & Hfetch & _ & _ & Hex).
    + vm_compute. reflexivity.
    + vm_compute. reflexivity.
    + exists items, w'. split; [exact Hfetch|]. split.
      * apply (Hex "https://example.com/blog/feed.xml"%string "post/1"%string
                   "https://example.com/blog/post/1"%string
                   ltac:(apply in_or_app; right; left; reflexivity) eq_refl 0%nat
                   (Item.mk (str "One") (str "post/1") [] (str "2024-01-01T00:00:00Z")));
          reflexivity.
      * apply (Hex "https://example.com/blog/feed.xml"%string "../a/./b"%string
                   "https://example.com/a/b"%string
                   ltac:(apply in_or_app; right; right; left; reflexivity) eq_refl 1%nat
                   (Item.mk (str "Two") (str "../a/./b") [] (str "2024-01-02T00:00:00Z")));
          reflexivity.
Defined.

(* ===================================================================== *)
(** * Facts: [sort.Slice] rearranges *)
(* ===================================================================== *)

Module sort_perm.

Section Perm.

Context {A : Type}.
Variable less : A -> A -> bool.
Variable xorshiftNext : Z -> Z.

Lemma update_length (data : list A) (i : nat) (x : A) :
  length (sort.update data i x) = length data.
Proof.
  revert i; induction data as [|h t IH]; intros [|i]; simpl; auto.
Qed.

Lemma nth_error_update_eq (data : list A) (i : nat) (x : A) :
  (i < length data)%nat -> nth_error (sort.update data i x) i = Some x.
Proof.
  revert i; induction data as [|h t IH]; intros [|i] Hi; simpl in *; try lia; auto.
  apply IH. lia.
Qed.

Lemma nth_error_update_neq (data : list A) (i k : nat) (x : A) :
  i <> k -> nth_error (sort.update data i x) k = nth_error data k.
Proof.
  revert i k; induction data as [|h t IH]; intros [|i] [|k] Hik; simpl; auto;
    try congruence.
Qed.

(** Writing back two elements of a list in exchanged places is a
    permutation. *)
Lemma update_update_Permutation (data : list A) (i j : nat) (x y : A) :
  nth_error data i = Some x -> nth_error data j = Some y ->
  Permutation (sort.update (sort.update data i y) j x) data.
Proof.
  revert i j; induction data as [|h t IH]; intros i j Hi Hj.
  - destruct i; discriminate.
  - destruct i as [|i], j as [|j]; simpl in *.
    + injection Hi as ->. injection Hj as ->. reflexivity.
    + injection Hi as ->.
      assert (Hsplit : exists l1 l2, t = l1 ++ y :: l2 /\ length l1 = j).
      { apply nth_error_split in Hj as (l1 & l2 & -> & Hl). now exists l1, l2. }
      destruct Hsplit as (l1 & l2 & -> & <-).
      assert (Hu : sort.update (l1 ++ y :: l2) (length l1) x = l1 ++ x :: l2).
      { clear. induction l1 as [|a l1 IH1]; simpl; [reflexivity | now rewrite IH1]. }
      rewrite Hu.
      transitivity (y :: x :: l1 ++ l2).
      * constructor. symmetry. apply Permutation_middle.
      * transitivity (x :: y :: l1 ++ l2); [apply perm_swap|].
        constructor. apply Permutation_middle.
    + injection Hj as ->.
      assert (Hsplit : exists l1 l2, t = l1 ++ x :: l2 /\ length l1 = i).
      { apply nth_error_split in Hi as (l1 & l2 & -> & Hl). now exists l1, l2. }
      destruct Hsplit as (l1 & l2 & -> & <-).
      assert (Hu : sort.update (l1 ++ x :: l2) (length l1) y = l1 ++ y :: l2).
      { clear. induction l1 as [|a l1 IH1]; simpl; [reflexivity | now rewrite IH1]. }
      rewrite Hu.
      transitivity (x :: y :: l1 ++ l2).
      * constructor. symmetry. apply Permutation_middle.
      * transitivity (y :: x :: l1 ++ l2); [apply perm_swap|].
        constructor. apply Permutation_middle.
    + constructor. now apply IH.
Qed.

Lemma Swap_Permutation (data : list A) (i j : nat) :
  Permutation (sort.Swap data i j) data.
Proof.
  unfold sort.Swap.
  destruct (nth_error data i) as [x|] eqn:Hi; [|reflexivity].
  destruct (nth_error data j) as [y|] eqn:Hj; [|reflexivity].
  now apply update_update_Permutation.
Qed.

Hint Resolve Swap_Permutation : core.

Ltac perm_step := etransitivity; [|apply Swap_Permutation].
Ltac perm_head := etransitivity; [apply Swap_Permutation|].

Lemma insertionSort_inner_Permutation (data : list A) (a j : nat) :
  Permutation (sort.insertionSort_inner less data a j) data.
Proof.
  revert data; induction j as [|j IH]; intros data; simpl; [reflexivity|].
  destruct ((a <? S j)%nat && sort.Less less data (S j) j); [|reflexivity].
  perm_step. apply IH.
Qed.

Lemma insertionSort_outer_Permutation (n : nat) (data : list A) (a i b : nat) :
  Permutation (sort.insertionSort_outer less n data a i b) data.
Proof.
  revert data i; induction n as [|n IH]; intros data i; simpl; [reflexivity|].
  destruct (i <? b)%nat; [|reflexivity].
  etransitivity; [apply IH | apply insertionSort_inner_Permutation].
Qed.

Lemma insertionSort_Permutation (data : list A) (a b : nat) :
  Permutation (sort.insertionSort less data a b) data.
Proof. apply insertionSort_outer_Permutation. Qed.

Lemma siftDown_Permutation (data : list A) (lo hi first : nat) :
  Permutation (sort.siftDown less data lo hi first) data.
Proof.
  unfold sort.siftDown. generalize hi at 1 as fuel. intros fuel.
  revert data lo; induction fuel as [|fuel IH]; intros data lo;
    cbn [sort.siftDown_from]; [reflexivity|].
  cbv zeta.
  destruct (hi <=? 2 * lo + 1)%nat; [reflexivity|].
  match goal with |- context [negb ?c] => destruct c end; simpl negb; cbv iota;
    [|reflexivity].
  perm_step. apply IH.
Qed.

Lemma heapSort_Permutation (data : list A) (a b : nat) :
  Permutation (sort.heapSort less data a b) data.
Proof.
  unfold sort.heapSort.
  assert (Hbuild : forall n d hi first, Permutation (sort.heapSort_build less n d hi first) d).
  { induction n as [|n IH]; intros d hi first; simpl; [reflexivity|].
    etransitivity; [apply IH | apply siftDown_Permutation]. }
  assert (Hpop : forall n d first, Permutation (sort.heapSort_pop less n d first) d).
  { induction n as [|n IH]; intros d first; simpl; [reflexivity|].
    etransitivity; [apply IH|]. etransitivity; [apply siftDown_Permutation|]. auto. }
  etransitivity; [apply Hpop | apply Hbuild].
Qed.

Lemma reverseRange_loop_Permutation (n : nat) (data : list A) (i j : nat) :
  Permutation (sort.reverseRange_loop n data i j) data.
Proof.
  revert data i j; induction n as [|n IH]; intros data i j; simpl; [reflexivity|].
  destruct (i <? j)%nat; [|reflexivity]. perm_step. apply IH.
Qed.

Lemma reverseRange_Permutation (data : list A) (a b : nat) :
  Permutation (sort.reverseRange data a b) data.
Proof. apply reverseRange_loop_Permutation. Qed.

Lemma breakPatterns_loop_Permutation (n : nat) (data : list A) (random modulus : Z)
    (a length idx i : nat) :
  Permutation (sort.breakPatterns_loop xorshiftNext n data random modulus a length idx i)
              data.
Proof.
  revert data random i; induction n as [|n IH]; intros data random i;
    cbn [sort.breakPatterns_loop]; [reflexivity|].
  cbv zeta. perm_step. apply IH.
Qed.

Lemma breakPatterns_Permutation (data : list A) (a b : nat) :
  Permutation (sort.breakPatterns xorshiftNext data a b) data.
Proof.
  unfold sort.breakPatterns. destruct (8 <=? b - a)%nat; [|reflexivity].
  apply breakPatterns_loop_Permutation.
Qed.

Lemma partition_loop_Permutation (n : nat) (data : list A) (a i j : nat) :
  Permutation (fst (sort.partition_loop less n data a i j)) data.
Proof.
  revert data i j; induction n as [|n IH]; intros data i j; simpl; [reflexivity|].
  match goal with |- context [if ?c then _ else _] => destruct c end; [reflexivity|].
  perm_step. apply IH.
Qed.

Lemma partition_Permutation (data : list A) (a b pivot : nat) :
  Permutation (fst (fst (sort.partition less data a b pivot))) data.
Proof.
  unfold sort.partition.
  set (data1 := sort.Swap data a pivot).
  set (i := sort.scanUp less (b - a) data1 a (a + 1) (b - 1)).
  set (j := sort.scanDown less (b - a) data1 a i (b - 1)).
  assert (H1 : Permutation data1 data) by apply Swap_Permutation.
  destruct (j <? i)%nat; simpl.
  - perm_head. exact H1.
  - pose proof (partition_loop_Permutation (b - a) (sort.Swap data1 i j) a (S i) (j - 1)) as H.
    destruct (sort.partition_loop less (b - a) (sort.Swap data1 i j) a (S i) (j - 1))
      as [d3 j'].
    simpl in *. perm_head. etransitivity; [exact H|]. perm_head. exact H1.
Qed.

Lemma partitionEqual_Permutation (data : list A) (a b pivot : nat) :
  Permutation (fst (sort.partitionEqual less data a b pivot)) data.
Proof.
  unfold sort.partitionEqual.
  assert (H : forall n d i j, Permutation (fst (sort.partitionEqual_loop less n d a i j)) d).
  { induction n as [|n IH]; intros d i j; simpl; [reflexivity|].
    match goal with |- context [if ?c then _ else _] => destruct c end; [reflexivity|].
    perm_step. apply IH. }
  etransitivity; [apply H | auto].
Qed.

Lemma shiftLeft_Permutation (data : list A) (j : nat) :
  Permutation (sort.shiftLeft less data j) data.
Proof.
  revert data; induction j as [|j IH]; intros data; simpl; [reflexivity|].
  destruct (negb (sort.Less less data (S j) j)); [reflexivity|]. perm_step. apply IH.
Qed.

Lemma shiftRight_Permutation (n : nat) (data : list A) (j b : nat) :
  Permutation (sort.shiftRight less n data j b) data.
Proof.
  revert data j; induction n as [|n IH]; intros data j; simpl; [reflexivity|].
  destruct (j <? b)%nat; [|reflexivity].
  destruct (negb (sort.Less less data j (j - 1))); [reflexivity|]. perm_step. apply IH.
Qed.

Lemma partialInsertionSort_loop_Permutation (n : nat) (data : list A) (a b i : nat) :
  Permutation (fst (sort.partialInsertionSort_loop less n data a b i)) data.
Proof.
  revert data i; induction n as [|n IH]; intros data i;
    cbn [sort.partialInsertionSort_loop]; [reflexivity|].
  cbv zeta.
  destruct (_ =? b)%nat; [reflexivity|].
  destruct (b - a <? sort.shortestShifting)%nat; [reflexivity|].
  etransitivity; [apply IH|].
  etransitivity; [destruct (2 <=? b - _)%nat; [apply shiftRight_Permutation | reflexivity]|].
  etransitivity; [destruct (2 <=? _ - a)%nat; [apply shiftLeft_Permutation | reflexivity]|].
  auto.
Qed.

Lemma partialInsertionSort_Permutation (data : list A) (a b : nat) :
  Permutation (fst (sort.partialInsertionSort less data a b)) data.
Proof. apply partialInsertionSort_loop_Permutation. Qed.

Lemma pdqsort_Permutation (fuel : nat) (data : list A) (a b limit : nat)
    (wasBalanced wasPartitioned : bool) :
  Permutation (sort.pdqsort less xorshiftNext fuel data a b limit wasBalanced wasPartitioned)
              data.
Proof.
  revert data a b limit wasBalanced wasPartitioned.
  induction fuel as [|fuel IH]; intros data a b limit wasBalanced wasPartitioned;
    simpl; [reflexivity|].
  destruct (b - a <=? sort.maxInsertion)%nat; [apply insertionSort_Permutation|].
  destruct (limit =? 0)%nat; [apply heapSort_Permutation|].
  set (dl := if negb wasBalanced
             then (sort.breakPatterns xorshiftNext data a b, (limit - 1)%nat)
             else (data, limit)).
  assert (H1 : Permutation (fst dl) data).
  { unfold dl. destruct (negb wasBalanced); simpl;
      [apply breakPatterns_Permutation | reflexivity]. }
  destruct dl as [data1 limit1]. simpl in H1.
  destruct (sort.choosePivot less data1 a b) as [pivot0 hint0].
  set (t2 := match hint0 with
             | sort.decreasingHint => _
             | _ => _
             end).
  assert (H2 : Permutation (fst (fst t2)) data).
  { unfold t2. destruct hint0; simpl; auto.
    etransitivity; [apply reverseRange_Permutation | exact H1]. }
  destruct t2 as [[data2 pivot] hint]. simpl in H2.
  set (t3 := if wasBalanced && wasPartitioned && _ then _ else _).
  assert (H3 : Permutation (fst t3) data).
  { unfold t3. destruct (wasBalanced && wasPartitioned && _); simpl; auto.
    etransitivity; [apply partialInsertionSort_Permutation | exact H2]. }
  destruct t3 as [data3 sorted]. simpl in H3.
  destruct sorted; [exact H3|].
  destruct ((0 <? a)%nat && negb (sort.Less less data3 (a - 1) pivot)).
  - pose proof (partitionEqual_Permutation data3 a b pivot) as H4.
    destruct (sort.partitionEqual less data3 a b pivot) as [data4 mid]. simpl in H4.
    etransitivity; [apply IH|]. etransitivity; eauto.
  - pose proof (partition_Permutation data3 a b pivot) as H4.
    destruct (sort.partition less data3 a b pivot) as [[data4 mid] alreadyPartitioned].
    simpl in H4.
    destruct (mid - a <? b - mid)%nat;
      (etransitivity; [apply IH|]; etransitivity; [apply IH|]; etransitivity; eauto).
Qed.

(** [sort.Slice] returns a permutation of the slice, whatever the
    comparison and the generator. *)
Lemma Slice_Permutation (data : list A) :
  Permutation (sort.Slice less xorshiftNext data) data.
Proof. apply pdqsort_Permutation. Qed.

End Perm.

End sort_perm.

(* ===================================================================== *)
(** * Claims on the aggregator: partial results, no failure *)
(* ===================================================================== *)

(** C6.  Aggregation over sources of which some fail and others succeed
    leaves out the failing sources only: it returns a permutation of the
    concatenation of the results of the fetches that succeeded.  In
    particular every item of every successfully fetched source is returned,
    whatever happens to the other sources. *)
Theorem C6_partial_results {E : Env} (feedSources : list gostring) (w : World) :
  exists items,
    aggregateFeeds feedSources w
      = (Done (items, None), snd (fetchResults feedSources w)) /\
    length (fst (fetchResults feedSources w)) = length feedSources /\
    Permutation items (successes (fst (fetchResults feedSources w))) /\
    (forall k itms,
       nth_error (fst (fetchResults feedSources w)) k = Some (inl itms) ->
       forall fi, In fi itms -> In fi items).
Proof.
  rewrite aggregateFeeds_eq. eexists. split; [reflexivity|].
  split; [|split].
  - revert w; induction feedSources as [|src rest IH]; intros w; simpl; [reflexivity|].
    destruct (fetchFeed_Done src w) as (r & w' & Hf). rewrite Hf.
    specialize (IH w'). destruct (fetchResults rest w') as [rs w'']. simpl in *.
    now rewrite IH.
  - apply sort_perm.Slice_Permutation.
  - intros k itms Hk fi Hfi.
    apply (Permutation_in fi
             (Permutation_sym (sort_perm.Slice_Permutation newestFirst xorshiftNext _))).
    unfold successes. apply in_concat. exists itms. split; [|exact Hfi].
    apply in_map_iff. exists (inl itms). split; [reflexivity|].
    eapply nth_error_In, Hk.
Qed.

(** C9.  Aggregation never fails as a whole: for every list of sources and
    every outcome of the fetches, [aggregateFeeds] returns (it does not
    panic) with a nil error, so the feed-listing handler answers with the
    items and never takes its internal-failure (500) branch. *)
Theorem C9_aggregate_never_fails {E : Env} (feedSources : list gostring) (w : World) :
  exists items w',
    aggregateFeeds feedSources w = (Done (items, None), w') /\
    apiFeedsHandler feedSources w = (Done (JSON_items items), w') /\
    StatusCode (JSON_items items) <> StatusInternalServerError.
Proof.
  exists (sort.Slice newestFirst xorshiftNext (successes (fst (fetchResults feedSources w)))),
         (snd (fetchResults feedSources w)).
  split; [apply aggregateFeeds_eq|]. split; [|discriminate].
  unfold apiFeedsHandler, bind. now rewrite aggregateFeeds_eq.
Qed.

(* ===================================================================== *)
(** * Facts: UTF-8 decoding and [strings.TrimSpace] *)
(* ===================================================================== *)

Module trim_facts.

Import utf8.

Local Abbreviation D := DecodeRuneInString.
Local Abbreviation DL := DecodeLastRuneInString.

Lemma IsSpace_valid (r : Z) (n : nat) : unicode.IsSpace r = true -> valid (r, n).
Proof. intros H Heq. injection Heq as -> _. discriminate. Qed.

Lemma D_size (s : gostring) :
  s <> [] -> (1 <= snd (D s) <= length s)%nat.
Proof.
  destruct s as [|c0 t0]; [congruence|]. intros _. unfold D.
  repeat match goal with
         | |- context [match ?t with [] => _ | _ :: _ => _ end] => destruct t
         | |- context [if ?c then _ else _] => destruct c
         end; simpl; lia.
Qed.

(** A valid decoding depends on the bytes it consumes only. *)
Lemma D_local (s s' : gostring) :
  s <> [] -> valid (D s) ->
  firstn (snd (D s)) s' = firstn (snd (D s)) s -> D s' = D s.
Proof.
  destruct s as [|c0 t0]; [congruence|]. intros _. unfold valid, D.
  destruct (as_ <=? first (code c0)) eqn:H0.
  { simpl. intros _ Hf. destruct s' as [|c0' t0']; [discriminate|].
    simpl in Hf. injection Hf as ->. now rewrite H0. }
  destruct t0 as [|c1 t1]; [congruence|].
  match goal with |- context [if ?c then _ else if _ then _ else _] => destruct c eqn:H1 end;
    [congruence|].
  destruct (Z.land (first (code c0)) 7 <=? 2) eqn:H2.
  { simpl. intros _ Hf. destruct s' as [|c0' [|c1' t1']]; try discriminate.
    simpl in Hf. injection Hf as -> ->. now rewrite H0, H1, H2. }
  destruct t1 as [|c2 t2]; [congruence|].
  destruct ((code c2 <? locb) || (hicb <? code c2)) eqn:H3; [congruence|].
  destruct (Z.land (first (code c0)) 7 <=? 3) eqn:H4.
  { simpl. intros _ Hf. destruct s' as [|c0' [|c1' [|c2' t2']]]; try discriminate.
    simpl in Hf. injection Hf as -> -> ->. now rewrite H0, H1, H2, H3, H4. }
  destruct t2 as [|c3 t3]; [congruence|].
  destruct ((code c3 <? locb) || (hicb <? code c3)) eqn:H5; [congruence|].
  simpl. intros _ Hf. destruct s' as [|c0' [|c1' [|c2' [|c3' t3']]]]; try discriminate.
  simpl in Hf. injection Hf as -> -> -> ->. now rewrite H0, H1, H2, H3, H4, H5.
Qed.

Lemma D_local_app (p q : gostring) :
  p <> [] -> valid (D p) -> D (p ++ q) = D p.
Proof.
  intros Hp Hv. apply D_local; auto.
  pose proof (D_size p Hp) as [_ Hle].
  rewrite firstn_app. replace (snd (D p) - length p)%nat with 0%nat by lia.
  simpl. now rewrite app_nil_r.
Qed.

Lemma code_bound (c : ascii) : 0 <= code c < 256.
Proof.
  unfold code. pose proof (N_ascii_bounded c). lia.
Qed.

(** Continuation bytes are the bytes [0x80 .. 0xBF]. *)
Lemma RuneStart_spec (c : ascii) :
  RuneStart c = negb ((0x80 <=? code c) && (code c <=? 0xBF)).
Proof.
  destruct c as [b0 b1 b2 b3 b4 b5 b6 b7].
  destruct b0, b1, b2, b3, b4, b5, b6, b7; reflexivity.
Qed.

(** A continuation byte does not start a valid encoding. *)
Lemma D_continuation (c : ascii) (t : gostring) :
  RuneStart c = false -> D (c :: t) = (RuneError, 1%nat).
Proof.
  destruct c as [b0 b1 b2 b3 b4 b5 b6 b7].
  destruct b0, b1, b2, b3, b4, b5, b6, b7; intros H; try discriminate H; reflexivity.
Qed.

Lemma D_ascii (c : ascii) (t : gostring) :
  code c < RuneSelf -> D (c :: t) = (code c, 1%nat).
Proof.
  intros Hc. unfold D, first. unfold RuneSelf in Hc.
  destruct (code c <? 128) eqn:H; [|lia]. reflexivity.
Qed.

(** The second byte of a sequence is taken from the continuation bytes. *)
Lemma accept_continuation (c0 : ascii) :
  (as_ <=? first (code c0)) = false ->
  locb <= fst (acceptRanges (Z.shiftr (first (code c0)) 4)) /\
  snd (acceptRanges (Z.shiftr (first (code c0)) 4)) <= hicb.
Proof.
  destruct c0 as [b0 b1 b2 b3 b4 b5 b6 b7].
  destruct b0, b1, b2, b3, b4, b5, b6, b7; intros H; try discriminate H;
    vm_compute; split; discriminate.
Qed.

(** A byte outside ASCII that is not followed by a continuation byte decodes
    to the error of width one. *)
Lemma D_no_continuation (c : ascii) (t : gostring) :
  RuneSelf <= code c ->
  match t with [] => True | c1 :: _ => RuneStart c1 = true end ->
  D (c :: t) = (RuneError, 1%nat).
Proof.
  intros Hc Ht. unfold D.
  destruct (as_ <=? first (code c)) eqn:H0.
  - assert (Hx : (first (code c) =? xx) = true).
    { unfold first in *. unfold RuneSelf in Hc.
      destruct (code c <? 128) eqn:H; [lia|].
      repeat match goal with
             | |- context [if ?b then _ else _] => destruct b eqn:?
             end; try reflexivity; discriminate H0. }
    now rewrite Hx.
  - destruct t as [|c1 t1]; [reflexivity|].
    destruct (accept_continuation c H0) as [Hlo Hhi].
    rewrite RuneStart_spec in Ht. apply negb_true_iff in Ht.
    unfold locb, hicb in *.
    match goal with |- context [if ?b then _ else if _ then _ else _] =>
      destruct b eqn:H1 end; [reflexivity|].
    apply orb_false_iff in H1 as [H1 H2].
    apply andb_false_iff in Ht. lia.
Qed.

(** The first byte of a valid encoding is not a continuation byte. *)
Lemma valid_RuneStart (c : ascii) (t : gostring) :
  valid (D (c :: t)) -> RuneStart c = true.
Proof.
  intros Hv. destruct (RuneStart c) eqn:H; [reflexivity|].
  exfalso. apply Hv. now apply D_continuation.
Qed.

(** A valid encoding of width above one starts outside ASCII. *)
Lemma D_wide (c : ascii) (t : gostring) :
  (2 <= snd (D (c :: t)))%nat -> RuneSelf <= code c.
Proof.
  intros H. destruct (Z_lt_ge_dec (code c) RuneSelf) as [Hlt|Hge]; [|lia].
  rewrite D_ascii in H by exact Hlt. simpl in H. lia.
Qed.


Lemma asciiSpace_IsSpace (c : ascii) :
  code c < RuneSelf -> unicode.IsSpace (code c) = strings.asciiSpace c.
Proof.
  destruct c as [b0 b1 b2 b3 b4 b5 b6 b7].
  destruct b0, b1, b2, b3, b4, b5, b6, b7; intros H; try reflexivity;
    vm_compute in H; discriminate H.
Qed.

Lemma skipn_nth_error_cons {A : Type} (l : list A) (k : nat) (x : A) :
  nth_error l k = Some x -> skipn k l = x :: skipn (S k) l.
Proof.
  revert k; induction l as [|h t IH]; intros [|k] H; simpl in *; try discriminate.
  - now injection H as ->.
  - now apply IH.
Qed.

Lemma lastStart_le (n : nat) (s : gostring) (start lim k : nat) :
  lastStart n s start lim = Some k -> (k <= start)%nat.
Proof.
  revert start; induction n as [|n IH]; intros start H; simpl in H; [discriminate|].
  destruct (nth_error s start) as [c|]; [|discriminate].
  destruct (RuneStart c); [injection H as <-; lia|].
  destruct (start <=? lim)%nat; [discriminate|].
  apply IH in H. lia.
Qed.

(** The shape of [DecodeLastRuneInString] on a non-empty string: the last
    byte when it is ASCII; otherwise the forward decoding from some earlier
    start if it ends at the end of the string, the error if not. *)
Lemma DL_cases (s : gostring) :
  s <> [] ->
  exists c, nth_error s (length s - 1) = Some c /\
    ((code c < RuneSelf /\ DL s = (code c, 1%nat)) \/
     (RuneSelf <= code c /\
      exists start, (start < length s)%nat /\
        ((start + snd (D (skipn start s)) = length s)%nat /\ DL s = D (skipn start s) \/
         DL s = (RuneError, 1%nat)))).
Proof.
  intros Hs. unfold DL.
  destruct (length s) as [|start] eqn:Hlen; [destruct s; [congruence | discriminate]|].
  replace (S start - 1)%nat with start by lia.
  destruct (nth_error s start) as [c|] eqn:Hc.
  2:{ apply nth_error_None in Hc. lia. }
  exists c. split; [reflexivity|].
  destruct (code c <? RuneSelf) eqn:Hascii.
  - left. split; [lia | reflexivity].
  - right. split; [lia|].
    match goal with |- context [D (skipn ?st s)] => set (start' := st) end.
    assert (Hst : (start' < S start)%nat).
    { unfold start'. destruct start as [|p]; [lia|].
      destruct (lastStart UTFMax s p (S (S p) - UTFMax)) as [k|] eqn:Hk.
      - apply lastStart_le in Hk. lia.
      - destruct (S (S p) - UTFMax =? 0)%nat; unfold UTFMax; lia. }
    exists start'. split; [exact Hst|].
    destruct (D (skipn start' s)) as [r size] eqn:HD. simpl.
    destruct (start' + size =? S start)%nat eqn:Heq; [left | right; reflexivity].
    apply Nat.eqb_eq in Heq. split; [exact Heq | reflexivity].
Qed.

Lemma DL_size (s : gostring) :
  s <> [] -> (1 <= snd (DL s) <= length s)%nat.
Proof.
  intros Hs. assert (Hlen : (1 <= length s)%nat).
  { destruct s; [congruence | simpl; lia]. }
  destruct (DL_cases s Hs) as (c & _ & [[_ ->]|[_ (start & Hst & [[Hend ->]| ->])]]);
    simpl; lia.
Qed.

(** The last rune, when valid, is the forward decoding of the bytes it
    spans. *)
Lemma DL_valid (s : gostring) :
  s <> [] -> valid (DL s) -> D (skipn (length s - snd (DL s)) s) = DL s.
Proof.
  intros Hs Hv.
  destruct (DL_cases s Hs) as (c & Hc & [[Hascii H]|[_ (start & Hst & [[Hend H]|H])]]).
  - rewrite H. simpl. rewrite (skipn_nth_error_cons _ _ _ Hc). now apply D_ascii.
  - rewrite H. f_equal. f_equal. lia.
  - rewrite H in Hv. now elim Hv.
Qed.

Lemma DL_ascii (p : gostring) (c : ascii) :
  code c < RuneSelf -> DL (p ++ [c]) = (code c, 1%nat).
Proof.
  intros Hc. unfold DL. rewrite length_app. simpl.
  replace (length p + 1)%nat with (S (length p)) by lia.
  rewrite nth_error_app2 by lia. rewrite Nat.sub_diag. simpl.
  destruct (code c <? RuneSelf) eqn:H; [reflexivity | lia].
Qed.

(** ** The scans of [TrimLeftFunc] and [TrimRightFunc] *)

Abbreviation isSpace := unicode.IsSpace.

(** The forward scan stops at the first rune that is not white space. *)
Lemma indexFunc_from_spec (fuel : nat) (s : gostring) (i0 : nat) :
  (length s <= fuel)%nat ->
  (strings.indexFunc_from fuel isSpace false s i0 = None /\ blank_from fuel s = true) \/
  (exists k, strings.indexFunc_from fuel isSpace false s i0 = Some (i0 + k)%nat /\
     (k < length s)%nat /\ isSpace (fst (D (skipn k s))) = false /\
     blank_from fuel s = false).
Proof.
  revert s i0; induction fuel as [|fuel IH]; intros s i0 Hlen.
  - left. now split.
  - cbn [strings.indexFunc_from blank_from]. destruct s as [|c t]; [left; now split|].
    destruct (D (c :: t)) as [r size] eqn:HD.
    assert (Hsz : (1 <= size <= length (c :: t))%nat).
    { pose proof (D_size (c :: t)) as H. rewrite HD in H. apply H. discriminate. }
    destruct (isSpace r) eqn:Hr; cbn [Bool.eqb andb].
    + destruct (IH (skipn size (c :: t)) (i0 + size)%nat) as [[H1 H2]|(k & H1 & H2 & H3 & H4)].
      * rewrite length_skipn. cbn [length] in *. lia.
      * left. now split.
      * right. exists (size + k)%nat. rewrite length_skipn in H2.
        rewrite skipn_skipn in H3. rewrite (Nat.add_comm k size) in H3.
        repeat split; auto; [rewrite H1; f_equal; lia | lia].
    + right. exists 0%nat. rewrite Nat.add_0_r. cbn [skipn]. rewrite HD.
      repeat split; auto. cbn [length]. lia.
Qed.

Lemma TrimLeftFunc_spec (s : gostring) :
  (strings.TrimLeftFunc s isSpace = [] /\ blank s = true) \/
  (strings.TrimLeftFunc s isSpace <> [] /\
   isSpace (fst (D (strings.TrimLeftFunc s isSpace))) = false /\ blank s = false).
Proof.
  unfold strings.TrimLeftFunc, strings.indexFunc, blank.
  destruct (indexFunc_from_spec (length s) s 0 (Nat.le_refl _))
    as [[H1 H2]|(k & H1 & H2 & H3 & H4)]; rewrite H1.
  - left. now split.
  - right. simpl. repeat split; auto.
    intros H. apply (f_equal (@length _)) in H. rewrite length_skipn in H. simpl in H. lia.
Qed.

Lemma firstn_ne {A : Type} (l : list A) (i : nat) :
  (1 <= i <= length l)%nat -> firstn i l <> [].
Proof.
  intros H Heq. apply (f_equal (@length _)) in Heq. rewrite length_firstn in Heq.
  simpl in Heq. lia.
Qed.

(** The backward scan stops after the last rune that is not white space. *)
Lemma lastIndexFunc_from_Some (fuel : nat) (t : gostring) (i i' : nat) :
  (i <= length t)%nat -> boundary t i ->
  strings.lastIndexFunc_from fuel isSpace false t i = Some i' ->
  exists r size,
    (1 <= size)%nat /\ (i' + size <= i)%nat /\
    DL (firstn (i' + size) t) = (r, size) /\ isSpace r = false /\
    boundary t (i' + size).
Proof.
  revert i; induction fuel as [|fuel IH]; intros i Hi Hb H; [discriminate|].
  cbn [strings.lastIndexFunc_from] in H.
  destruct (0 <? i)%nat eqn:Hpos; [|discriminate]. apply Nat.ltb_lt in Hpos.
  destruct (DL (firstn i t)) as [r size] eqn:HDL.
  assert (Hne : firstn i t <> []) by (apply firstn_ne; lia).
  assert (Hsz : (1 <= size <= i)%nat).
  { pose proof (DL_size _ Hne) as Hs. rewrite HDL, length_firstn in Hs. simpl in Hs. lia. }
  destruct (isSpace r) eqn:Hr; cbn [Bool.eqb] in H.
  - apply IH in H; [|lia|].
    + destruct H as (r' & size' & H1 & H2 & H3 & H4 & H5).
      exists r', size'. repeat split; auto. lia.
    + (* the rune just skipped is valid, so it starts on a boundary *)
      pose proof (DL_valid _ Hne) as Hv. rewrite HDL in Hv.
      specialize (Hv (IsSpace_valid _ _ Hr)). rewrite length_firstn in Hv. simpl in Hv.
      replace (Nat.min i (length t) - size)%nat with (i - size)%nat in Hv by lia.
      unfold boundary. destruct (nth_error t (i - size)) as [c|] eqn:Hc; [|exact I].
      assert (Hc' : nth_error (firstn i t) (i - size) = Some c).
      { rewrite nth_error_firstn. destruct (i - size <? i)%nat eqn:Hlt; [exact Hc|].
        apply Nat.ltb_ge in Hlt. lia. }
      rewrite (skipn_nth_error_cons _ _ _ Hc') in Hv.
      apply (valid_RuneStart c (skipn (S (i - size)) (firstn i t))).
      rewrite Hv. now apply IsSpace_valid.
  - injection H as <-. exists r, size.
    replace (i - size + size)%nat with i by lia. repeat split; auto; lia.
Qed.

(** When the backward scan finds white space only, the string starts with a
    white space rune. *)
Lemma lastIndexFunc_from_None (fuel : nat) (t : gostring) (i : nat) :
  (1 <= i <= length t)%nat -> (i <= fuel)%nat ->
  strings.lastIndexFunc_from fuel isSpace false t i = None ->
  isSpace (fst (D t)) = true.
Proof.
  revert i; induction fuel as [|fuel IH]; intros i Hi Hfuel H; [lia|].
  cbn [strings.lastIndexFunc_from] in H.
  destruct (0 <? i)%nat eqn:Hpos; [|apply Nat.ltb_ge in Hpos; lia].
  destruct (DL (firstn i t)) as [r size] eqn:HDL.
  assert (Hne : firstn i t <> []) by (apply firstn_ne; lia).
  assert (Hsz : (1 <= size <= i)%nat).
  { pose proof (DL_size _ Hne) as Hs. rewrite HDL, length_firstn in Hs. simpl in Hs. lia. }
  destruct (isSpace r) eqn:Hr; cbn [Bool.eqb] in H; [|discriminate].
  destruct (Nat.eq_dec size i) as [->|Hsi].
  - pose proof (DL_valid _ Hne) as Hv. rewrite HDL in Hv.
    specialize (Hv (IsSpace_valid _ _ Hr)). rewrite length_firstn in Hv. simpl in Hv.
    replace (Nat.min i (length t) - i)%nat with 0%nat in Hv by lia. cbn [skipn] in Hv.
    assert (HD : D t = D (firstn i t)).
    { apply D_local; [exact Hne | rewrite Hv; now apply IsSpace_valid|].
      rewrite Hv. simpl. now rewrite firstn_firstn, Nat.min_id. }
    now rewrite HD, Hv.
  - apply (IH (i - size)%nat); [lia | lia | exact H].
Qed.

(** [TrimRightFunc] cuts after the last rune that is not white space. *)
Lemma TrimRightFunc_cases (t : gostring) :
  (strings.lastIndexFunc t isSpace false = None /\ strings.TrimRightFunc t isSpace = []) \/
  (exists e r size,
     strings.TrimRightFunc t isSpace = firstn e t /\
     (1 <= size <= e)%nat /\ (e <= length t)%nat /\
     DL (firstn e t) = (r, size) /\ isSpace r = false).
Proof.
  unfold strings.TrimRightFunc.
  destruct (strings.lastIndexFunc t isSpace false) as [i'|] eqn:Hidx; [|left; now split].
  right. unfold strings.lastIndexFunc in Hidx.
  apply lastIndexFunc_from_Some in Hidx; [|lia|].
  2:{ unfold boundary. now rewrite (proj2 (nth_error_None t (length t)) (Nat.le_refl _)). }
  destruct Hidx as (r & size & Hsz & He & HDL & Hr & Hb).
  set (e := (i' + size)%nat) in *.
  exists e, r, size.
  assert (Hne : firstn e t <> []) by (apply firstn_ne; lia).
  assert (Hc : exists c, nth_error t i' = Some c).
  { destruct (nth_error t i') eqn:H; [now eexists|]. apply nth_error_None in H. lia. }
  destruct Hc as [c Hc]. rewrite Hc.
  assert (Hc' : nth_error (firstn e t) i' = Some c).
  { rewrite nth_error_firstn. destruct (i' <? e)%nat eqn:Hlt; [exact Hc|].
    apply Nat.ltb_ge in Hlt. lia. }
  (* the forward decoding of the bytes of the last rune, when it is valid *)
  assert (Hfwd : valid (r, size) -> D (c :: skipn (S i') (firstn e t)) = (r, size)).
  { intros Hv. pose proof (DL_valid _ Hne) as H. rewrite HDL in H. specialize (H Hv).
    rewrite length_firstn in H. simpl in H.
    replace (Nat.min e (length t) - size)%nat with i' in H by lia.
    now rewrite (skipn_nth_error_cons _ _ _ Hc') in H. }
  assert (Hgoal : forall n, n = e -> firstn n t = firstn e t /\ (1 <= size <= e)%nat /\
                    (e <= length t)%nat /\ DL (firstn e t) = (r, size) /\ isSpace r = false).
  { intros n ->. repeat split; auto; lia. }
  destruct (RuneSelf <=? code c) eqn:Hself.
  - apply Z.leb_le in Hself.
    destruct (D (skipn i' t)) as [r' wid] eqn:HD.
    apply Hgoal. unfold e. f_equal.
    destruct (Nat.eq_dec size 1) as [->|Hs1].
    + (* the last rune is one byte outside ASCII: an error, also forwards *)
      rewrite (skipn_nth_error_cons _ _ _ Hc) in HD.
      rewrite D_no_continuation in HD; [now injection HD as _ <-| exact Hself |].
      unfold boundary, e in Hb. replace (i' + 1)%nat with (S i') in Hb by lia.
      destruct (skipn (S i') t) as [|c1 t1] eqn:Hskip; [exact I|].
      assert (H1 : nth_error t (S i') = Some c1).
      { rewrite <- (Nat.add_0_r (S i')), <- nth_error_skipn, Hskip. reflexivity. }
      now rewrite H1 in Hb.
    + assert (Hv : valid (r, size)) by (intros H; injection H as _ H; lia).
      specialize (Hfwd Hv).
      assert (HD' : D (skipn i' t) = (r, size)).
      { rewrite <- Hfwd. apply D_local; [discriminate | now rewrite Hfwd|].
        rewrite Hfwd. cbn [snd].
        rewrite <- (skipn_nth_error_cons _ _ _ Hc').
        rewrite skipn_firstn_comm. replace (e - i')%nat with size by (unfold e; lia).
        now rewrite firstn_firstn, Nat.min_id. }
      rewrite HD' in HD. now injection HD as _ <-.
  - apply Z.leb_gt in Hself. apply Hgoal. unfold e. f_equal.
    destruct (Nat.eq_dec size 1) as [->|Hs1]; [reflexivity|].
    assert (Hv : valid (r, size)) by (intros H; injection H as _ H; lia).
    specialize (Hfwd Hv).
    assert (Hw : (2 <= snd (D (c :: skipn (S i') (firstn e t))))%nat).
    { rewrite Hfwd. simpl. lia. }
    apply D_wide in Hw. lia.
Qed.

Lemma firstn_cons_D (c : ascii) (t : gostring) (e : nat) :
  (1 <= e)%nat -> code c < RuneSelf -> D (firstn e (c :: t)) = (code c, 1%nat).
Proof.
  intros He Hc. destruct e as [|e]; [lia|]. cbn [firstn]. now apply D_ascii.
Qed.

Lemma leadingSpace_ne (s : gostring) :
  s <> [] -> leadingSpace s = isSpace (fst (D s)).
Proof. destruct s; [congruence | reflexivity]. Qed.

Lemma trailingSpace_ne (s : gostring) :
  s <> [] -> trailingSpace s = isSpace (fst (DL s)).
Proof. destruct s; [congruence | reflexivity]. Qed.

(** On a string that starts with a rune that is not white space,
    [TrimRightFunc] leaves a non-empty string without white space at either
    end. *)
Lemma TrimRightFunc_spec (t : gostring) :
  t <> [] -> isSpace (fst (D t)) = false ->
  strings.TrimRightFunc t isSpace <> [] /\
  leadingSpace (strings.TrimRightFunc t isSpace) = false /\
  trailingSpace (strings.TrimRightFunc t isSpace) = false.
Proof.
  intros Hne Hlead.
  assert (Hlen : (1 <= length t)%nat) by (destruct t; [congruence | simpl; lia]).
  destruct (TrimRightFunc_cases t) as [[Hnone _]|(e & r & size & -> & Hsz & He & HDL & Hr)].
  - apply lastIndexFunc_from_None in Hnone; [congruence | lia | lia].
  - assert (Hne' : firstn e t <> []) by (apply firstn_ne; lia).
    split; [exact Hne'|].
    rewrite leadingSpace_ne, trailingSpace_ne by exact Hne'.
    split; [|now rewrite HDL].
    destruct (isSpace (fst (D (firstn e t)))) eqn:Hsp; [|reflexivity].
    assert (HD : D t = D (firstn e t)).
    { apply D_local; [exact Hne' | |].
      - destruct (D (firstn e t)) as [r0 n0]. now apply IsSpace_valid.
      - pose proof (D_size _ Hne') as Hs. rewrite length_firstn in Hs.
        rewrite firstn_firstn. f_equal. lia. }
    rewrite HD in Hlead. congruence.
Qed.

Lemma trailingSpace_TrimRightFunc (t : gostring) :
  trailingSpace (strings.TrimRightFunc t isSpace) = false.
Proof.
  destruct (TrimRightFunc_cases t) as [[_ ->]|(e & r & size & -> & Hsz & He & HDL & Hr)];
    [reflexivity|].
  rewrite trailingSpace_ne by (apply firstn_ne; lia). now rewrite HDL.
Qed.

(** [TrimFunc] with [unicode.IsSpace]. *)
Lemma TrimFunc_spec (s : gostring) :
  leadingSpace (strings.TrimFunc s isSpace) = false /\
  trailingSpace (strings.TrimFunc s isSpace) = false /\
  (blank s = false -> strings.TrimFunc s isSpace <> []).
Proof.
  unfold strings.TrimFunc.
  destruct (TrimLeftFunc_spec s) as [[H1 H2]|(H1 & H2 & H3)].
  - rewrite H1. repeat split; try reflexivity. congruence.
  - destruct (TrimRightFunc_spec _ H1 H2) as (Ha & Hb & Hc). auto.
Qed.

(** The second loop of [TrimSpace], on a string that starts with an ASCII
    byte that is not white space. *)
Lemma TrimSpace_stop_spec (c : ascii) (s' : gostring) (stop : nat) :
  code c < RuneSelf -> strings.asciiSpace c = false ->
  (1 <= stop <= length (c :: s'))%nat ->
  strings.TrimSpace_stop (c :: s') stop <> [] /\
  leadingSpace (strings.TrimSpace_stop (c :: s') stop) = false /\
  trailingSpace (strings.TrimSpace_stop (c :: s') stop) = false.
Proof.
  intros Hc Hns. set (s := c :: s').
  assert (Hlead : forall e, (1 <= e)%nat -> isSpace (fst (D (firstn e s))) = false).
  { intros e He. unfold s. rewrite firstn_cons_D by assumption.
    simpl. now rewrite asciiSpace_IsSpace. }
  induction stop as [|k IH]; intros Hstop; [lia|].
  cbn [strings.TrimSpace_stop].
  destruct (nth_error s k) as [ck|] eqn:Hk.
  2:{ apply nth_error_None in Hk. lia. }
  assert (Hne : firstn (S k) s <> []) by (apply firstn_ne; lia).
  destruct (RuneSelf <=? code ck) eqn:Hself.
  - apply TrimRightFunc_spec; [exact Hne | apply Hlead; lia].
  - apply Z.leb_gt in Hself.
    destruct (strings.asciiSpace ck) eqn:Hsp.
    + destruct k as [|k]; [|apply IH; lia].
      unfold s in Hk. simpl in Hk. injection Hk as <-. congruence.
    + split; [exact Hne|]. rewrite leadingSpace_ne, trailingSpace_ne by exact Hne.
      split; [apply Hlead; lia|].
      assert (Hsplit : firstn (S k) s = firstn k s ++ [ck]).
      { clear -Hk. revert k Hk. generalize s. intros l.
        induction l as [|h l IH]; intros [|k] Hk; simpl in *; try discriminate.
        - now injection Hk as ->.
        - f_equal. now apply IH. }
      rewrite Hsplit, DL_ascii by exact Hself. simpl.
      now rewrite asciiSpace_IsSpace.
Qed.

(** [strings.TrimSpace] returns a string without white space at either end,
    and a non-empty one if the argument has a rune that is not white
    space. *)
Lemma TrimSpace_spec (s : gostring) :
  leadingSpace (strings.TrimSpace s) = false /\
  trailingSpace (strings.TrimSpace s) = false /\
  (blank s = false -> strings.TrimSpace s <> []).
Proof.
  induction s as [|c s' IH]; [repeat split; try reflexivity; discriminate|].
  cbn [strings.TrimSpace].
  destruct (RuneSelf <=? code c) eqn:Hself; [apply TrimFunc_spec|].
  apply Z.leb_gt in Hself.
  destruct (strings.asciiSpace c) eqn:Hsp.
  - destruct IH as (H1 & H2 & H3). repeat split; auto.
    intros Hb. apply H3. unfold blank in *. cbn [length blank_from] in Hb.
    rewrite D_ascii in Hb by exact Hself.
    rewrite asciiSpace_IsSpace, Hsp in Hb by exact Hself. exact Hb.
  - destruct (TrimSpace_stop_spec c s' (length (c :: s')) Hself Hsp) as (H1 & H2 & H3);
      [simpl; lia|]. auto.
Qed.

(** A string that starts with an ASCII byte that is not white space has
    content. *)
Lemma blank_ascii (c : ascii) (t : gostring) :
  code c < RuneSelf -> strings.asciiSpace c = false -> blank (c :: t) = false.
Proof.
  intros Hc Hsp. unfold blank. cbn [length blank_from].
  rewrite D_ascii by exact Hc. now rewrite asciiSpace_IsSpace, Hsp.
Qed.

End trim_facts.

(* ===================================================================== *)
(** * Facts: resolved links keep the scheme of the feed *)
(* ===================================================================== *)

Lemma setPath__Scheme (u : url.URL) (p : gostring) :
  url.Scheme (url.setPath_ u p) = url.Scheme u.
Proof.
  unfold url.setPath_, url.setPath. now destruct (url.unescape p url.encodePath).
Qed.

Lemma ResolveReference_Scheme (u ref : url.URL) :
  url.IsAbs ref = false ->
  url.Scheme (url.ResolveReference u ref) = url.Scheme u.
Proof.
  unfold url.IsAbs. intros Habs. apply negb_false_iff in Habs.
  unfold url.ResolveReference. rewrite Habs.
  repeat match goal with
         | |- context [if ?c then _ else _] => destruct c
         end; try rewrite setPath__Scheme; reflexivity.
Qed.

(** The string of a URL with a scheme starts with the scheme. *)
Lemma String_Scheme (u : url.URL) :
  url.Scheme u <> [] -> exists rest, url.String u = url.Scheme u ++ rest.
Proof.
  intros Hs. unfold url.String.
  assert (H : url.isEmpty (url.Scheme u) = false).
  { destruct (url.Scheme u); [congruence | reflexivity]. }
  rewrite H. cbn [negb].
  repeat match goal with
         | |- context [if ?c then _ else _] => destruct c
         | |- context [match ?o with Some _ => _ | None => _ end] => destruct o
         | |- context [strings.Cut ?a ?b] => destruct (strings.Cut a b) as [[? ?] ?]
         end;
    repeat rewrite <- app_assoc; eexists; reflexivity.
Qed.

(** A link resolved against a feed fetched over http or https has
    content. *)
Lemma resolved_not_blank (base ref : url.URL) :
  url.Scheme base = str "http" \/ url.Scheme base = str "https" ->
  url.IsAbs ref = false ->
  blank (url.String (url.ResolveReference base ref)) = false.
Proof.
  intros Hscheme Habs.
  destruct (String_Scheme (url.ResolveReference base ref)) as [rest Hrest].
  - rewrite ResolveReference_Scheme by exact Habs. destruct Hscheme as [-> | ->]; discriminate.
  - rewrite Hrest, ResolveReference_Scheme by exact Habs.
    destruct Hscheme as [-> | ->]; apply trim_facts.blank_ascii; vm_compute; reflexivity.
Qed.

Lemma Forall2_In_r {A B : Type} (R : A -> B -> Prop) (l : list A) (l' : list B) :
  Forall2 R l l' -> forall b, In b l' -> exists a, In a l /\ R a b.
Proof.
  induction 1 as [|x y l l' Hxy _ IH]; intros b Hb; [destruct Hb|].
  destruct Hb as [<-|Hb].
  - exists x. split; [now left | exact Hxy].
  - destruct (IH b Hb) as (a & Ha & Hab). exists a. split; [now right | exact Hab].
Qed.

(** C8.  For a successfully decoded feed document, every feed item the
    fetcher produces has no leading and no trailing white space in its
    title, link and description, and its title and its link are non-empty
    whenever the document provides content for them that is not white
    space. *)
Theorem C8_trimmed_fields {E : Env} (feedURL body : gostring) (rss : RSS.t)
    (w w1 : World) :
  http_Get feedURL w = (Done (Some body), w1) ->
  xml_Decode body = Some rss ->
  exists items w',
    fetchFeed feedURL w = (Done (inl items), w') /\
    (forall fi, In fi items ->
       leadingSpace (FeedItem.Title fi) = false /\
       trailingSpace (FeedItem.Title fi) = false /\
       leadingSpace (FeedItem.Link fi) = false /\
       trailingSpace (FeedItem.Link fi) = false /\
       leadingSpace (FeedItem.Description fi) = false /\
       trailingSpace (FeedItem.Description fi) = false) /\
    (forall k it, nth_error (Channel.Items (RSS.Channel rss)) k = Some it ->
       exists fi, nth_error items k = Some fi /\
         (blank (Item.Title it) = false -> FeedItem.Title fi <> []) /\
         (blank (Item.Link it) = false -> FeedItem.Link fi <> [])).
Proof.
  intros Hget Hdec.
  destruct (fetchFeed_decoded feedURL w w1 body rss Hget Hdec)
    as (base & items & w' & Hbase & Hscheme & Hfetch & Hall).
  exists items, w'. split; [exact Hfetch|]. split.
  - intros fi Hfi.
    destruct (Forall2_In_r _ _ _ Hall fi Hfi) as (it & _ & Ht & Hl & Hd & _).
    rewrite Ht, Hl, Hd.
    repeat split; apply trim_facts.TrimSpace_spec.
  - intros k it Hk.
    destruct (Forall2_nth_error _ _ _ Hall k it Hk) as (fi & Hfi & Ht & Hl & _).
    exists fi. split; [exact Hfi|]. rewrite Ht, Hl. split.
    + apply trim_facts.TrimSpace_spec.
    + intros Hblank. apply trim_facts.TrimSpace_spec.
      unfold resolvedLink.
      destruct (url.Parse (Item.Link it)) as [link|]; [|exact Hblank].
      destruct (url.IsAbs link) eqn:Habs; [exact Hblank|].
      now apply resolved_not_blank.
Qed.

Lemma C8_trimmed_fields_witness :
  exists items w',
    @fetchFeed (demoEnv demoSite) (str "https://example.com/rss") 100
      = (Done (inl items), w') /\
    (forall fi, In fi items ->
       leadingSpace (FeedItem.Title fi) = false /\
       trailingSpace (FeedItem.Title fi) = false) /\
    exists fi, nth_error items 2 = Some fi /\ FeedItem.Link fi <> [].
Proof.
  destruct (@C8_trimmed_fields (demoEnv demoSite) (str "https://example.com/rss")
              (str "https://example.com/rss") demoFeed 100 100)
    as (items & w' & Hfetch & Htrim & Hcontent).
  - vm_compute. reflexivity.
  - vm_compute. reflexivity.
  - exists items, w'. split; [exact Hfetch|]. split.
    + intros fi Hfi. destruct (Htrim fi Hfi) as (H1 & H2 & _). now split.
    + destruct (Hcontent 2%nat (Item.mk (str "Third") (str "  bar  ") (str "") (str ""))
                  eq_refl) as (fi & Hfi & _ & Hlink).
      exists fi. split; [exact Hfi|]. apply Hlink. vm_compute. reflexivity.
Defined.

(* ===================================================================== *)
(** * Facts: [sort.Slice] sorts *)
(* ===================================================================== *)

Module sort_facts.

Import sort_perm.

Section Sorts.

Context {A : Type}.
Variable key : A -> Z.
Variable less : A -> A -> bool.
Hypothesis less_key : forall x y, less x y = (key x <? key y).
Variable xorshiftNext : Z -> Z.

Local Abbreviation Kk := (K key).
Local Abbreviation Less := (sort.Less less).
Local Abbreviation Swap := (@sort.Swap A).

(** ** Reading and exchanging *)

Lemma Swap_length (d : list A) (i j : nat) : length (Swap d i j) = length d.
Proof.
  unfold sort.Swap. destruct (nth_error d i); [|reflexivity].
  destruct (nth_error d j); [|reflexivity]. now rewrite !update_length.
Qed.

Lemma nth_error_Swap (d : list A) (i j k : nat) :
  (i < length d)%nat -> (j < length d)%nat ->
  nth_error (Swap d i j) k =
  if (k =? j)%nat then nth_error d i
  else if (k =? i)%nat then nth_error d j
  else nth_error d k.
Proof.
  intros Hi Hj. unfold sort.Swap.
  destruct (nth_error d i) as [x|] eqn:Hx; [|apply nth_error_None in Hx; lia].
  destruct (nth_error d j) as [y|] eqn:Hy; [|apply nth_error_None in Hy; lia].
  destruct (Nat.eqb_spec k j) as [->|Hkj].
  - apply nth_error_update_eq. now rewrite update_length.
  - rewrite nth_error_update_neq by congruence.
    destruct (Nat.eqb_spec k i) as [->|Hki].
    + now apply nth_error_update_eq.
    + now rewrite nth_error_update_neq by congruence.
Qed.

Lemma K_Swap (d : list A) (i j k : nat) :
  (i < length d)%nat -> (j < length d)%nat ->
  Kk (Swap d i j) k =
  if (k =? j)%nat then Kk d i else if (k =? i)%nat then Kk d j else Kk d k.
Proof.
  intros Hi Hj. unfold K.
  rewrite nth_error_Swap by assumption.
  destruct (k =? j)%nat; [reflexivity|]. now destruct (k =? i)%nat.
Qed.

Lemma Less_K (d : list A) (i j : nat) :
  (i < length d)%nat -> (j < length d)%nat -> Less d i j = (Kk d i <? Kk d j).
Proof.
  intros Hi Hj. unfold sort.Less, K.
  destruct (nth_error d i) as [x|] eqn:Hx; [|apply nth_error_None in Hx; lia].
  destruct (nth_error d j) as [y|] eqn:Hy; [|apply nth_error_None in Hy; lia].
  apply less_key.
Qed.

(** ** Exchanges inside a slice *)

Lemma Touch_trans (a b : nat) (d1 d2 d3 : list A) :
  Touch a b d1 d2 -> Touch a b d2 d3 -> Touch a b d1 d3.
Proof.
  induction 1 as [d|d i j d' Hi Hj Hil Hjl _ IH]; intros H23; [exact H23|].
  eapply Touch_swap; [exact Hi | exact Hj | exact Hil | exact Hjl | now apply IH].
Qed.

Lemma Touch_one (a b : nat) (d : list A) (i j : nat) :
  (a <= i < b)%nat -> (a <= j < b)%nat -> (b <= length d)%nat ->
  Touch a b d (Swap d i j).
Proof.
  intros Hi Hj Hb. eapply Touch_swap; [exact Hi | exact Hj | lia | lia | apply Touch_refl].
Qed.

Lemma Touch_length (a b : nat) (d d' : list A) :
  Touch a b d d' -> length d' = length d.
Proof.
  induction 1 as [d|d i j d' Hi Hj Hil Hjl _ IH]; [reflexivity|].
  now rewrite IH, Swap_length.
Qed.

Lemma Touch_mono (a b a' b' : nat) (d d' : list A) :
  (a' <= a)%nat -> (b <= b')%nat -> Touch a b d d' -> Touch a' b' d d'.
Proof.
  intros Ha Hb. induction 1 as [d|d i j d' Hi Hj Hil Hjl _ IH]; [apply Touch_refl|].
  eapply Touch_swap; [| | exact Hil | exact Hjl | exact IH]; lia.
Qed.

Lemma Touch_outside (a b : nat) (d d' : list A) (k : nat) :
  Touch a b d d' -> (k < a \/ b <= k)%nat -> Kk d' k = Kk d k.
Proof.
  intros H Hk. induction H as [d|d i j d' Hi Hj Hil Hjl _ IH]; [reflexivity|].
  rewrite IH, K_Swap by assumption.
  destruct (Nat.eqb_spec k j); [lia|]. destruct (Nat.eqb_spec k i); [lia|]. reflexivity.
Qed.

Lemma Touch_Permutation (a b : nat) (d d' : list A) :
  Touch a b d d' -> Permutation d' d.
Proof.
  induction 1 as [d|d i j d' Hi Hj Hil Hjl _ IH]; [reflexivity|].
  etransitivity; [exact IH | apply Swap_Permutation].
Qed.

(** What holds of every key of the slice still holds after exchanges. *)
Lemma Touch_forall (P : Z -> Prop) (a b : nat) (d d' : list A) :
  Touch a b d d' ->
  (forall k, (a <= k < b)%nat -> P (Kk d k)) ->
  forall k, (a <= k < b)%nat -> P (Kk d' k).
Proof.
  induction 1 as [d|d i j d' Hi Hj Hil Hjl _ IH]; intros HP k Hk; [now apply HP|].
  apply IH; [|exact Hk]. intros k' Hk'. rewrite K_Swap by assumption.
  destruct (k' =? j)%nat; [now apply HP|]. destruct (k' =? i)%nat; now apply HP.
Qed.

Lemma lowerBound_Touch (a b : nat) (d d' : list A) :
  Touch a b d d' -> lowerBound key d a b -> lowerBound key d' a b.
Proof.
  intros HT HL Ha k Hk. rewrite (Touch_outside a b d d' (a - 1)) by (auto; lia).
  revert k Hk. apply (Touch_forall (fun z => Kk d (a - 1) <= z) a b d d' HT).
  intros k Hk. now apply HL.
Qed.

(** The lower bound of a slice bounds its sub-slices to the left. *)
Lemma lowerBound_left (a b b' : nat) (d : list A) :
  (b' <= b)%nat -> lowerBound key d a b -> lowerBound key d a b'.
Proof. intros Hb HL Ha k Hk. apply HL; lia. Qed.

Lemma sortedK_asorted (d : list A) (a b : nat) :
  asorted key d a b -> sortedK key d a b.
Proof.
  intros H i j Hi Hij Hj. induction j as [|j IH].
  - replace i with 0%nat by lia. lia.
  - destruct (Nat.eq_dec i (S j)) as [->|Hne]; [lia|].
    transitivity (Kk d j); [apply IH; lia | apply H; lia].
Qed.

(** Reads every key after an exchange, by cases on the index. *)
Ltac kswap :=
  repeat (rewrite K_Swap by lia);
  repeat match goal with
         | |- context [(?x =? ?y)%nat] => destruct (Nat.eqb_spec x y)
         end;
  try lia.

(** Brings equal indices to one form: first inside the goal, then in the
    hypotheses, which take the form of the goal. *)
Ltac kcongr :=
  repeat match goal with
         | |- context [K _ ?d ?t1] =>
           match goal with
           | |- context [K _ d ?t2] =>
             lazymatch t1 with t2 => fail | _ => idtac end;
             lazymatch t1 with context [t2] => fail | _ => idtac end;
             let E := fresh in
             assert (E : t2 = t1) by lia; rewrite E; clear E
           end
         end;
  repeat match goal with
         | |- context [K _ ?d ?t1] =>
           match goal with
           | H : context [K _ d ?t2] |- _ =>
             lazymatch t1 with t2 => fail | _ => idtac end;
             lazymatch t1 with context [t2] => fail | _ => idtac end;
             let E := fresh in
             assert (E : t2 = t1) by lia; rewrite E in H; clear E
           end
         end.

Ltac kfin := kswap; try (kcongr; lia).

(** ** Insertion sort *)

(** The inner loop lets the element at [j] sink into the sorted slice to
    its left; the elements to its right, up to [i], are sorted and above
    its left neighbour. *)
Lemma insertionSort_inner_spec (j : nat) (d : list A) (a i : nat) :
  (a <= j <= i)%nat -> (i < length d)%nat ->
  asorted key d a j -> asorted key d j (S i) ->
  ((a < j)%nat -> (j < i)%nat -> Kk d (j - 1) <= Kk d (j + 1)) ->
  Touch a (S i) d (sort.insertionSort_inner less d a j) /\
  asorted key (sort.insertionSort_inner less d a j) a (S i).
Proof.
  revert d; induction j as [|j IH]; intros d Hj Hi H1 H2 H3; cbn [sort.insertionSort_inner].
  - split; [apply Touch_refl|]. replace a with 0%nat by lia. exact H2.
  - rewrite Less_K by lia.
    destruct ((a <? S j)%nat && (Kk d (S j) <? Kk d j)) eqn:Hc.
    + apply andb_prop in Hc as [Ha Hlt]. apply Nat.ltb_lt in Ha. apply Z.ltb_lt in Hlt.
      destruct (IH (Swap d (S j) j)) as [HT HS].
      * lia.
      * rewrite Swap_length. lia.
      * intros p Hp1 Hp2. pose proof (H1 p ltac:(lia) ltac:(lia)). kfin.
      * intros p Hp1 Hp2.
        destruct (Nat.eq_dec p j) as [->|Hpj]; [kfin|].
        destruct (Nat.eq_dec p (S j)) as [->|Hpj'].
        -- specialize (H3 ltac:(lia) ltac:(lia)). kfin.
        -- pose proof (H2 p ltac:(lia) ltac:(lia)). kfin.
      * intros Ha' Hji. pose proof (H1 (j - 1)%nat ltac:(lia) ltac:(lia)). kfin.
      * split; [|exact HS].
        eapply Touch_swap; [| | | | exact HT]; lia.
    + split; [apply Touch_refl|].
      intros p Hp1 Hp2.
      destruct (Nat.lt_ge_cases (S p) (S j)) as [Hlt|Hge]; [apply H1; lia|].
      destruct (Nat.eq_dec p j) as [->|Hne]; [|apply H2; lia].
      apply andb_false_iff in Hc as [Hc|Hc].
      * apply Nat.ltb_ge in Hc. lia.
      * apply Z.ltb_ge in Hc. exact Hc.
Qed.

Lemma asorted_mono (d : list A) (a b a' b' : nat) :
  (a <= a')%nat -> (b' <= b)%nat -> asorted key d a b -> asorted key d a' b'.
Proof. intros Ha Hb H p Hp1 Hp2. apply H; lia. Qed.

Lemma insertionSort_outer_spec (n : nat) (d : list A) (a i b : nat) :
  (b <= length d)%nat -> (a <= i)%nat -> (b - i <= n)%nat ->
  asorted key d a i ->
  Touch a b d (sort.insertionSort_outer less n d a i b) /\
  asorted key (sort.insertionSort_outer less n d a i b) a b.
Proof.
  revert d i; induction n as [|n IH]; intros d i Hb Hi Hn Hs; cbn [sort.insertionSort_outer].
  - split; [apply Touch_refl|]. eapply asorted_mono; [| |exact Hs]; lia.
  - destruct (i <? b)%nat eqn:Hib.
    + apply Nat.ltb_lt in Hib.
      destruct (insertionSort_inner_spec i d a i) as [HT HS]; try lia; auto.
      * intros p Hp1 Hp2. lia.
      * pose proof (Touch_length _ _ _ _ HT) as Hlen.
        destruct (IH (sort.insertionSort_inner less d a i) (S i)) as [HT' HS'];
          try lia; auto.
        split; [|exact HS'].
        eapply Touch_trans; [|exact HT']. eapply Touch_mono; [| |exact HT]; lia.
    + apply Nat.ltb_ge in Hib. split; [apply Touch_refl|].
      eapply asorted_mono; [| |exact Hs]; lia.
Qed.

(** [insertionSortLessFunc] sorts [data[a:b]]. *)
Lemma insertionSort_spec (d : list A) (a b : nat) :
  (b <= length d)%nat ->
  Touch a b d (sort.insertionSort less d a b) /\
  asorted key (sort.insertionSort less d a b) a b.
Proof.
  intros Hb. apply insertionSort_outer_spec; try lia.
  intros p Hp1 Hp2. lia.
Qed.

(** ** Partition *)

Lemma scanUp_spec (n : nat) (d : list A) (a i j : nat) :
  (j < length d)%nat -> (a < length d)%nat -> (S j - i <= n)%nat ->
  let i' := sort.scanUp less n d a i j in
  (i <= i')%nat /\ ((i <= S j)%nat -> (i' <= S j)%nat) /\
  (forall k, (i <= k < i')%nat -> Kk d k < Kk d a) /\
  ((i' <= j)%nat -> Kk d a <= Kk d i').
Proof.
  revert i; induction n as [|n IH]; intros i Hj Ha Hn; cbn [sort.scanUp]; cbv zeta.
  - repeat split; try lia.
  - destruct (i <=? j)%nat eqn:Hij; cbn [andb].
    + apply Nat.leb_le in Hij. rewrite Less_K by lia.
      destruct (Kk d i <? Kk d a) eqn:Hlt.
      * apply Z.ltb_lt in Hlt.
        destruct (IH (S i) Hj Ha ltac:(lia)) as (H1 & H2 & H3 & H4).
        repeat split; try lia; auto.
        intros k Hk. destruct (Nat.eq_dec k i) as [->|Hne]; [exact Hlt | apply H3; lia].
      * apply Z.ltb_ge in Hlt. repeat split; try lia.
    + apply Nat.leb_gt in Hij. repeat split; try lia.
Qed.

Lemma scanDown_spec (n : nat) (d : list A) (a i j : nat) :
  (j < length d)%nat -> (a < length d)%nat -> (1 <= i)%nat -> (S j - i <= n)%nat ->
  let j' := sort.scanDown less n d a i j in
  (j' <= j)%nat /\ ((i <= S j)%nat -> (i <= S j')%nat) /\
  (forall k, (j' < k <= j)%nat -> Kk d a <= Kk d k) /\
  ((i <= j')%nat -> Kk d j' < Kk d a).
Proof.
  revert j; induction n as [|n IH]; intros j Hj Ha Hi Hn; cbn [sort.scanDown]; cbv zeta.
  - repeat split; try lia.
  - destruct (i <=? j)%nat eqn:Hij; cbn [andb].
    + apply Nat.leb_le in Hij. rewrite Less_K by lia.
      destruct (Kk d j <? Kk d a) eqn:Hlt; cbn [negb].
      * apply Z.ltb_lt in Hlt. repeat split; try lia.
      * apply Z.ltb_ge in Hlt.
        destruct (IH (j - 1)%nat ltac:(lia) Ha Hi ltac:(lia)) as (H1 & H2 & H3 & H4).
        repeat split; try lia; auto.
        intros k Hk. destruct (Nat.eq_dec k j) as [->|Hne]; [exact Hlt | apply H3; lia].
    + apply Nat.leb_gt in Hij. repeat split; try lia.
Qed.

Lemma partition_loop_spec (n : nat) (d : list A) (a b i j : nat) :
  (a < i)%nat -> (j < b)%nat -> (b <= length d)%nat -> (i <= S j)%nat ->
  (S j - i <= n)%nat ->
  (forall k, (a < k < i)%nat -> Kk d k < Kk d a) ->
  (forall k, (j < k < b)%nat -> Kk d a <= Kk d k) ->
  let d' := fst (sort.partition_loop less n d a i j) in
  let j' := snd (sort.partition_loop less n d a i j) in
  Touch (S a) b d d' /\ (a <= j' < b)%nat /\
  (forall k, (a < k <= j')%nat -> Kk d' k < Kk d' a) /\
  (forall k, (j' < k < b)%nat -> Kk d' a <= Kk d' k).
Proof.
  revert d i j; induction n as [|n IH]; intros d i j Hi Hj Hb Hij Hn HL HR;
    cbn [sort.partition_loop]; cbv zeta.
  - cbn [fst snd]. split; [apply Touch_refl|]. repeat split; try lia.
    + intros k Hk. apply HL. lia.
    + exact HR.
  - destruct (scanUp_spec (S j - i) d a i j ltac:(lia) ltac:(lia) ltac:(lia))
      as (U1 & U2 & U3 & U4).
    set (i' := sort.scanUp less (S j - i) d a i j) in *.
    destruct (scanDown_spec (S j - i') d a i' j ltac:(lia) ltac:(lia) ltac:(lia) ltac:(lia))
      as (D1 & D2 & D3 & D4).
    set (j' := sort.scanDown less (S j - i') d a i' j) in *.
    specialize (U2 Hij). specialize (D2 U2).
    destruct (j' <? i')%nat eqn:Hji; cbn [fst snd].
    + apply Nat.ltb_lt in Hji. split; [apply Touch_refl|]. repeat split; try lia.
      * intros k Hk. destruct (Nat.lt_ge_cases k i); [apply HL | apply U3]; lia.
      * intros k Hk. destruct (Nat.lt_ge_cases j k); [apply HR | apply D3]; lia.
    + apply Nat.ltb_ge in Hji.
      specialize (U4 ltac:(lia)). specialize (D4 Hji).
      assert (Hlt : (i' < j')%nat).
      { destruct (Nat.eq_dec i' j') as [E|E]; [rewrite E in U4; lia | lia]. }
      destruct (IH (Swap d i' j') (S i') (j' - 1)%nat) as (T & B & L & R);
        try lia.
      * rewrite Swap_length. lia.
      * intros k Hk.
        destruct (Nat.eq_dec k i') as [->|Hne]; [kfin|].
        assert (Kk d k < Kk d a).
        { destruct (Nat.lt_ge_cases k i); [apply HL | apply U3]; lia. }
        kfin.
      * intros k Hk.
        destruct (Nat.eq_dec k j') as [->|Hne]; [kfin|].
        assert (Kk d a <= Kk d k).
        { destruct (Nat.lt_ge_cases j k); [apply HR | apply D3]; lia. }
        kfin.
      * split; [|repeat split; auto; lia].
        eapply Touch_swap; [| | | | exact T]; lia.
Qed.

(** [partitionLessFunc]: the new pivot index is in the slice, the elements
    before it are below the pivot, the elements after it are not. *)
Lemma partition_spec (d : list A) (a b pivot : nat) :
  (a <= pivot < b)%nat -> (b <= length d)%nat ->
  let d' := fst (fst (sort.partition less d a b pivot)) in
  let mid := snd (fst (sort.partition less d a b pivot)) in
  Touch a b d d' /\ (a <= mid < b)%nat /\
  (forall k, (a <= k < mid)%nat -> Kk d' k < Kk d' mid) /\
  (forall k, (mid < k < b)%nat -> Kk d' mid <= Kk d' k).
Proof.
  intros Hp Hb. unfold sort.partition.
  set (d1 := sort.Swap d a pivot).
  assert (T1 : Touch a b d d1) by (apply Touch_one; lia).
  assert (Hlen1 : length d1 = length d) by apply Swap_length.
  destruct (scanUp_spec (b - a) d1 a (a + 1) (b - 1) ltac:(lia) ltac:(lia) ltac:(lia))
    as (U1 & U2 & U3 & U4).
  set (i := sort.scanUp less (b - a) d1 a (a + 1) (b - 1)) in *.
  destruct (scanDown_spec (b - a) d1 a i (b - 1) ltac:(lia) ltac:(lia) ltac:(lia) ltac:(lia))
    as (D1 & D2 & D3 & D4).
  set (j := sort.scanDown less (b - a) d1 a i (b - 1)) in *.
  specialize (U2 ltac:(lia)). specialize (D2 ltac:(lia)).
  (* the last exchange puts the pivot between the two parts *)
  assert (Hfinal : forall d3 j',
            Touch a b d d3 -> (a <= j' < b)%nat ->
            (forall k, (a < k <= j')%nat -> Kk d3 k < Kk d3 a) ->
            (forall k, (j' < k < b)%nat -> Kk d3 a <= Kk d3 k) ->
            Touch a b d (Swap d3 j' a) /\ (a <= j' < b)%nat /\
            (forall k, (a <= k < j')%nat -> Kk (Swap d3 j' a) k < Kk (Swap d3 j' a) j') /\
            (forall k, (j' < k < b)%nat -> Kk (Swap d3 j' a) j' <= Kk (Swap d3 j' a) k)).
  { intros d3 j' T3 Hj' L R.
    pose proof (Touch_length _ _ _ _ T3) as Hlen3.
    split; [eapply Touch_trans; [exact T3 | apply Touch_one; lia]|].
    split; [exact Hj'|]. split.
    - intros k Hk. destruct (Nat.eq_dec k a) as [->|Hne].
      + pose proof (L j' ltac:(lia)). kfin.
      + pose proof (L k ltac:(lia)). kfin.
    - intros k Hk. pose proof (R k ltac:(lia)). kfin. }
  destruct (j <? i)%nat eqn:Hji; cbn [fst snd].
  - apply Nat.ltb_lt in Hji. apply Hfinal; auto; try lia.
    + intros k Hk. apply U3. lia.
    + intros k Hk. apply D3. lia.
  - apply Nat.ltb_ge in Hji.
    specialize (U4 ltac:(lia)). specialize (D4 Hji).
    assert (Hlt : (i < j)%nat).
    { destruct (Nat.eq_dec i j) as [E|E]; [rewrite E in U4; lia | lia]. }
    destruct (partition_loop_spec (b - a) (Swap d1 i j) a b (S i) (j - 1)%nat)
      as (T & B & L & R); try lia.
    + rewrite Swap_length. lia.
    + intros k Hk.
      destruct (Nat.eq_dec k i) as [->|Hne]; [kfin|].
      pose proof (U3 k ltac:(lia)). kfin.
    + intros k Hk.
      destruct (Nat.eq_dec k j) as [->|Hne]; [kfin|].
      pose proof (D3 k ltac:(lia)). kfin.
    + destruct (sort.partition_loop less (b - a) (Swap d1 i j) a (S i) (j - 1))
        as [d3 j'] eqn:Hloop.
      cbn [fst snd] in *. apply Hfinal; auto.
      eapply Touch_trans; [exact T1|].
      eapply Touch_swap; [| | | | eapply Touch_mono; [| |exact T]]; lia.
Qed.

(** ** Partition of a slice with many equal elements *)

Lemma scanUpEq_spec (n : nat) (d : list A) (a i j : nat) :
  (j < length d)%nat -> (a < length d)%nat -> (S j - i <= n)%nat ->
  let i' := sort.scanUpEq less n d a i j in
  (i <= i')%nat /\ ((i <= S j)%nat -> (i' <= S j)%nat) /\
  (forall k, (i <= k < i')%nat -> Kk d k <= Kk d a) /\
  ((i' <= j)%nat -> Kk d a < Kk d i').
Proof.
  revert i; induction n as [|n IH]; intros i Hj Ha Hn; cbn [sort.scanUpEq]; cbv zeta.
  - repeat split; try lia.
  - destruct (i <=? j)%nat eqn:Hij; cbn [andb].
    + apply Nat.leb_le in Hij. rewrite Less_K by lia.
      destruct (Kk d a <? Kk d i) eqn:Hlt; cbn [negb].
      * apply Z.ltb_lt in Hlt. repeat split; try lia.
      * apply Z.ltb_ge in Hlt.
        destruct (IH (S i) Hj Ha ltac:(lia)) as (H1 & H2 & H3 & H4).
        repeat split; try lia; auto.
        intros k Hk. destruct (Nat.eq_dec k i) as [->|Hne]; [exact Hlt | apply H3; lia].
    + apply Nat.leb_gt in Hij. repeat split; try lia.
Qed.

Lemma scanDownEq_spec (n : nat) (d : list A) (a i j : nat) :
  (j < length d)%nat -> (a < length d)%nat -> (1 <= i)%nat -> (S j - i <= n)%nat ->
  let j' := sort.scanDownEq less n d a i j in
  (j' <= j)%nat /\ ((i <= S j)%nat -> (i <= S j')%nat) /\
  (forall k, (j' < k <= j)%nat -> Kk d a < Kk d k) /\
  ((i <= j')%nat -> Kk d j' <= Kk d a).
Proof.
  revert j; induction n as [|n IH]; intros j Hj Ha Hi Hn; cbn [sort.scanDownEq]; cbv zeta.
  - repeat split; try lia.
  - destruct (i <=? j)%nat eqn:Hij; cbn [andb].
    + apply Nat.leb_le in Hij. rewrite Less_K by lia.
      destruct (Kk d a <? Kk d j) eqn:Hlt.
      * apply Z.ltb_lt in Hlt.
        destruct (IH (j - 1)%nat ltac:(lia) Ha Hi ltac:(lia)) as (H1 & H2 & H3 & H4).
        repeat split; try lia; auto.
        intros k Hk. destruct (Nat.eq_dec k j) as [->|Hne]; [exact Hlt | apply H3; lia].
      * apply Z.ltb_ge in Hlt. repeat split; try lia.
    + apply Nat.leb_gt in Hij. repeat split; try lia.
Qed.

Lemma partitionEqual_loop_spec (n : nat) (d : list A) (a b i j : nat) :
  (a < i)%nat -> (j < b)%nat -> (b <= length d)%nat -> (i <= S j)%nat ->
  (S j - i <= n)%nat ->
  (forall k, (a < k < i)%nat -> Kk d k <= Kk d a) ->
  (forall k, (j < k < b)%nat -> Kk d a < Kk d k) ->
  let d' := fst (sort.partitionEqual_loop less n d a i j) in
  let mid := snd (sort.partitionEqual_loop less n d a i j) in
  Touch (S a) b d d' /\ (a < mid <= b)%nat /\
  (forall k, (a < k < mid)%nat -> Kk d' k <= Kk d' a) /\
  (forall k, (mid <= k < b)%nat -> Kk d' a < Kk d' k).
Proof.
  revert d i j; induction n as [|n IH]; intros d i j Hi Hj Hb Hij Hn HL HR;
    cbn [sort.partitionEqual_loop]; cbv zeta.
  - cbn [fst snd]. split; [apply Touch_refl|]. repeat split; try lia.
    + exact HL.
    + intros k Hk. apply HR. lia.
  - destruct (scanUpEq_spec (S j - i) d a i j ltac:(lia) ltac:(lia) ltac:(lia))
      as (U1 & U2 & U3 & U4).
    set (i' := sort.scanUpEq less (S j - i) d a i j) in *.
    destruct (scanDownEq_spec (S j - i') d a i' j ltac:(lia) ltac:(lia) ltac:(lia)
                ltac:(lia)) as (D1 & D2 & D3 & D4).
    set (j' := sort.scanDownEq less (S j - i') d a i' j) in *.
    specialize (U2 Hij). specialize (D2 U2).
    destruct (j' <? i')%nat eqn:Hji; cbn [fst snd].
    + apply Nat.ltb_lt in Hji. split; [apply Touch_refl|]. repeat split; try lia.
      * intros k Hk. destruct (Nat.lt_ge_cases k i); [apply HL | apply U3]; lia.
      * intros k Hk. destruct (Nat.lt_ge_cases j k); [apply HR | apply D3]; lia.
    + apply Nat.ltb_ge in Hji.
      specialize (U4 ltac:(lia)). specialize (D4 Hji).
      assert (Hlt : (i' < j')%nat).
      { destruct (Nat.eq_dec i' j') as [E|E]; [rewrite E in U4; lia | lia]. }
      destruct (IH (Swap d i' j') (S i') (j' - 1)%nat) as (T & B & L & R);
        try lia.
      * rewrite Swap_length. lia.
      * intros k Hk.
        destruct (Nat.eq_dec k i') as [->|Hne]; [kfin|].
        assert (Kk d k <= Kk d a).
        { destruct (Nat.lt_ge_cases k i); [apply HL | apply U3]; lia. }
        kfin.
      * intros k Hk.
        destruct (Nat.eq_dec k j') as [->|Hne]; [kfin|].
        assert (Kk d a < Kk d k).
        { destruct (Nat.lt_ge_cases j k); [apply HR | apply D3]; lia. }
        kfin.
      * split; [|repeat split; auto; lia].
        eapply Touch_swap; [| | | | exact T]; lia.
Qed.

(** [partitionEqualLessFunc], when the pivot is a least element of the
    slice: the elements before the returned index are equal to the pivot,
    the elements from it on are above. *)
Lemma partitionEqual_spec (d : list A) (a b pivot : nat) :
  (a <= pivot < b)%nat -> (b <= length d)%nat ->
  (forall k, (a <= k < b)%nat -> Kk d pivot <= Kk d k) ->
  let d' := fst (sort.partitionEqual less d a b pivot) in
  let mid := snd (sort.partitionEqual less d a b pivot) in
  Touch a b d d' /\ (a < mid <= b)%nat /\
  (forall k, (a <= k < mid)%nat -> Kk d' k = Kk d pivot) /\
  (forall k, (mid <= k < b)%nat -> Kk d pivot < Kk d' k).
Proof.
  intros Hp Hb Hmin. unfold sort.partitionEqual.
  set (d1 := sort.Swap d a pivot).
  assert (T1 : Touch a b d d1) by (apply Touch_one; lia).
  assert (Hlen1 : length d1 = length d) by apply Swap_length.
  assert (Ha1 : Kk d1 a = Kk d pivot) by (unfold d1; kfin).
  destruct (partitionEqual_loop_spec (b - a) d1 a b (a + 1) (b - 1))
    as (T & B & L & R); try lia; try (intros k Hk; lia).
  cbv zeta.
  set (d' := fst (sort.partitionEqual_loop less (b - a) d1 a (a + 1) (b - 1))) in *.
  set (mid := snd (sort.partitionEqual_loop less (b - a) d1 a (a + 1) (b - 1))) in *.
  assert (T' : Touch a b d d').
  { eapply Touch_trans; [exact T1|]. eapply Touch_mono; [| |exact T]; lia. }
  assert (Ha' : Kk d' a = Kk d pivot).
  { rewrite (Touch_outside (S a) b d1 d' a T) by lia. exact Ha1. }
  pose proof (Touch_forall (fun z => Kk d pivot <= z) a b d d' T' Hmin) as Hmin'.
  cbv beta in Hmin'.
  split; [exact T'|]. split; [exact B|]. split.
  - intros k Hk. destruct (Nat.eq_dec k a) as [->|Hne]; [exact Ha'|].
    pose proof (L k ltac:(lia)). pose proof (Hmin' k ltac:(lia)). lia.
  - intros k Hk. pose proof (R k Hk). lia.
Qed.

(** ** The pivot *)

Lemma order2_in (d : list A) (a b swaps : nat) :
  let r := sort.order2 less d a b swaps in
  (fst (fst r) = a /\ snd (fst r) = b) \/ (fst (fst r) = b /\ snd (fst r) = a).
Proof.
  unfold sort.order2. destruct (sort.Less less d b a); cbn; auto.
Qed.

Lemma median_in (d : list A) (a b c swaps : nat) :
  let m := fst (sort.median less d a b c swaps) in m = a \/ m = b \/ m = c.
Proof.
  unfold sort.median.
  pose proof (order2_in d a b swaps) as H1.
  destruct (sort.order2 less d a b swaps) as [[a1 b1] n1]. cbn in H1.
  pose proof (order2_in d b1 c n1) as H2.
  destruct (sort.order2 less d b1 c n1) as [[b2 c2] n2]. cbn in H2.
  pose proof (order2_in d a1 b2 n2) as H3.
  destruct (sort.order2 less d a1 b2 n2) as [[a3 b3] n3]. cbn in H3.
  cbn. intuition congruence.
Qed.

(** [choosePivotLessFunc] returns an index of the slice. *)
Lemma choosePivot_in (d : list A) (a b : nat) :
  (8 <= b - a)%nat ->
  (a <= fst (sort.choosePivot less d a b) < b)%nat.
Proof.
  intros Hl. unfold sort.choosePivot.
  set (l := (b - a)%nat) in *.
  assert (Hq : (2 <= l / 4)%nat /\ (4 * (l / 4) <= l)%nat).
  { pose proof (Nat.div_mod_eq l 4). pose proof (Nat.mod_upper_bound l 4 ltac:(lia)).
    lia. }
  destruct Hq as [Hq1 Hq2].
  assert (El : l = (b - a)%nat) by reflexivity. clearbody l.
  assert (Hl' : (8 <=? l)%nat = true) by (apply Nat.leb_le; lia). rewrite Hl'.
  assert (Hres : forall p : nat * nat,
            (a <= fst p < b)%nat ->
            (a <= fst (let '(j', swaps) := p in
                       if (swaps =? 0)%nat then (j', sort.increasingHint)
                       else if (swaps =? sort.maxSwaps)%nat then (j', sort.decreasingHint)
                       else (j', sort.unknownHint)) < b)%nat).
  { intros [j' swaps] H. cbn [fst] in H.
    destruct (swaps =? 0)%nat; [exact H|]. destruct (swaps =? sort.maxSwaps)%nat; exact H. }
  apply Hres. clear Hres.
  destruct (sort.shortestNinther <=? l)%nat eqn:Hn.
  - apply Nat.leb_le in Hn. unfold sort.shortestNinther in Hn.
    unfold sort.medianAdjacent.
    pose proof (median_in d (a + l / 4 * 1 - 1) (a + l / 4 * 1) (a + l / 4 * 1 + 1) 0) as M1.
    destruct (sort.median less d (a + l / 4 * 1 - 1) (a + l / 4 * 1) (a + l / 4 * 1 + 1) 0)
      as [i1 n1]. cbv zeta in M1; cbn [fst] in M1.
    pose proof (median_in d (a + l / 4 * 2 - 1) (a + l / 4 * 2) (a + l / 4 * 2 + 1) n1) as M2.
    destruct (sort.median less d (a + l / 4 * 2 - 1) (a + l / 4 * 2) (a + l / 4 * 2 + 1) n1)
      as [j1 n2]. cbv zeta in M2; cbn [fst] in M2.
    pose proof (median_in d (a + l / 4 * 3 - 1) (a + l / 4 * 3) (a + l / 4 * 3 + 1) n2) as M3.
    destruct (sort.median less d (a + l / 4 * 3 - 1) (a + l / 4 * 3) (a + l / 4 * 3 + 1) n2)
      as [k1 n3]. cbv zeta in M3; cbn [fst] in M3.
    pose proof (median_in d i1 j1 k1 n3) as M. cbv zeta in M. lia.
  - pose proof (median_in d (a + l / 4 * 1) (a + l / 4 * 2) (a + l / 4 * 3) 0) as M.
    cbv zeta in M. lia.
Qed.

(** ** Reversing and scattering *)

Lemma reverseRange_loop_Touch (n : nat) (d : list A) (a b i j : nat) :
  (a <= i)%nat -> (j < b)%nat -> (b <= length d)%nat ->
  Touch a b d (sort.reverseRange_loop n d i j).
Proof.
  revert d i j; induction n as [|n IH]; intros d i j Hi Hj Hb;
    cbn [sort.reverseRange_loop]; [apply Touch_refl|].
  destruct (i <? j)%nat eqn:Hij; [|apply Touch_refl]. apply Nat.ltb_lt in Hij.
  eapply Touch_swap; [| | | | apply IH]; try lia. rewrite Swap_length. lia.
Qed.

Lemma reverseRange_Touch (d : list A) (a b : nat) :
  (a < b)%nat -> (b <= length d)%nat -> Touch a b d (sort.reverseRange d a b).
Proof. intros Hab Hb. apply reverseRange_loop_Touch; lia. Qed.

Lemma nextPowerOfTwo_bound (l : nat) :
  (0 < l)%nat -> 0 < sort.nextPowerOfTwo l <= 2 * Z.of_nat l.
Proof.
  intros Hl. unfold sort.nextPowerOfTwo, sort.bitsLen.
  destruct l as [|l']; [lia|]. set (l := S l') in *.
  rewrite Z.shiftl_1_l.
  pose proof (Nat.log2_spec l ltac:(lia)) as [Hlo _].
  replace (Z.of_nat (S (Nat.log2 l))) with (Z.succ (Z.of_nat (Nat.log2 l))) by lia.
  rewrite Z.pow_succ_r by lia.
  assert (H2 : 2 ^ Z.of_nat (Nat.log2 l) = Z.of_nat (2 ^ Nat.log2 l)).
  { rewrite Nat2Z.inj_pow. reflexivity. }
  rewrite H2. split; [|lia].
  assert (0 < 2 ^ Nat.log2 l)%nat; [|lia].
  apply Nat.neq_0_lt_0. apply Nat.pow_nonzero. lia.
Qed.

Lemma breakPatterns_loop_Touch (n : nat) (d : list A) (random : Z) (bits : nat)
    (a b idx i : nat) :
  (b <= length d)%nat -> (0 < b - a)%nat ->
  2 ^ Z.of_nat bits <= 2 * Z.of_nat (b - a) ->
  (a + 1 <= idx)%nat -> (idx - 1 + i + n < b)%nat ->
  Touch a b d
    (sort.breakPatterns_loop xorshiftNext n d random (2 ^ Z.of_nat bits) a (b - a) idx i).
Proof.
  revert d random i; induction n as [|n IH]; intros d random i Hb Hl Hm Hidx Hi;
    cbn [sort.breakPatterns_loop]; [apply Touch_refl|].
  cbv zeta.
  set (other0 := Z.to_nat (Z.land (xorshiftNext random) (2 ^ Z.of_nat bits - 1))).
  assert (Ho : (other0 < 2 * (b - a))%nat).
  { unfold other0.
    replace (2 ^ Z.of_nat bits - 1) with (Z.ones (Z.of_nat bits))
      by (rewrite Z.ones_equiv; lia).
    rewrite Z.land_ones by lia.
    pose proof (Z.mod_pos_bound (xorshiftNext random) (2 ^ Z.of_nat bits)
                  ltac:(apply Z.pow_pos_nonneg; lia)).
    lia. }
  eapply Touch_swap; [| | | | apply IH]; try lia.
  - destruct (b - a <=? other0)%nat eqn:E;
      [apply Nat.leb_le in E | apply Nat.leb_gt in E]; lia.
  - destruct (b - a <=? other0)%nat eqn:E;
      [apply Nat.leb_le in E | apply Nat.leb_gt in E]; lia.
  - rewrite Swap_length. lia.
Qed.

(** [breakPatternsLessFunc] exchanges elements of the slice, whatever the
    generator returns. *)
Lemma breakPatterns_Touch (d : list A) (a b : nat) :
  (b <= length d)%nat ->
  Touch a b d (sort.breakPatterns xorshiftNext d a b).
Proof.
  intros Hb. unfold sort.breakPatterns.
  destruct (8 <=? b - a)%nat eqn:Hl; [|apply Touch_refl]. apply Nat.leb_le in Hl.
  assert (Hq : (2 <= (b - a) / 4)%nat /\ (4 * ((b - a) / 4) <= b - a)%nat).
  { pose proof (Nat.div_mod_eq (b - a) 4).
    pose proof (Nat.mod_upper_bound (b - a) 4 ltac:(lia)). lia. }
  pose proof (nextPowerOfTwo_bound (b - a) ltac:(lia)) as Hp.
  unfold sort.nextPowerOfTwo in *. rewrite Z.shiftl_1_l in *.
  apply breakPatterns_loop_Touch; lia.
Qed.

(** ** Partial insertion sort *)

Lemma scanSorted_spec (n : nat) (d : list A) (a i b : nat) :
  (a < i <= b)%nat -> (b <= length d)%nat -> (b - i <= n)%nat ->
  asorted key d a i ->
  let i1 := sort.scanSorted less n d i b in
  (i <= i1 <= b)%nat /\ asorted key d a i1 /\
  ((i1 < b)%nat -> Kk d i1 < Kk d (i1 - 1)).
Proof.
  revert i; induction n as [|n IH]; intros i Hi Hb Hn Hs; cbn [sort.scanSorted]; cbv zeta.
  - repeat split; try lia. exact Hs.
  - destruct (i <? b)%nat eqn:Hib; cbn [andb].
    + apply Nat.ltb_lt in Hib. rewrite Less_K by lia.
      destruct (Kk d i <? Kk d (i - 1)) eqn:Hlt; cbn [negb].
      * apply Z.ltb_lt in Hlt. repeat split; try lia. exact Hs.
      * apply Z.ltb_ge in Hlt.
        destruct (IH (S i) ltac:(lia) Hb ltac:(lia)) as (H1 & H2 & H3).
        -- intros p Hp1 Hp2. destruct (Nat.eq_dec (S p) i) as [E|E].
           ++ replace (i - 1)%nat with p in Hlt by lia. now rewrite E.
           ++ apply Hs; lia.
        -- repeat split; try lia; auto.
    + apply Nat.ltb_ge in Hib. repeat split; try lia. exact Hs.
Qed.

(** Below a lower bound the left shift stops at the start of the slice: it
    is the inner loop of the insertion sort. *)
Lemma shiftLeft_inner (j : nat) (d : list A) (a b : nat) :
  (a <= j < b)%nat -> (b <= length d)%nat -> lowerBound key d a b ->
  sort.shiftLeft less d j = sort.insertionSort_inner less d a j.
Proof.
  revert d; induction j as [|j IH]; intros d Hj Hb HL;
    cbn [sort.shiftLeft sort.insertionSort_inner]; [reflexivity|].
  rewrite Less_K by lia.
  destruct (a <? S j)%nat eqn:Ha; cbn [andb].
  - apply Nat.ltb_lt in Ha.
    destruct (Kk d (S j) <? Kk d j); cbn [negb]; [|reflexivity].
    apply IH; [lia | rewrite Swap_length; lia|].
    eapply lowerBound_Touch; [|exact HL]. apply Touch_one; lia.
  - apply Nat.ltb_ge in Ha. assert (a = S j) by lia. subst a.
    pose proof (HL ltac:(lia) (S j) ltac:(lia)) as Hlow.
    replace (S j - 1)%nat with j in Hlow by lia.
    destruct (Kk d (S j) <? Kk d j) eqn:Hlt; [apply Z.ltb_lt in Hlt; lia | reflexivity].
Qed.

Lemma shiftRight_Touch (n : nat) (d : list A) (lo j b : nat) :
  (lo < j)%nat -> (b <= length d)%nat ->
  Touch lo b d (sort.shiftRight less n d j b).
Proof.
  revert d j; induction n as [|n IH]; intros d j Hj Hb; cbn [sort.shiftRight];
    [apply Touch_refl|].
  destruct (j <? b)%nat eqn:Hjb; [|apply Touch_refl]. apply Nat.ltb_lt in Hjb.
  destruct (negb (sort.Less less d j (j - 1))); [apply Touch_refl|].
  eapply Touch_swap; [| | | | apply IH]; try lia. rewrite Swap_length. lia.
Qed.

Lemma asorted_outside (d d' : list A) (lo b a i : nat) :
  Touch lo b d d' -> (i <= lo)%nat -> asorted key d a i -> asorted key d' a i.
Proof.
  intros HT Hi Hs p Hp1 Hp2.
  rewrite !(Touch_outside lo b d d') by (auto; lia). now apply Hs.
Qed.

Lemma partialInsertionSort_loop_spec (steps : nat) (d : list A) (a b i : nat) :
  (a < i <= b)%nat -> (b <= length d)%nat -> lowerBound key d a b ->
  asorted key d a i ->
  let r := sort.partialInsertionSort_loop less steps d a b i in
  Touch a b d (fst r) /\ (snd r = true -> asorted key (fst r) a b).
Proof.
  revert d i; induction steps as [|steps IH]; intros d i Hi Hb HL Hs;
    cbn [sort.partialInsertionSort_loop]; cbv zeta.
  - cbn [fst snd]. split; [apply Touch_refl | discriminate].
  - destruct (scanSorted_spec (b - i) d a i b Hi Hb ltac:(lia) Hs) as (S1 & S2 & S3).
    set (i1 := sort.scanSorted less (b - i) d i b) in *.
    destruct (i1 =? b)%nat eqn:Hi1.
    { apply Nat.eqb_eq in Hi1. cbn [fst snd]. split; [apply Touch_refl|].
      intros _. now rewrite <- Hi1. }
    apply Nat.eqb_neq in Hi1.
    destruct (b - a <? sort.shortestShifting)%nat.
    { cbn [fst snd]. split; [apply Touch_refl | discriminate]. }
    specialize (S3 ltac:(lia)).
    set (d1 := sort.Swap d i1 (i1 - 1)).
    assert (T1 : Touch a b d d1) by (apply Touch_one; lia).
    assert (Hlen1 : length d1 = length d) by apply Swap_length.
    assert (HL1 : lowerBound key d1 a b) by (eapply lowerBound_Touch; eauto).
    set (d2 := if (2 <=? i1 - a)%nat then sort.shiftLeft less d1 (i1 - 1) else d1).
    assert (Hd2 : d2 = sort.insertionSort_inner less d1 a (i1 - 1)).
    { unfold d2. destruct (2 <=? i1 - a)%nat eqn:H2.
      - apply Nat.leb_le in H2. apply (shiftLeft_inner _ _ a b); auto; lia.
      - apply Nat.leb_gt in H2. assert (E : (i1 - 1 = a)%nat) by lia. rewrite E.
        destruct a as [|a']; [reflexivity|]. cbn [sort.insertionSort_inner].
        now rewrite Nat.ltb_irrefl. }
    destruct (insertionSort_inner_spec (i1 - 1) d1 a (i1 - 1)) as [T2 S2'];
      try lia.
    { intros p Hp1 Hp2. pose proof (S2 p ltac:(lia) ltac:(lia)). unfold d1. kfin. }
    { intros p Hp1 Hp2. lia. }
    rewrite <- Hd2 in T2, S2'. replace (S (i1 - 1)) with i1 in T2, S2' by lia.
    pose proof (Touch_length _ _ _ _ T2) as Hlen2.
    set (d3 := if (2 <=? b - i1)%nat then sort.shiftRight less (b - i1) d2 (i1 + 1) b
               else d2).
    assert (T3 : Touch i1 b d2 d3).
    { unfold d3. destruct (2 <=? b - i1)%nat; [|apply Touch_refl].
      apply shiftRight_Touch; lia. }
    assert (Tall : Touch a b d d3).
    { eapply Touch_trans; [exact T1|]. eapply Touch_trans.
      - eapply Touch_mono; [| |exact T2]; lia.
      - eapply Touch_mono; [| |exact T3]; lia. }
    destruct (IH d3 i1) as [T4 S4]; try lia.
    + rewrite (Touch_length _ _ _ _ T3). lia.
    + eapply lowerBound_Touch; eauto.
    + eapply asorted_outside; [exact T3 | lia | exact S2'].
    + split; [|exact S4]. eapply Touch_trans; eauto.
Qed.

(** [partialInsertionSortLessFunc] exchanges elements of the slice and
    returns [true] only if it left the slice sorted. *)
Lemma partialInsertionSort_spec (d : list A) (a b : nat) :
  (a < b)%nat -> (b <= length d)%nat -> lowerBound key d a b ->
  let r := sort.partialInsertionSort less d a b in
  Touch a b d (fst r) /\ (snd r = true -> asorted key (fst r) a b).
Proof.
  intros Hab Hb HL. apply partialInsertionSort_loop_spec; auto; try lia.
  intros p Hp1 Hp2. lia.
Qed.

(** ** Heap sort *)

(** [siftDown] restores the heap below [lo] when it holds everywhere but at
    [root], whose children are not above its parent. *)
Lemma siftDown_from_spec (fuel : nat) (d : list A) (root hi first lo : nat) :
  (first + hi <= length d)%nat -> (lo <= root)%nat -> (hi - root <= fuel)%nat ->
  (forall i c, (lo <= i)%nat -> i <> root -> (c = 2 * i + 1 \/ c = 2 * i + 2)%nat ->
     (c < hi)%nat -> Kk d (first + c) <= Kk d (first + i)) ->
  (forall p c, (lo <= p)%nat -> (root = 2 * p + 1 \/ root = 2 * p + 2)%nat ->
     (c = 2 * root + 1 \/ c = 2 * root + 2)%nat -> (c < hi)%nat ->
     Kk d (first + c) <= Kk d (first + p)) ->
  Touch first (first + hi) d (sort.siftDown_from less fuel d root hi first) /\
  heapFrom key (sort.siftDown_from less fuel d root hi first) first lo hi.
Proof.
  revert d root; induction fuel as [|fuel IH]; intros d root Hlen Hlo Hfuel H1 H2;
    cbn [sort.siftDown_from]; cbv zeta.
  - split; [apply Touch_refl|]. intros i c Hi Hc Hchi.
    apply H1; auto. lia.
  - destruct (hi <=? 2 * root + 1)%nat eqn:Hleaf.
    { apply Nat.leb_le in Hleaf. split; [apply Touch_refl|].
      intros i c Hi Hc Hchi. apply H1; auto. lia. }
    apply Nat.leb_gt in Hleaf.
    set (child := (2 * root + 1)%nat) in *.
    set (child' := if (child + 1 <? hi)%nat && Less d (first + child) (first + child + 1)
                   then S child else child).
    (* child' is the greater child *)
    assert (Hc' : (child' = child \/ child' = child + 1)%nat /\ (child' < hi)%nat /\
                  Kk d (first + child) <= Kk d (first + child') /\
                  ((child + 1 < hi)%nat -> Kk d (first + child + 1) <= Kk d (first + child'))).
    { unfold child'. destruct (child + 1 <? hi)%nat eqn:E; cbn [andb].
      - apply Nat.ltb_lt in E. rewrite Less_K by lia.
        destruct (Kk d (first + child) <? Kk d (first + child + 1)) eqn:E2.
        + apply Z.ltb_lt in E2.
          replace (first + S child)%nat with (first + child + 1)%nat by lia.
          repeat split; try lia.
        + apply Z.ltb_ge in E2. repeat split; try lia.
      - apply Nat.ltb_ge in E. repeat split; try lia. }
    destruct Hc' as (Hcc & Hchi & Hge1 & Hge2).
    rewrite Less_K by lia.
    destruct (Kk d (first + root) <? Kk d (first + child')) eqn:Hlt; cbn [negb].
    + apply Z.ltb_lt in Hlt.
      destruct (IH (Swap d (first + root) (first + child')) child') as [T HH]; try lia.
      * rewrite Swap_length. lia.
      * intros i c Hi Hne Hc Hch.
        destruct (Nat.eq_dec i root) as [->|Hir].
        -- (* the children of the old root *)
           destruct (Nat.eq_dec c child') as [->|Hcne]; [kfin|].
           assert (Hsib : Kk d (first + c) <= Kk d (first + child')).
           { destruct Hcc as [E|E].
             - assert (c = child + 1)%nat by (unfold child in *; lia). subst c.
               replace (first + (child + 1))%nat with (first + child + 1)%nat by lia.
               apply Hge2. lia.
             - assert (c = child) by (unfold child in *; lia). subst c. exact Hge1. }
           kfin.
        -- destruct (Nat.eq_dec c root) as [->|Hcr].
           ++ (* the parent of the old root *)
              pose proof (H2 i child' Hi ltac:(lia) ltac:(unfold child in *; lia) Hchi).
              kfin.
           ++ pose proof (H1 i c Hi Hir Hc Hch).
              assert (c <> child') by (unfold child in *; lia).
              kfin.
      * intros p c Hp Hpar Hc Hch.
        assert (p = root) by (unfold child in *; lia). subst p.
        pose proof (H1 child' c ltac:(lia) ltac:(lia) Hc Hch).
        assert (c <> root) by lia. assert (c <> child') by lia.
        kfin.
      * split; [|exact HH]. eapply Touch_swap; [| | | | exact T]; lia.
    + apply Z.ltb_ge in Hlt. split; [apply Touch_refl|].
      intros i c Hi Hc Hch.
      destruct (Nat.eq_dec i root) as [->|Hir]; [|now apply H1].
      destruct (Nat.eq_dec c child) as [->|Hcne]; [lia|].
      assert (c = child + 1)%nat by (unfold child in *; lia). subst c.
      specialize (Hge2 Hch).
      replace (first + (child + 1))%nat with (first + child + 1)%nat by lia. lia.
Qed.

Lemma siftDown_spec (d : list A) (lo hi first : nat) :
  (first + hi <= length d)%nat ->
  heapFrom key d first (S lo) hi ->
  Touch first (first + hi) d (sort.siftDown less d lo hi first) /\
  heapFrom key (sort.siftDown less d lo hi first) first lo hi.
Proof.
  intros Hlen Hheap. apply siftDown_from_spec; auto; try lia.
  intros i c Hi Hne Hc Hch. apply Hheap; auto. lia.
Qed.

Lemma heapSort_build_spec (n : nat) (d : list A) (hi first : nat) :
  (first + hi <= length d)%nat -> heapFrom key d first n hi ->
  Touch first (first + hi) d (sort.heapSort_build less n d hi first) /\
  heapFrom key (sort.heapSort_build less n d hi first) first 0 hi.
Proof.
  revert d; induction n as [|n IH]; intros d Hlen Hheap; cbn [sort.heapSort_build].
  - split; [apply Touch_refl | exact Hheap].
  - destruct (siftDown_spec d n hi first Hlen Hheap) as [T1 H1].
    destruct (IH (sort.siftDown less d n hi first)) as [T2 H2]; auto.
    + rewrite (Touch_length _ _ _ _ T1). exact Hlen.
    + split; [|exact H2]. eapply Touch_trans; eauto.
Qed.

(** The root of a heap is its greatest element. *)
Lemma heap_root_max (d : list A) (first n : nat) :
  heapFrom key d first 0 n ->
  forall k, (k < n)%nat -> Kk d (first + k) <= Kk d (first + 0).
Proof.
  intros Hheap k. induction k as [k IH] using lt_wf_ind. intros Hk.
  destruct k as [|k]; [lia|].
  set (p := (k / 2)%nat).
  assert (Hp : (S k = 2 * p + 1 \/ S k = 2 * p + 2)%nat).
  { unfold p. pose proof (Nat.div_mod_eq k 2).
    pose proof (Nat.mod_upper_bound k 2 ltac:(lia)). lia. }
  transitivity (Kk d (first + p)).
  - apply Hheap; auto; lia.
  - apply IH; lia.
Qed.

(** The second phase: the heap [data[first:first+n]] is emptied into the
    sorted slice above it, whose elements are not below those of the
    heap. *)
Lemma heapSort_pop_spec (n : nat) (d : list A) (first hi : nat) :
  (n <= hi)%nat -> (first + hi <= length d)%nat ->
  heapFrom key d first 0 n ->
  asorted key d (first + n) (first + hi) ->
  ((n < hi)%nat -> forall k, (k < n)%nat -> Kk d (first + k) <= Kk d (first + n)) ->
  Touch first (first + hi) d (sort.heapSort_pop less n d first) /\
  asorted key (sort.heapSort_pop less n d first) first (first + hi).
Proof.
  revert d; induction n as [|i IH]; intros d Hn Hlen Hheap Hs Hcross;
    cbn [sort.heapSort_pop].
  - split; [apply Touch_refl|]. now rewrite Nat.add_0_r in Hs.
  - set (d1 := sort.Swap d first (first + i)).
    assert (Hlen1 : length d1 = length d) by apply Swap_length.
    pose proof (heap_root_max d first (S i) Hheap) as Hmax.
    rewrite Nat.add_0_r in Hmax.
    destruct (siftDown_spec d1 0 i first) as [T2 H2]; try lia.
    { intros k c Hk Hc Hch. pose proof (Hheap k c ltac:(lia) Hc ltac:(lia)).
      unfold d1. kfin. }
    set (d2 := sort.siftDown less d1 0 i first) in *.
    pose proof (Touch_length _ _ _ _ T2) as Hlen2.
    (* the elements left in the heap are not above the one taken out *)
    assert (Hle1 : forall k, (first <= k < first + i)%nat ->
                   Kk d1 k <= Kk d1 (first + i)).
    { intros k Hk. pose proof (Hmax (k - first)%nat ltac:(lia)) as Hm.
      replace (first + (k - first))%nat with k in Hm by lia.
      pose proof (Hmax i ltac:(lia)). unfold d1. kfin. }
    assert (Hle2 : forall k, (first <= k < first + i)%nat ->
                   Kk d2 k <= Kk d1 (first + i)).
    { apply (Touch_forall (fun z => z <= Kk d1 (first + i)) first (first + i) d1 d2 T2 Hle1). }
    destruct (IH d2) as [T3 S3]; try lia.
    + exact H2.
    + intros p Hp1 Hp2.
      rewrite !(Touch_outside first (first + i) d1 d2) by (auto; lia).
      destruct (Nat.eq_dec p (first + i)) as [->|Hne].
      * specialize (Hcross ltac:(lia) 0%nat ltac:(lia)).
        rewrite Nat.add_0_r in Hcross. unfold d1. kfin.
      * pose proof (Hs p ltac:(lia) ltac:(lia)). unfold d1. kfin.
    + intros _ k Hk.
      rewrite (Touch_outside first (first + i) d1 d2 (first + i)) by (auto; lia).
      apply Hle2. lia.
    + split; [|exact S3].
      eapply Touch_trans;
        [apply (Touch_one first (first + hi) d first (first + i)); lia|].
      eapply Touch_trans; [|exact T3].
      eapply Touch_mono; [| |exact T2]; lia.
Qed.

(** [heapSortLessFunc] sorts [data[a:b]]. *)
Lemma heapSort_spec (d : list A) (a b : nat) :
  (a <= b)%nat -> (b <= length d)%nat ->
  Touch a b d (sort.heapSort less d a b) /\
  asorted key (sort.heapSort less d a b) a b.
Proof.
  intros Hab Hb. unfold sort.heapSort.
  set (hi := (b - a)%nat).
  destruct (heapSort_build_spec (S ((hi - 1) / 2)) d hi a) as [T1 H1]; try lia.
  { intros i c Hi Hc Hch.
    pose proof (Nat.div_mod_eq (hi - 1) 2).
    pose proof (Nat.mod_upper_bound (hi - 1) 2 ltac:(lia)). lia. }
  set (d1 := sort.heapSort_build less (S ((hi - 1) / 2)) d hi a) in *.
  destruct (heapSort_pop_spec hi d1 a hi) as [T2 S2]; try lia.
  - rewrite (Touch_length _ _ _ _ T1). lia.
  - exact H1.
  - intros p Hp1 Hp2. lia.
  - replace (a + hi)%nat with b in * by lia.
    split; [eapply Touch_trans; eauto | exact S2].
Qed.
(** ** The sort itself *)

Lemma asorted_Touch (lo hi : nat) (d d' : list A) (a b : nat) :
  Touch lo hi d d' -> (b <= lo \/ hi <= a)%nat ->
  asorted key d a b -> asorted key d' a b.
Proof.
  intros T H S i Hi1 Hi2.
  rewrite !(Touch_outside lo hi d d') by (auto; lia). apply S; lia.
Qed.

(** Two sorted slices around an element that separates them. *)
Lemma join_sorted (d : list A) (a mid b : nat) :
  (a <= mid < b)%nat ->
  asorted key d a mid -> asorted key d (S mid) b ->
  (forall k, (a <= k < mid)%nat -> Kk d k <= Kk d mid) ->
  (forall k, (mid < k < b)%nat -> Kk d mid <= Kk d k) ->
  asorted key d a b.
Proof.
  intros Hm S1 S2 L R i Hi1 Hi2.
  destruct (Nat.lt_ge_cases (S i) mid) as [H|H]; [apply S1; lia|].
  destruct (Nat.eq_dec (S i) mid) as [E|E]; [rewrite E; apply L; lia|].
  destruct (Nat.eq_dec i mid) as [->|E']; [apply R; lia|].
  apply S2; lia.
Qed.

(** [pdqsortLessFunc] sorts [data[a:b]], given that the element before the
    slice, if there is one, is not above any element of it; every iteration
    of its loop and every recursive call is on a shorter slice, so that
    [b - a + 1] units of fuel are enough. *)
Lemma pdqsort_spec (fuel : nat) :
  forall (d : list A) (a b limit : nat) (wb wp : bool),
  (b <= length d)%nat -> (b - a < fuel)%nat -> lowerBound key d a b ->
  Touch a b d (sort.pdqsort less xorshiftNext fuel d a b limit wb wp) /\
  asorted key (sort.pdqsort less xorshiftNext fuel d a b limit wb wp) a b.
Proof.
  induction fuel as [|fuel IH]; intros d a b limit wb wp Hb Hf LB; [lia|].
  cbn [sort.pdqsort]. cbv zeta.
  destruct (b - a <=? sort.maxInsertion)%nat eqn:Hins;
    [apply insertionSort_spec; exact Hb|].
  apply Nat.leb_gt in Hins. unfold sort.maxInsertion in Hins.
  destruct (limit =? 0)%nat; [apply heapSort_spec; lia|].
  (* breakPatterns *)
  assert (H1 : exists d1 limit1,
            (if negb wb then (sort.breakPatterns xorshiftNext d a b, (limit - 1)%nat)
             else (d, limit)) = (d1, limit1) /\ Touch a b d d1).
  { destruct wb; cbn [negb]; eexists; eexists; (split; [reflexivity|]);
      [apply Touch_refl | apply breakPatterns_Touch; exact Hb]. }
  destruct H1 as (d1 & limit1 & -> & T1).
  pose proof (Touch_length _ _ _ _ T1) as L1.
  (* choosePivot *)
  pose proof (choosePivot_in d1 a b ltac:(lia)) as Hp0.
  destruct (sort.choosePivot less d1 a b) as [pivot0 hint0]. cbn [fst] in Hp0.
  assert (H2 : exists d2 pivot hint,
            match hint0 with
            | sort.decreasingHint =>
              (sort.reverseRange d1 a b, ((b - 1) - (pivot0 - a))%nat, sort.increasingHint)
            | _ => (d1, pivot0, hint0)
            end = (d2, pivot, hint) /\ Touch a b d1 d2 /\ (a <= pivot < b)%nat).
  { destruct hint0; do 3 eexists; (split; [reflexivity|]); split;
      try apply Touch_refl; try lia.
    apply reverseRange_Touch; lia. }
  destruct H2 as (d2 & pivot & hint & -> & T2 & Hp).
  pose proof (Touch_length _ _ _ _ T2) as L2.
  assert (LB2 : lowerBound key d2 a b).
  { apply (lowerBound_Touch a b d1 d2 T2). apply (lowerBound_Touch a b d d1 T1). exact LB. }
  (* partialInsertionSort *)
  assert (H3 : exists d3 sorted,
            (if wb && wp && match hint with sort.increasingHint => true | _ => false end
             then sort.partialInsertionSort less d2 a b else (d2, false)) = (d3, sorted) /\
            Touch a b d2 d3 /\ (sorted = true -> asorted key d3 a b)).
  { destruct (wb && wp && _).
    - pose proof (partialInsertionSort_spec d2 a b ltac:(lia) ltac:(lia) LB2) as H.
      cbv zeta in H.
      destruct (sort.partialInsertionSort less d2 a b) as [d3 s]. cbn [fst snd] in H.
      exists d3, s. split; [reflexivity|exact H].
    - exists d2, false. split; [reflexivity|]. split; [apply Touch_refl|discriminate]. }
  destruct H3 as (d3 & sorted & -> & T3 & S3).
  cbv beta iota.
  assert (T03 : Touch a b d d3).
  { eapply Touch_trans; [exact T1|]. eapply Touch_trans; eauto. }
  destruct sorted; [split; [exact T03 | apply S3; reflexivity]|]. clear S3.
  pose proof (Touch_length _ _ _ _ T03) as L3.
  assert (LB3 : lowerBound key d3 a b) by (apply (lowerBound_Touch a b d d3 T03); exact LB).
  destruct ((0 <? a)%nat && negb (Less d3 (a - 1) pivot)) eqn:Heq.
  - (* many equal elements *)
    apply andb_true_iff in Heq. destruct Heq as [Ha Hnl]. apply Nat.ltb_lt in Ha.
    rewrite Less_K in Hnl by lia. apply negb_true_iff in Hnl. apply Z.ltb_ge in Hnl.
    assert (Hmin : forall k, (a <= k < b)%nat -> Kk d3 pivot <= Kk d3 k).
    { intros k Hk. pose proof (LB3 Ha k Hk). lia. }
    pose proof (partitionEqual_spec d3 a b pivot Hp ltac:(lia) Hmin) as H. cbv zeta in H.
    destruct (sort.partitionEqual less d3 a b pivot) as [d4 mid]. cbn [fst snd] in H.
    destruct H as (T4 & Hmid & Leq & Rgt).
    pose proof (Touch_length _ _ _ _ T4) as L4.
    destruct (IH d4 mid b limit1 wb wp) as [T5 S5]; try lia.
    { intros _ k Hk. rewrite Leq by lia. pose proof (Rgt k ltac:(lia)). lia. }
    set (d5 := sort.pdqsort less xorshiftNext fuel d4 mid b limit1 wb wp) in *.
    split.
    + eapply Touch_trans; [exact T03|]. eapply Touch_trans; [exact T4|].
      eapply Touch_mono; [| |exact T5]; lia.
    + intros i Hi1 Hi2.
      destruct (Nat.lt_ge_cases i mid) as [H|H]; [|apply S5; lia].
      rewrite (Touch_outside mid b d4 d5 i T5) by lia. rewrite Leq by lia.
      destruct (Nat.eq_dec (S i) mid) as [E|E].
      * pose proof (Touch_forall (fun z => Kk d3 pivot < z) mid b d4 d5 T5 Rgt
                      (S i) ltac:(lia)) as Hz.
        cbv beta in Hz. lia.
      * rewrite (Touch_outside mid b d4 d5 (S i) T5) by lia. rewrite Leq by lia. lia.
  - clear Heq.
    pose proof (partition_spec d3 a b pivot Hp ltac:(lia)) as H. cbv zeta in H.
    destruct (sort.partition less d3 a b pivot) as [[d4 mid] ap]. cbn [fst snd] in H.
    destruct H as (T4 & Hmid & Llt & Rge).
    pose proof (Touch_length _ _ _ _ T4) as L4.
    assert (T04 : Touch a b d d4) by (eapply Touch_trans; eauto).
    assert (LB4 : lowerBound key d4 a b) by (apply (lowerBound_Touch a b d d4 T04); exact LB).
    destruct (mid - a <? b - mid)%nat.
    + (* the left side first *)
      destruct (IH d4 a mid limit1 true true) as [T5 S5]; try lia.
      { apply (lowerBound_left a b mid); [lia|exact LB4]. }
      set (d5 := sort.pdqsort less xorshiftNext fuel d4 a mid limit1 true true) in *.
      pose proof (Touch_length _ _ _ _ T5) as L5.
      assert (M5 : Kk d5 mid = Kk d4 mid) by (apply (Touch_outside a mid d4 d5 mid T5); lia).
      assert (R5 : forall k, (mid < k < b)%nat -> Kk d5 mid <= Kk d5 k).
      { intros k Hk. rewrite M5, (Touch_outside a mid d4 d5 k T5) by lia. apply Rge; lia. }
      assert (L5' : forall k, (a <= k < mid)%nat -> Kk d5 k <= Kk d5 mid).
      { intros k Hk. rewrite M5.
        pose proof (Touch_forall (fun z => z < Kk d4 mid) a mid d4 d5 T5 Llt k Hk) as Hz.
        cbv beta in Hz. lia. }
      destruct (IH d5 (mid + 1)%nat b limit1 ((b - a) / 8 <=? mid - a)%nat ap)
        as [T6 S6]; try lia.
      { intros _ k Hk. replace (mid + 1 - 1)%nat with mid by lia. apply R5; lia. }
      set (d6 := sort.pdqsort less xorshiftNext fuel d5 (mid + 1) b limit1 _ ap) in *.
      split.
      * eapply Touch_trans; [exact T04|].
        eapply Touch_trans; [eapply Touch_mono; [| |exact T5]; lia|].
        eapply Touch_mono; [| |exact T6]; lia.
      * apply (join_sorted d6 a mid b Hmid).
        -- apply (asorted_Touch (mid + 1) b d5 d6); [exact T6|lia|exact S5].
        -- replace (S mid) with (mid + 1)%nat by lia. exact S6.
        -- intros k Hk. rewrite !(Touch_outside (mid + 1) b d5 d6) by (auto; lia).
           apply L5'; exact Hk.
        -- intros k Hk. rewrite (Touch_outside (mid + 1) b d5 d6 mid T6) by lia.
           assert (R5' : forall k, (mid + 1 <= k < b)%nat -> Kk d5 mid <= Kk d5 k)
             by (intros; apply R5; lia).
           pose proof (Touch_forall (fun z => Kk d5 mid <= z) (mid + 1) b d5 d6 T6 R5'
                         k ltac:(lia)) as Hz.
           cbv beta in Hz. exact Hz.
    + (* the right side first *)
      destruct (IH d4 (mid + 1)%nat b limit1 true true) as [T5 S5]; try lia.
      { intros _ k Hk. replace (mid + 1 - 1)%nat with mid by lia. apply Rge; lia. }
      set (d5 := sort.pdqsort less xorshiftNext fuel d4 (mid + 1) b limit1 true true) in *.
      pose proof (Touch_length _ _ _ _ T5) as L5.
      assert (M5 : Kk d5 mid = Kk d4 mid)
        by (apply (Touch_outside (mid + 1) b d4 d5 mid T5); lia).
      assert (L5' : forall k, (a <= k < mid)%nat -> Kk d5 k <= Kk d5 mid).
      { intros k Hk. rewrite M5, (Touch_outside (mid + 1) b d4 d5 k T5) by lia.
        pose proof (Llt k Hk). lia. }
      assert (R5 : forall k, (mid < k < b)%nat -> Kk d5 mid <= Kk d5 k).
      { intros k Hk. rewrite M5.
        assert (Rge' : forall k, (mid + 1 <= k < b)%nat -> Kk d4 mid <= Kk d4 k)
          by (intros; apply Rge; lia).
        pose proof (Touch_forall (fun z => Kk d4 mid <= z) (mid + 1) b d4 d5 T5 Rge'
                      k ltac:(lia)) as Hz.
        cbv beta in Hz. exact Hz. }
      assert (T05 : Touch a b d d5).
      { eapply Touch_trans; [exact T04|]. eapply Touch_mono; [| |exact T5]; lia. }
      assert (LB5 : lowerBound key d5 a b)
        by (apply (lowerBound_Touch a b d d5 T05); exact LB).
      destruct (IH d5 a mid limit1 ((b - a) / 8 <=? b - mid)%nat ap) as [T6 S6]; try lia.
      { apply (lowerBound_left a b mid); [lia|exact LB5]. }
      set (d6 := sort.pdqsort less xorshiftNext fuel d5 a mid limit1 _ ap) in *.
      split.
      * eapply Touch_trans; [exact T05|]. eapply Touch_mono; [| |exact T6]; lia.
      * apply (join_sorted d6 a mid b Hmid).
        -- exact S6.
        -- apply (asorted_Touch a mid d5 d6); [exact T6|lia|].
           replace (S mid) with (mid + 1)%nat by lia. exact S5.
        -- intros k Hk. rewrite (Touch_outside a mid d5 d6 mid T6) by lia.
           pose proof (Touch_forall (fun z => z <= Kk d5 mid) a mid d5 d6 T6 L5' k Hk) as Hz.
           cbv beta in Hz. exact Hz.
        -- intros k Hk. rewrite !(Touch_outside a mid d5 d6) by (auto; lia).
           apply R5; exact Hk.
Qed.

(** [sort.Slice] sorts: its result is the argument with elements exchanged,
    and is in order from each element to the next. *)
Lemma Slice_spec (d : list A) :
  Touch 0 (length d) d (sort.Slice less xorshiftNext d) /\
  asorted key (sort.Slice less xorshiftNext d) 0 (length d).
Proof.
  unfold sort.Slice. cbv zeta. apply pdqsort_spec; [lia|lia|].
  intros H. lia.
Qed.

(** ** From indices to lists *)

Lemma sortedK_StronglySorted (l : list A) :
  sortedK key l 0 (length l) -> StronglySorted (fun x y => key x <= key y) l.
Proof.
  induction l as [|x l IH]; intros Hs; constructor.
  - apply IH. intros i j Hi Hij Hj.
    apply (Hs (S i) (S j)); cbn [length]; lia.
  - apply Forall_forall. intros y Hy.
    destruct (In_nth_error l y Hy) as [n Hn].
    assert (n < length l)%nat by (apply nth_error_Some; congruence).
    pose proof (Hs 0%nat (S n) ltac:(lia) ltac:(lia) ltac:(cbn [length]; lia)) as H0.
    unfold K in H0. cbn [nth_error] in H0. now rewrite Hn in H0.
Qed.

(** [sort.Slice] returns the slice in ascending order of the key. *)
Lemma Slice_sorted (d : list A) :
  StronglySorted (fun x y => key x <= key y) (sort.Slice less xorshiftNext d).
Proof.
  destruct (Slice_spec d) as [T S].
  apply sortedK_StronglySorted, sortedK_asorted.
  now rewrite (Touch_length _ _ _ _ T).
Qed.

End Sorts.

End sort_facts.

(* ===================================================================== *)
(** * Facts: elements of equal key under sorting *)
(* ===================================================================== *)

Module stable_facts.

Import sort_perm sort_facts.

Section Stable.

Context {A : Type}.
Variable key : A -> Z.
Variable less : A -> A -> bool.
Hypothesis less_key : forall x y, less x y = (key x <? key y).
Variable xorshiftNext : Z -> Z.

Local Abbreviation ascending := (StronglySorted (fun x y : A => key x <= key y)).

Lemma withKey_cons (k : Z) (x : A) (l : list A) :
  withKey key k (x :: l) = if key x =? k then x :: withKey key k l else withKey key k l.
Proof. reflexivity. Qed.

Lemma withKey_In (k : Z) (x : A) (l : list A) :
  In x (withKey key k l) <-> In x l /\ key x = k.
Proof.
  unfold withKey. rewrite filter_In. now rewrite Z.eqb_eq.
Qed.

(** Two ascending lists that hold, for every key, the same elements in the
    same order are the same list. *)
Lemma ascending_unique (l1 : list A) :
  forall l2, ascending l1 -> ascending l2 ->
  (forall k, withKey key k l1 = withKey key k l2) -> l1 = l2.
Proof.
  induction l1 as [|x l1 IH]; intros l2 S1 S2 H.
  - destruct l2 as [|y l2]; [reflexivity|].
    specialize (H (key y)). rewrite withKey_cons, Z.eqb_refl in H. discriminate.
  - destruct l2 as [|y l2].
    { specialize (H (key x)). rewrite withKey_cons, Z.eqb_refl in H. discriminate. }
    inversion S1 as [|? ? S1' F1]; subst. inversion S2 as [|? ? S2' F2]; subst.
    rewrite Forall_forall in F1, F2.
    assert (Hxy : key x = key y).
    { assert (Hy : key y <= key x).
      { assert (Hin : In x (withKey key (key x) (y :: l2))).
        { rewrite <- H, withKey_cons, Z.eqb_refl. now left. }
        apply withKey_In in Hin. destruct Hin as [[->|Hin] _]; [lia|].
        now apply F2. }
      assert (Hx : key x <= key y).
      { assert (Hin : In y (withKey key (key y) (x :: l1))).
        { rewrite H, withKey_cons, Z.eqb_refl. now left. }
        apply withKey_In in Hin. destruct Hin as [[->|Hin] _]; [lia|].
        now apply F1. }
      lia. }
    pose proof (H (key x)) as Hk.
    rewrite !withKey_cons, <- Hxy, Z.eqb_refl in Hk. injection Hk as -> Hk.
    f_equal. apply IH; auto.
    intros k. specialize (H k). rewrite !withKey_cons in H.
    destruct (key y =? k); [now injection H | exact H].
Qed.

(** With keys all different, the elements of one key are at most one, and a
    permutation keeps them. *)
Lemma withKey_NoDup_length (k : Z) (l : list A) :
  NoDup (map key l) -> (length (withKey key k l) <= 1)%nat.
Proof.
  induction l as [|x l IH]; intros Hnd; [cbn; lia|].
  cbn [map] in Hnd. inversion Hnd as [|? ? Hx Hnd']; subst.
  rewrite withKey_cons. destruct (Z.eqb_spec (key x) k) as [E|E]; [|auto].
  assert (Hnil : withKey key k l = []).
  { destruct (withKey key k l) as [|z t] eqn:Hz; [reflexivity|]. exfalso.
    assert (Hin : In z (withKey key k l)) by (rewrite Hz; now left).
    apply withKey_In in Hin. destruct Hin as [Hin Hk].
    apply Hx. rewrite E, <- Hk. now apply in_map. }
  rewrite Hnil. cbn. lia.
Qed.

Lemma withKey_Permutation (k : Z) (l l' : list A) :
  Permutation l l' -> Permutation (withKey key k l) (withKey key k l').
Proof.
  intros P. induction P as [|x l l' P IH|x y l|l l' l'' P1 IH1 P2 IH2].
  - constructor.
  - rewrite !withKey_cons. destruct (key x =? k); [now constructor | exact IH].
  - rewrite !withKey_cons. destruct (key x =? k), (key y =? k);
      try apply Permutation_refl. apply perm_swap.
  - now transitivity (withKey key k l').
Qed.

Lemma withKey_distinct (k : Z) (l l' : list A) :
  NoDup (map key l) -> Permutation l' l -> withKey key k l' = withKey key k l.
Proof.
  intros Hnd P.
  pose proof (withKey_NoDup_length k l Hnd) as Hlen.
  pose proof (withKey_Permutation k l' l P) as Pk.
  destruct (withKey key k l) as [|x [|y t]]; cbn [length] in Hlen; [| |lia].
  - now apply Permutation_nil, Permutation_sym.
  - now apply Permutation_length_1_inv, Permutation_sym.
Qed.

(** ** Insertion sort keeps the order of equal keys *)

Lemma Swap_cons (h : A) (t : list A) (i j : nat) :
  sort.Swap (h :: t) (S i) (S j) = h :: sort.Swap t i j.
Proof.
  unfold sort.Swap. cbn [nth_error].
  destruct (nth_error t i); [|reflexivity]. now destruct (nth_error t j).
Qed.

(** Exchanging two neighbours of different keys. *)
Lemma withKey_Swap_adjacent (k : Z) (i : nat) :
  forall d : list A, (S i < length d)%nat -> K key d (S i) <> K key d i ->
  withKey key k (sort.Swap d (S i) i) = withKey key k d.
Proof.
  induction i as [|i IH]; intros d Hlen Hne.
  - destruct d as [|a [|b t]]; cbn [length] in Hlen; try lia.
    unfold K in Hne. cbn [nth_error] in Hne. unfold sort.Swap.
    cbn [nth_error sort.update].
    rewrite !withKey_cons.
    destruct (Z.eqb_spec (key a) k), (Z.eqb_spec (key b) k); try reflexivity. congruence.
  - destruct d as [|h t]; cbn [length] in Hlen; [lia|].
    rewrite Swap_cons, !withKey_cons. rewrite IH; [reflexivity|lia|exact Hne].
Qed.

Lemma Less_true (d : list A) (i j : nat) :
  sort.Less less d i j = true ->
  (i < length d)%nat /\ (j < length d)%nat /\ K key d i < K key d j.
Proof.
  unfold sort.Less, K. intros H.
  destruct (nth_error d i) as [x|] eqn:Hx; [|discriminate].
  destruct (nth_error d j) as [y|] eqn:Hy; [|discriminate].
  rewrite less_key in H. apply Z.ltb_lt in H.
  split; [apply nth_error_Some; congruence|].
  split; [apply nth_error_Some; congruence | exact H].
Qed.

Lemma withKey_insertionSort_inner (k : Z) (a j : nat) :
  forall d : list A,
  withKey key k (sort.insertionSort_inner less d a j) = withKey key k d.
Proof.
  induction j as [|j IH]; intros d; cbn [sort.insertionSort_inner]; [reflexivity|].
  destruct ((a <? S j)%nat && sort.Less less d (S j) j) eqn:E; [|reflexivity].
  apply andb_true_iff in E. destruct E as [_ E].
  apply Less_true in E. destruct E as (H1 & H2 & H3).
  rewrite IH. apply withKey_Swap_adjacent; lia.
Qed.

Lemma withKey_insertionSort_outer (k : Z) (n : nat) :
  forall (d : list A) (a i b : nat),
  withKey key k (sort.insertionSort_outer less n d a i b) = withKey key k d.
Proof.
  induction n as [|n IH]; intros d a i b; cbn [sort.insertionSort_outer]; [reflexivity|].
  destruct (i <? b)%nat; [|reflexivity].
  now rewrite IH, withKey_insertionSort_inner.
Qed.

(** A slice of at most twelve elements is sorted by insertion alone. *)
Lemma Slice_short (d : list A) :
  (length d <= sort.maxInsertion)%nat ->
  sort.Slice less xorshiftNext d = sort.insertionSort less d 0 (length d).
Proof.
  intros H. unfold sort.Slice. cbv zeta. cbn [sort.pdqsort]. cbv zeta.
  rewrite Nat.sub_0_r. apply Nat.leb_le in H. now rewrite H.
Qed.

Lemma withKey_Slice_short (k : Z) (d : list A) :
  (length d <= sort.maxInsertion)%nat ->
  withKey key k (sort.Slice less xorshiftNext d) = withKey key k d.
Proof.
  intros H. rewrite Slice_short by exact H.
  apply withKey_insertionSort_outer.
Qed.

End Stable.

End stable_facts.

(* ===================================================================== *)
(** * Facts: newest first *)
(* ===================================================================== *)

Module newest_facts.

Import sort_perm sort_facts stable_facts.

Lemma newestFirst_key (x y : FeedItem.t) :
  newestFirst x y = (newestKey x <? newestKey y).
Proof.
  unfold newestFirst, time.After, newestKey.
  destruct (Z.ltb_spec (FeedItem.Published y) (FeedItem.Published x));
    destruct (Z.ltb_spec (- FeedItem.Published x) (- FeedItem.Published y)); auto; lia.
Qed.

Lemma ascending_newestFirstOrder (l : list FeedItem.t) :
  StronglySorted (fun x y => newestKey x <= newestKey y) l <-> newestFirstOrder l.
Proof.
  unfold newestFirstOrder, newestKey.
  split; intros H; induction H as [|x l _ IH F]; constructor; auto;
    (eapply Forall_impl; [|exact F]); cbv beta; intros; lia.
Qed.

Lemma publishedAt_withKey (t : time.Time) (l : list FeedItem.t) :
  publishedAt t l = withKey newestKey (- t) l.
Proof.
  unfold publishedAt, withKey, newestKey. apply filter_ext. intros fi.
  destruct (Z.eqb_spec (FeedItem.Published fi) t);
    destruct (Z.eqb_spec (- FeedItem.Published fi) (- t)); auto; lia.
Qed.

Lemma withKey_publishedAt (k : Z) (l : list FeedItem.t) :
  withKey newestKey k l = publishedAt (- k) l.
Proof. rewrite publishedAt_withKey. now rewrite Z.opp_involutive. Qed.

(** [sort.Slice] with [newestFirst] puts the newest first. *)
Lemma Slice_newestFirstOrder (next : Z -> Z) (l : list FeedItem.t) :
  newestFirstOrder (sort.Slice newestFirst next l).
Proof.
  apply ascending_newestFirstOrder.
  apply (Slice_sorted newestKey newestFirst newestFirst_key).
Qed.

(** ** The insertion that keeps the order of equal instants *)

Lemma insertNewestFirst_In (x z : FeedItem.t) (l : list FeedItem.t) :
  In z (insertNewestFirst x l) <-> z = x \/ In z l.
Proof.
  induction l as [|y l IH]; cbn [insertNewestFirst].
  - cbn. intuition.
  - destruct (time.After _ _); cbn [In]; [rewrite IH|]; intuition.
Qed.

Lemma insertNewestFirst_sorted (x : FeedItem.t) (l : list FeedItem.t) :
  newestFirstOrder l -> newestFirstOrder (insertNewestFirst x l).
Proof.
  unfold newestFirstOrder. intros H.
  induction H as [|y l S IH F]; cbn [insertNewestFirst].
  - constructor; constructor.
  - unfold time.After.
    destruct (Z.ltb_spec (FeedItem.Published x) (FeedItem.Published y)) as [Hlt|Hge].
    + constructor; [exact IH|]. apply Forall_forall. intros z Hz.
      apply insertNewestFirst_In in Hz. destruct Hz as [->|Hz]; [lia|].
      rewrite Forall_forall in F. now apply F.
    + constructor; [now constructor|]. constructor; [exact Hge|].
      eapply Forall_impl; [|exact F]. cbv beta. intros; lia.
Qed.

Lemma insertNewestFirst_publishedAt (t : time.Time) (x : FeedItem.t) (l : list FeedItem.t) :
  publishedAt t (insertNewestFirst x l) = publishedAt t (x :: l).
Proof.
  unfold publishedAt.
  induction l as [|y l IH]; cbn [insertNewestFirst]; [reflexivity|].
  unfold time.After.
  destruct (Z.ltb_spec (FeedItem.Published x) (FeedItem.Published y)) as [Hlt|Hge];
    [|reflexivity].
  cbn [filter] in *. rewrite IH.
  destruct (Z.eqb_spec (FeedItem.Published y) t), (Z.eqb_spec (FeedItem.Published x) t);
    try reflexivity. lia.
Qed.

Lemma stableNewestFirst_sorted (l : list FeedItem.t) :
  newestFirstOrder (stableNewestFirst l).
Proof.
  unfold stableNewestFirst. induction l as [|x l IH]; cbn [fold_right].
  - constructor.
  - now apply insertNewestFirst_sorted.
Qed.

Lemma stableNewestFirst_publishedAt (t : time.Time) (l : list FeedItem.t) :
  publishedAt t (stableNewestFirst l) = publishedAt t l.
Proof.
  unfold stableNewestFirst. induction l as [|x l IH]; cbn [fold_right]; [reflexivity|].
  rewrite insertNewestFirst_publishedAt. unfold publishedAt in *. cbn [filter].
  now rewrite IH.
Qed.

(** A list that is newest first and keeps, for every instant, the items of
    [l] in their order is the stable sort of [l]. *)
Lemma stableNewestFirst_unique (l l' : list FeedItem.t) :
  newestFirstOrder l' ->
  (forall t, publishedAt t l' = publishedAt t l) ->
  l' = stableNewestFirst l.
Proof.
  intros S H. apply (ascending_unique newestKey).
  - now apply ascending_newestFirstOrder.
  - apply ascending_newestFirstOrder, stableNewestFirst_sorted.
  - intros k. rewrite !withKey_publishedAt, stableNewestFirst_publishedAt. apply H.
Qed.

Lemma NoDup_newestKey (l : list FeedItem.t) :
  NoDup (map FeedItem.Published l) -> NoDup (map newestKey l).
Proof.
  induction l as [|x l IH]; cbn [map]; intros H; inversion H as [|? ? Hx Hl]; subst;
    constructor; auto.
  intros Hin. apply Hx. apply in_map_iff in Hin. destruct Hin as (y & Hy & Hin).
  apply in_map_iff. exists y. split; [unfold newestKey in Hy; lia | exact Hin].
Qed.

End newest_facts.

(* ===================================================================== *)
(** * Claim on the aggregator: the order of the merged list *)
(* ===================================================================== *)

(** C1 (as amended).  The aggregator's output is the list of the fetched
    items sorted by published timestamp in descending order (newest first):
    a permutation of the concatenated input in which no item is followed by
    a newer one.  Items with equal published timestamps keep their original
    relative order when at most twelve items were fetched; with more items
    their relative order is not guaranteed, [sort.Slice] not being a stable
    sort. *)
Theorem C1_newest_first {E : Env} (feedSources : list gostring) (w : World) :
  exists items,
    aggregateFeeds feedSources w
      = (Done (items, None), snd (fetchResults feedSources w)) /\
    Permutation items (successes (fst (fetchResults feedSources w))) /\
    newestFirstOrder items /\
    ((length (successes (fst (fetchResults feedSources w))) <= 12)%nat ->
     (forall t, publishedAt t items
                = publishedAt t (successes (fst (fetchResults feedSources w)))) /\
     items = stableNewestFirst (successes (fst (fetchResults feedSources w)))).
Proof.
  eexists. split; [apply aggregateFeeds_eq|]. split; [|split].
  - apply sort_perm.Slice_Permutation.
  - apply newest_facts.Slice_newestFirstOrder.
  - intros Hlen.
    assert (H : forall t,
               publishedAt t (sort.Slice newestFirst xorshiftNext
                                (successes (fst (fetchResults feedSources w))))
               = publishedAt t (successes (fst (fetchResults feedSources w)))).
    { intros t. rewrite !newest_facts.publishedAt_withKey.
      apply (stable_facts.withKey_Slice_short newestKey newestFirst
               newest_facts.newestFirst_key).
      exact Hlen. }
    split; [exact H|].
    apply newest_facts.stableNewestFirst_unique;
      [apply newest_facts.Slice_newestFirstOrder | exact H].
Qed.

Lemma C1_newest_first_witness :
  exists items,
    fst (@aggregateFeeds (demoEnv demoSite) [str "https://example.com/rss"] 100)
      = Done (items, None) /\
    titles items = ["First"; "Third"; "Second"]%string /\
    items = stableNewestFirst
              (successes (fst (@fetchResults (demoEnv demoSite)
                                 [str "https://example.com/rss"] 100))).
Proof.
  destruct (@C1_newest_first (demoEnv demoSite) [str "https://example.com/rss"] 100)
    as (items & H & _ & _ & Hs).
  exists items. split; [now rewrite H|].
  destruct (Hs ltac:(vm_compute; lia)) as [_ Heq].
  split; [rewrite Heq; vm_compute; reflexivity | exact Heq].
Defined.

(** The claim as stated fails on a feed of thirteen items, twelve of them
    published at the same instant: the merged list is not the stable sort
    of the fetched items, and the items "0" and "6", of equal timestamps
    and fetched in this order, come out in the other order. *)
Lemma C1_counterexample :
  exists items w' x y,
    @aggregateFeeds (demoEnv tieSite) [str "https://example.com/ties"] 0
      = (Done (items, None), w') /\
    titles (successes (fst (@fetchResults (demoEnv tieSite)
                              [str "https://example.com/ties"] 0)))
      = ["0"; "1"; "2"; "3"; "4"; "5"; "6"; "7"; "8"; "9"; "10"; "11"; "12"]%string /\
    titles (stableNewestFirst
              (successes (fst (@fetchResults (demoEnv tieSite)
                                 [str "https://example.com/ties"] 0))))
      = ["12"; "0"; "1"; "2"; "3"; "4"; "5"; "6"; "7"; "8"; "9"; "10"; "11"]%string /\
    titles items
      = ["12"; "6"; "2"; "3"; "4"; "5"; "0"; "7"; "8"; "9"; "10"; "11"; "1"]%string /\
    items <> stableNewestFirst
               (successes (fst (@fetchResults (demoEnv tieSite)
                                  [str "https://example.com/ties"] 0))) /\
    FeedItem.Published x = FeedItem.Published y /\
    nth_error (successes (fst (@fetchResults (demoEnv tieSite)
                                 [str "https://example.com/ties"] 0))) 0 = Some x /\
    nth_error (successes (fst (@fetchResults (demoEnv tieSite)
                                 [str "https://example.com/ties"] 0))) 6 = Some y /\
    nth_error items 6 = Some x /\ nth_error items 1 = Some y.
Proof.
  eexists. eexists. eexists. eexists.
  split; [vm_compute; reflexivity|].
  split; [vm_compute; reflexivity|].
  split; [vm_compute; reflexivity|].
  split; [vm_compute; reflexivity|].
  split; [vm_compute; discriminate|].
  split; [|split; [vm_compute; reflexivity|]].
  2: split; [vm_compute; reflexivity|].
  2: split; vm_compute; reflexivity.
  reflexivity.
Qed.

(* ===================================================================== *)
(** * The aggregator: order of the merged list *)
(* ===================================================================== *)

Import newest_facts.

(** X1.  The merged list is newest first.  For every registry and every
    outcome of the fetches, [aggregateFeeds] returns, with a nil error, the
    items of the successful fetches (a permutation of their concatenation)
    in descending order of [Published]: no item is followed by a newer
    one. *)
Theorem aggregateFeeds_newest_first {E : Env} (feedSources : list gostring) (w : World) :
  exists items,
    aggregateFeeds feedSources w
      = (Done (items, None), snd (fetchResults feedSources w)) /\
    Permutation items (successes (fst (fetchResults feedSources w))) /\
    newestFirstOrder items.
Proof.
  eexists. split; [apply aggregateFeeds_eq|]. split.
  - apply sort_perm.Slice_Permutation.
  - apply Slice_newestFirstOrder.
Qed.

(** X2.  The first item of the merged list is a newest one: it was fetched,
    and no fetched item has a later [Published]. *)
Theorem aggregateFeeds_first_is_newest {E : Env} (feedSources : list gostring)
    (w w' : World) (x : FeedItem.t) (rest : list FeedItem.t) :
  aggregateFeeds feedSources w = (Done (x :: rest, None), w') ->
  In x (successes (fst (fetchResults feedSources w))) /\
  forall fi, In fi (successes (fst (fetchResults feedSources w))) ->
    FeedItem.Published fi <= FeedItem.Published x.
Proof.
  rewrite aggregateFeeds_eq. intros H. injection H as H _.
  pose proof (sort_perm.Slice_Permutation newestFirst xorshiftNext
                (successes (fst (fetchResults feedSources w)))) as P.
  pose proof (Slice_newestFirstOrder xorshiftNext
                (successes (fst (fetchResults feedSources w)))) as S.
  rewrite H in P, S. split.
  - apply (Permutation_in x P). now left.
  - intros fi Hfi. apply (Permutation_in fi (Permutation_sym P)) in Hfi.
    inversion S as [|? ? _ F]; subst. destruct Hfi as [<-|Hfi]; [lia|].
    rewrite Forall_forall in F. now apply F.
Qed.

Lemma aggregateFeeds_first_is_newest_witness :
  In (FeedItem.mk (str "First") (str "https://example.com/foo") (str "one")
                  1704067200000000000 (str "Example"))
     (successes (fst (@fetchResults (demoEnv demoSite)
                        [str "https://example.com/rss"] 100))).
Proof.
  apply (@aggregateFeeds_first_is_newest (demoEnv demoSite)
           [str "https://example.com/rss"] 100 102
           (FeedItem.mk (str "First") (str "https://example.com/foo") (str "one")
                        1704067200000000000 (str "Example"))
           [FeedItem.mk (str "Third") (str "https://example.com/%20%20bar%20%20") []
                        101 (str "Example");
            FeedItem.mk (str "Second") (str "https://other.org/a") (str "two")
                        100 (str "Example")]).
  vm_compute. reflexivity.
Defined.

(** X3.  Items published at the same instant can leave the aggregator in
    another order than they were fetched in: there are a feed and two of
    its items, of equal [Published], of which the first fetched comes
    second in the merged list. *)
Theorem aggregateFeeds_ties_reordered :
  exists (E : Env) (feedSources : list gostring) (w w' : World)
         (items : list FeedItem.t) (x y : FeedItem.t) (i j i' j' : nat),
    aggregateFeeds feedSources w = (Done (items, None), w') /\
    FeedItem.Published x = FeedItem.Published y /\
    nth_error (successes (fst (fetchResults feedSources w))) i = Some x /\
    nth_error (successes (fst (fetchResults feedSources w))) j = Some y /\
    (i < j)%nat /\
    nth_error items i' = Some x /\ nth_error items j' = Some y /\ (j' < i')%nat.
Proof.
  exists (demoEnv tieSite), [str "https://example.com/ties"], 0, 0.
  eexists. eexists. eexists. exists 0%nat, 6%nat, 6%nat, 1%nat.
  split; [vm_compute; reflexivity|].
  split; [|split; [vm_compute; reflexivity|]].
  2: split; [vm_compute; reflexivity|].
  2: split; [lia|]. 2: split; [vm_compute; reflexivity|].
  2: split; [vm_compute; reflexivity | lia].
  reflexivity.
Qed.

(** X4.  When the fetched items have pairwise different [Published]
    instants, the merged list is fully determined: it is the stable sort,
    newest first, of the concatenated fetch results. *)
Theorem aggregateFeeds_distinct_instants {E : Env} (feedSources : list gostring)
    (w : World) :
  NoDup (map FeedItem.Published (successes (fst (fetchResults feedSources w)))) ->
  aggregateFeeds feedSources w
    = (Done (stableNewestFirst (successes (fst (fetchResults feedSources w))), None),
       snd (fetchResults feedSources w)).
Proof.
  intros Hnd. rewrite aggregateFeeds_eq. do 3 f_equal.
  apply stableNewestFirst_unique; [apply Slice_newestFirstOrder|].
  intros t. rewrite !publishedAt_withKey.
  apply stable_facts.withKey_distinct; [now apply NoDup_newestKey|].
  apply sort_perm.Slice_Permutation.
Qed.

Lemma aggregateFeeds_distinct_instants_witness :
  titles (match fst (@aggregateFeeds (demoEnv demoSite)
                       [str "https://example.com/rss"] 100) with
          | Done (items, _) => items
          | Panic => []
          end)
  = ["First"; "Third"; "Second"]%string.
Proof.
  rewrite (@aggregateFeeds_distinct_instants (demoEnv demoSite)
             [str "https://example.com/rss"] 100).
  - vm_compute. reflexivity.
  - vm_compute. repeat constructor; cbn; intuition discriminate.
Defined.

(** X5.  Up to twelve fetched items, items published at the same instant
    keep the order they were fetched in: for every instant the merged list
    holds the items of that instant in their fetch order, and the merged
    list is the stable sort, newest first, of the concatenated fetch
    results. *)
Theorem aggregateFeeds_few_items_stable {E : Env} (feedSources : list gostring)
    (w : World) :
  (length (successes (fst (fetchResults feedSources w))) <= 12)%nat ->
  exists items,
    aggregateFeeds feedSources w
      = (Done (items, None), snd (fetchResults feedSources w)) /\
    (forall t, publishedAt t items
               = publishedAt t (successes (fst (fetchResults feedSources w)))) /\
    items = stableNewestFirst (successes (fst (fetchResults feedSources w))).
Proof.
  intros Hlen. eexists. split; [apply aggregateFeeds_eq|].
  assert (H : forall t,
             publishedAt t (sort.Slice newestFirst xorshiftNext
                              (successes (fst (fetchResults feedSources w))))
             = publishedAt t (successes (fst (fetchResults feedSources w)))).
  { intros t. rewrite !publishedAt_withKey.
    apply (stable_facts.withKey_Slice_short newestKey newestFirst newestFirst_key).
    exact Hlen. }
  split; [exact H|].
  apply stableNewestFirst_unique; [apply Slice_newestFirstOrder | exact H].
Qed.

Lemma aggregateFeeds_few_items_stable_witness :
  exists items,
    fst (@aggregateFeeds (demoEnv demoSite) [str "https://example.com/rss"] 100)
      = Done (items, None) /\
    titles items = ["First"; "Third"; "Second"]%string.
Proof.
  destruct (@aggregateFeeds_few_items_stable (demoEnv demoSite)
              [str "https://example.com/rss"] 100) as (items & H & _ & Hs).
  - vm_compute. lia.
  - exists items. split; [now rewrite H|]. rewrite Hs. vm_compute. reflexivity.
Defined.

(* ===================================================================== *)
(** * Facts: [strings.TrimSpace] on a trimmed string *)
(* ===================================================================== *)

Module trim_fixed.

Import utf8 trim_facts.

Local Abbreviation D := DecodeRuneInString.
Local Abbreviation DL := DecodeLastRuneInString.

(** The backward scan stops at once on a string that ends with a rune that
    is not white space. *)
Lemma lastIndexFunc_last (s : gostring) :
  s <> [] -> isSpace (fst (DL s)) = false ->
  strings.lastIndexFunc s isSpace false = Some (length s - snd (DL s))%nat.
Proof.
  intros Hne Hsp. unfold strings.lastIndexFunc.
  destruct s as [|c t]; [congruence|].
  remember (c :: t) as s eqn:Hs.
  replace (length s) with (S (length t)) at 1 by (subst s; reflexivity).
  cbn [strings.lastIndexFunc_from].
  replace (0 <? length s)%nat with true
    by (symmetry; apply Nat.ltb_lt; subst s; cbn [length]; lia).
  rewrite firstn_all. destruct (DL s) as [r size]. cbn [fst snd] in *.
  now rewrite Hsp.
Qed.

Lemma TrimRightFunc_fixed (s : gostring) :
  s <> [] -> isSpace (fst (DL s)) = false -> strings.TrimRightFunc s isSpace = s.
Proof.
  intros Hne Hsp. unfold strings.TrimRightFunc.
  rewrite lastIndexFunc_last by assumption.
  pose proof (DL_size s Hne) as Hsize.
  set (i := (length s - snd (DL s))%nat) in *.
  destruct (nth_error s i) as [c|] eqn:Hc; [|apply nth_error_None in Hc; lia].
  pose proof (skipn_nth_error_cons _ _ _ Hc) as Hskip.
  assert (Hlen : length (skipn i s) = snd (DL s)) by (rewrite length_skipn; lia).
  destruct (Nat.eq_dec (snd (DL s)) 1) as [H1|H1].
  - (* a last rune of one byte *)
    assert (Hw : forall wid, (1 <= wid)%nat -> firstn (i + wid) s = s)
      by (intros wid Hwid; apply firstn_all2; lia).
    destruct (RuneSelf <=? code c); [|apply Hw; lia].
    pose proof (D_size (skipn i s)) as Hd. rewrite Hskip in Hd at 1.
    specialize (Hd ltac:(discriminate)).
    destruct (D (skipn i s)) as [r wid]. cbn [snd] in Hd. apply Hw; lia.
  - (* a longer one is valid, and read forwards from its first byte *)
    assert (Hv : valid (DL s)).
    { intros E. rewrite E in H1. now apply H1. }
    pose proof (DL_valid s Hne Hv) as Hf. fold i in Hf.
    destruct (RuneSelf <=? code c) eqn:Hself.
    + rewrite Hf. destruct (DL s) as [r size]. cbn [snd] in *.
      apply firstn_all2; lia.
    + apply Z.leb_gt in Hself. exfalso.
      pose proof (D_wide c (skipn (S i) s)) as Hwide.
      rewrite <- Hskip, Hf in Hwide. specialize (Hwide ltac:(lia)). lia.
Qed.

Lemma TrimLeftFunc_fixed (s : gostring) :
  s <> [] -> isSpace (fst (D s)) = false -> strings.TrimLeftFunc s isSpace = s.
Proof.
  intros Hne Hsp. unfold strings.TrimLeftFunc, strings.indexFunc.
  destruct s as [|c t]; [congruence|].
  cbn [length strings.indexFunc_from].
  destruct (D (c :: t)) as [r size]. cbn [fst] in Hsp. now rewrite Hsp.
Qed.

(** [strings.TrimSpace] leaves a string without white space at either end
    as it is. *)
Lemma TrimSpace_fixed (s : gostring) :
  leadingSpace s = false -> trailingSpace s = false -> strings.TrimSpace s = s.
Proof.
  destruct s as [|c t]; [reflexivity|].
  assert (Hne : c :: t <> []) by discriminate.
  rewrite (leadingSpace_ne _ Hne), (trailingSpace_ne _ Hne). intros Hl Hr.
  cbn [strings.TrimSpace].
  destruct (RuneSelf <=? code c) eqn:Hself.
  - unfold strings.TrimFunc. rewrite TrimLeftFunc_fixed by assumption.
    now apply TrimRightFunc_fixed.
  - apply Z.leb_gt in Hself.
    rewrite D_ascii in Hl by exact Hself. cbn [fst] in Hl.
    rewrite asciiSpace_IsSpace in Hl by exact Hself. rewrite Hl.
    remember (c :: t) as s eqn:Hs.
    destruct (exists_last Hne) as (p & z & Hp).
    assert (Hlen : length s = S (length p)) by (rewrite Hp, length_app; cbn; lia).
    rewrite Hlen. cbn [strings.TrimSpace_stop].
    assert (Hz : nth_error s (length p) = Some z).
    { rewrite Hp, nth_error_app2, Nat.sub_diag by lia. reflexivity. }
    rewrite Hz.
    assert (Hall : firstn (S (length p)) s = s) by (apply firstn_all2; lia).
    rewrite Hall.
    destruct (RuneSelf <=? code z) eqn:Hzself; [now apply TrimRightFunc_fixed|].
    apply Z.leb_gt in Hzself.
    rewrite Hp, DL_ascii in Hr by exact Hzself. cbn [fst] in Hr.
    rewrite asciiSpace_IsSpace in Hr by exact Hzself. now rewrite Hr.
Qed.

(** Trimming twice is trimming once. *)
Lemma TrimSpace_idempotent (s : gostring) :
  strings.TrimSpace (strings.TrimSpace s) = strings.TrimSpace s.
Proof.
  destruct (TrimSpace_spec s) as (H1 & H2 & _). now apply TrimSpace_fixed.
Qed.

End trim_fixed.

(* ===================================================================== *)
(** * The registry: what it can hold, and how the handlers compose *)
(* ===================================================================== *)

Module registry_facts.

Import trim_fixed.

Lemma acceptable_spec (s : gostring) :
  acceptable s = true <-> s <> [] /\ strings.TrimSpace s = s /\ absoluteURL s = true.
Proof.
  unfold acceptable. rewrite !andb_true_iff, negb_true_iff, streq_spec.
  split.
  - intros [[H1 H2] H3]. repeat split; auto. intros ->. discriminate.
  - intros (H1 & H2 & H3). repeat split; auto.
    destruct s; [congruence | reflexivity].
Qed.

(** What the add handler does with an acceptable string that is new. *)
Lemma add_acceptable (l : list gostring) (s : gostring) :
  acceptable s = true -> ~ In s l ->
  apiAddSourceHandler (Payload s) l = (WriteHeader StatusCreated, l ++ [s]).
Proof.
  intros Hs Hin. apply acceptable_spec in Hs. destruct Hs as (Hne & Ht & Habs).
  rewrite apiAddSourceHandler_eq. cbv zeta. rewrite Ht, Habs.
  destruct s as [|c s]; [congruence|]. cbn [url.isEmpty orb negb].
  now rewrite (proj2 (hasSource_not_In _ _) Hin).
Qed.

(** What the add handler stores is acceptable. *)
Lemma step_acceptable (l : list gostring) (op : Op) :
  Forall (fun s => acceptable s = true) l ->
  Forall (fun s => acceptable s = true) (step l op).
Proof.
  intros H. destruct op as [[|u]|[|u]]; cbn [step]; try exact H.
  - rewrite apiAddSourceHandler_eq. cbv zeta.
    destruct (url.isEmpty (strings.TrimSpace u)) eqn:He; [exact H|].
    destruct (absoluteURL (strings.TrimSpace u)) eqn:Ha; [|exact H]. cbn [orb negb].
    destruct (hasSource l (strings.TrimSpace u)); [exact H|]. cbn [snd].
    apply Forall_app. split; [exact H|]. constructor; [|constructor].
    unfold acceptable. rewrite He, Ha, TrimSpace_idempotent, streq_refl. reflexivity.
  - rewrite apiRemoveSourceHandler_eq. cbv zeta.
    destruct (url.isEmpty (strings.TrimSpace u)); [exact H|].
    destruct (hasSource l (strings.TrimSpace u)); [|exact H]. cbn [snd].
    apply Forall_forall. intros s Hs. apply filter_In in Hs.
    rewrite Forall_forall in H. now apply H.
Qed.

Lemma fold_step_acceptable (ops : list Op) (l : list gostring) :
  Forall (fun s => acceptable s = true) l ->
  Forall (fun s => acceptable s = true) (fold_left step ops l).
Proof.
  revert l; induction ops as [|op ops IH]; intros l H; [exact H|].
  cbn [fold_left]. now apply IH, step_acceptable.
Qed.

Lemma feedSources0_acceptable : Forall (fun s => acceptable s = true) feedSources0.
Proof. repeat constructor; vm_compute; reflexivity. Qed.

(** Adding the entries of a list one after the other. *)
Lemma fold_step_adds (l : list gostring) :
  forall pre, NoDup (pre ++ l) -> Forall (fun s => acceptable s = true) l ->
  fold_left step (map (fun s => Add (Payload s)) l) pre = pre ++ l.
Proof.
  induction l as [|s l IH]; intros pre Hnd Hacc; cbn [map fold_left].
  - now rewrite app_nil_r.
  - inversion Hacc as [|? ? Hs Hl]; subst.
    assert (Hin : ~ In s pre).
    { intros Hin. apply NoDup_remove_2 in Hnd. apply Hnd, in_or_app. now left. }
    cbn [step]. rewrite (add_acceptable pre s Hs Hin). cbn [snd].
    rewrite IH; [now rewrite <- app_assoc| |exact Hl].
    now rewrite <- app_assoc.
Qed.

Lemma filter_keeps_absent (URL : gostring) (l : list gostring) :
  ~ In URL l -> filter (keeps URL) l = l.
Proof.
  induction l as [|s l IH]; intros Hin; [reflexivity|]. cbn [filter].
  unfold keeps at 1. destruct (streq s URL) eqn:E.
  - apply streq_spec in E. exfalso. apply Hin. left. exact E.
  - cbn [negb]. f_equal. apply IH. intros H. apply Hin. now right.
Qed.

Lemma filter_keeps_self (URL : gostring) : filter (keeps URL) [URL] = [].
Proof. cbn [filter]. unfold keeps. now rewrite streq_refl. Qed.

End registry_facts.

(* ===================================================================== *)
(** * Facts: the scheme of a parsed URL *)
(* ===================================================================== *)

Module url_facts.

Lemma setPath_Scheme (u u' : url.URL) (p : gostring) :
  url.setPath u p = Some u' -> url.Scheme u' = url.Scheme u.
Proof.
  unfold url.setPath. destruct (url.unescape p url.encodePath); [|discriminate].
  intros H. injection H as <-. reflexivity.
Qed.

Lemma setFragment_Scheme (u u' : url.URL) (f : gostring) :
  url.setFragment u f = Some u' -> url.Scheme u' = url.Scheme u.
Proof.
  unfold url.setFragment. destruct (url.unescape f url.encodeFragment); [|discriminate].
  intros H. injection H as <-. reflexivity.
Qed.

(** [getScheme] returns as scheme a letter followed by scheme bytes, and
    the rest after the colon. *)
Lemma getScheme_from_spec (rest : gostring) :
  forall (rawURL pre : gostring) (i : nat) (sch r : gostring),
  rawURL = pre ++ rest -> length pre = i ->
  (pre = [] \/ exists c p, pre = c :: p /\ letter c = true /\ forallb schemeByte p = true) ->
  url.getScheme_from rawURL rest i = Some (sch, r) -> sch <> [] ->
  exists c p, sch = c :: p /\ letter c = true /\ forallb schemeByte p = true /\
              rawURL = sch ++ ":"%char :: r.
Proof.
  induction rest as [|c rest IH]; intros rawURL pre i sch r Hraw Hlen Hpre H Hne;
    cbn [url.getScheme_from] in H.
  - injection H as <- _. congruence.
  - assert (Hstep : schemeByte c = true -> (letter c = true \/ pre <> []) ->
              pre ++ [c] = [] \/
              exists c0 p, pre ++ [c] = c0 :: p /\ letter c0 = true /\
                           forallb schemeByte p = true).
    { intros Hc Hl. right. destruct Hpre as [->|(c0 & p & -> & Hc0 & Hp)].
      - exists c, []. destruct Hl as [Hl|Hl]; [auto | congruence].
      - exists c0, (p ++ [c]). split; [reflexivity|]. split; [exact Hc0|].
        rewrite forallb_app, Hp. cbn. now rewrite Hc. }
    assert (Hraw' : rawURL = (pre ++ [c]) ++ rest) by (now rewrite <- app_assoc).
    assert (Hlen' : length (pre ++ [c]) = S i) by (rewrite length_app; cbn; lia).
    fold (letter c) in H.
    destruct (letter c) eqn:Hl.
    + apply (IH rawURL (pre ++ [c]) (S i)); auto.
      apply Hstep; [unfold schemeByte; now rewrite Hl | now left].
    + destruct (between "0" c "9" || oneOf c "+-.") eqn:Hd.
      * destruct (Nat.eqb_spec i 0) as [->|Hi]; [injection H as <- _; congruence|].
        apply (IH rawURL (pre ++ [c]) (S i)); auto.
        apply Hstep.
        -- unfold schemeByte. rewrite Hl. cbn [orb]. exact Hd.
        -- right. destruct pre; [cbn in Hlen; lia | discriminate].
      * destruct (Ascii.eqb_spec c ":") as [->|Hc]; [|injection H as <- _; congruence].
        destruct (Nat.eqb_spec i 0) as [->|Hi]; [discriminate|].
        injection H as <- <-.
        assert (Hf : firstn i rawURL = pre).
        { rewrite Hraw, <- Hlen. rewrite firstn_app, Nat.sub_diag, firstn_all. cbn.
          now rewrite app_nil_r. }
        rewrite Hf in *.
        destruct Hpre as [->|(c0 & p & -> & Hc0 & Hp)]; [cbn in Hlen; lia|].
        exists c0, p. repeat split; auto.
Qed.

(** The scheme of the result of [parse] is the lower case of what
    [getScheme] found. *)
Lemma parse_Scheme (rawURL : gostring) (u : url.URL) :
  url.parse rawURL false = Some u -> url.Scheme u <> [] ->
  exists sch rest, url.getScheme rawURL = Some (sch, rest) /\ sch <> [].
Proof.
  unfold url.parse. intros H Hs.
  destruct (url.stringContainsCTLByte rawURL); [discriminate|].
  rewrite andb_false_r in H.
  destruct (streq rawURL (str "*")); [injection H as <-; now cbn in Hs|].
  destruct (url.getScheme rawURL) as [[sch rest0]|]; [|discriminate].
  exists sch, rest0. split; [reflexivity|]. intros ->. apply Hs. clear Hs.
  cbn [strings.ToLower map url.isEmpty negb andb orb] in H.
  repeat match type of H with
         | context [strings.Cut ?a ?b] => destruct (strings.Cut a b) as [[? ?] ?]
         | context [if ?c then _ else _] => destruct c
         | context [match ?o with Some _ => _ | None => _ end] => destruct o eqn:?
         | context [let '(_, _) := ?p in _] => destruct p
         end;
    try discriminate;
    try (injection H as <-; reflexivity);
    try (apply setPath_Scheme in H; exact H).
Qed.

(** A string that parses as an absolute URL starts with a scheme and a
    colon. *)
Lemma absoluteURL_scheme (s : gostring) :
  absoluteURL s = true ->
  exists c p rest, s = c :: p ++ ":"%char :: rest /\
                   letter c = true /\ forallb schemeByte p = true.
Proof.
  unfold absoluteURL, url.Parse, url.IsAbs. intros H.
  assert (Hcut : exists t, s = fst (fst (strings.Cut s (str "#"))) ++ t).
  { unfold strings.Cut. destruct (strings.Index s (str "#")) as [i|]; cbn [fst].
    - exists (skipn i s). now rewrite firstn_skipn.
    - exists []. now rewrite app_nil_r. }
  destruct (strings.Cut s (str "#")) as [[u frag] b]. cbn [fst] in Hcut.
  destruct Hcut as [t Ht].
  destruct (url.parse u false) as [url|] eqn:Hp; [|discriminate].
  assert (Hs : url.Scheme url <> []).
  { destruct (url.isEmpty frag).
    - destruct (url.Scheme url); [discriminate | discriminate].
    - destruct (url.setFragment url frag) as [url'|] eqn:Hf; [|discriminate].
      apply setFragment_Scheme in Hf. rewrite <- Hf.
      destruct (url.Scheme url'); [discriminate | discriminate]. }
  destruct (parse_Scheme u url Hp Hs) as (sch & rest0 & Hg & Hne).
  destruct (getScheme_from_spec u u [] 0 sch rest0 eq_refl eq_refl (or_introl eq_refl) Hg Hne)
    as (c & p & -> & Hc & Hpb & Hu).
  exists c, p, (rest0 ++ t). split; [|now split].
  rewrite Ht, Hu. cbn. now rewrite <- app_assoc.
Qed.

End url_facts.

(* ===================================================================== *)
(** * The registry: reachable states and compositions of the handlers *)
(* ===================================================================== *)

Import registry_facts.

(** X6.  The states of the registry.  Every state of the registry after a
    sequence of Add and Remove requests, from the two defaults, has no
    duplicate, and each of its entries is acceptable: not empty, left as it
    is by [strings.TrimSpace], and an absolute URL for [url.Parse].
    Conversely every list without duplicates of acceptable entries that are
    well-formed UTF-8 is such a state, reached by requests whose urls are
    well-formed UTF-8, as the JSON decoder delivers them. *)
Theorem registry_states (l : list gostring) :
  ((exists ops, run ops = l) ->
   NoDup l /\ Forall (fun s => acceptable s = true) l) /\
  (NoDup l -> Forall (fun s => acceptable s = true) l ->
   Forall (fun s => wellFormed s = true) l ->
   exists ops, Forall wellFormedOp ops /\ run ops = l).
Proof.
  split.
  - intros [ops <-]. split.
    + apply fold_step_NoDup, feedSources0_NoDup.
    + apply fold_step_acceptable, feedSources0_acceptable.
  - intros Hnd Hacc Hwf.
    exists ([Remove (Payload (str "https://news.ycombinator.com/rss"));
             Remove (Payload (str "https://www.reddit.com/r/golang/.rss"))]
            ++ map (fun s => Add (Payload s)) l).
    split.
    + apply Forall_app. split.
      * repeat constructor; vm_compute; reflexivity.
      * apply Forall_forall. intros op Hop. apply in_map_iff in Hop.
        destruct Hop as (s & <- & Hs). cbn [wellFormedOp].
        rewrite Forall_forall in Hwf. now apply Hwf.
    + unfold run. rewrite fold_left_app.
      replace (fold_left step _ feedSources0) with (@nil gostring)
        by (vm_compute; reflexivity).
      now apply (fold_step_adds l []).
Qed.

Lemma registry_states_witness :
  exists ops, Forall wellFormedOp ops /\ run ops = [str "https://x/rss"].
Proof.
  apply (proj2 (registry_states [str "https://x/rss"])).
  - repeat constructor. intros [].
  - repeat constructor.
  - repeat constructor.
Defined.

(** X7.  Removing what was just added.  When an Add request is answered
    with 201, a Remove request with the same body is answered with 200 and
    gives back the registry as it was before the two. *)
Theorem add_then_remove (feedSources : list gostring) (r : RequestBody) :
  StatusCode (fst (apiAddSourceHandler r feedSources)) = StatusCreated ->
  apiRemoveSourceHandler r (snd (apiAddSourceHandler r feedSources))
    = (WriteHeader StatusOK, feedSources).
Proof.
  destruct r as [|u]; [discriminate|].
  rewrite apiAddSourceHandler_eq, apiRemoveSourceHandler_eq. cbv zeta.
  destruct (url.isEmpty (strings.TrimSpace u)) eqn:He; [discriminate|].
  destruct (absoluteURL (strings.TrimSpace u)); [|discriminate]. cbn [orb negb].
  destruct (hasSource feedSources (strings.TrimSpace u)) eqn:Hh; [discriminate|].
  intros _. cbn [snd]. apply hasSource_not_In in Hh.
  assert (Hin : hasSource (feedSources ++ [strings.TrimSpace u]) (strings.TrimSpace u) = true).
  { apply hasSource_In, in_or_app. right. now left. }
  rewrite Hin, filter_app, filter_keeps_absent, filter_keeps_self by exact Hh.
  now rewrite app_nil_r.
Qed.

Lemma add_then_remove_witness :
  apiRemoveSourceHandler (Payload (str " https://x/rss "))
    (snd (apiAddSourceHandler (Payload (str " https://x/rss ")) feedSources0))
  = (WriteHeader StatusOK, feedSources0).
Proof.
  apply (add_then_remove feedSources0 (Payload (str " https://x/rss "))).
  vm_compute. reflexivity.
Defined.

(** X8.  Adding again what was just removed.  In every state of the
    registry, when a Remove request is answered with 200, an Add request
    with the same url is answered with 201: the entry comes back, at the
    end of the list and no longer at its old place. *)
Theorem remove_then_add (ops : list Op) (u : gostring) :
  StatusCode (fst (apiRemoveSourceHandler (Payload u) (run ops))) = StatusOK ->
  apiAddSourceHandler (Payload u) (snd (apiRemoveSourceHandler (Payload u) (run ops)))
    = (WriteHeader StatusCreated,
       filter (keeps (strings.TrimSpace u)) (run ops) ++ [strings.TrimSpace u]).
Proof.
  rewrite apiRemoveSourceHandler_eq. cbv zeta.
  destruct (url.isEmpty (strings.TrimSpace u)) eqn:He; [discriminate|].
  destruct (hasSource (run ops) (strings.TrimSpace u)) eqn:Hh; [|discriminate].
  intros _. cbn [snd]. apply hasSource_In in Hh.
  assert (Hacc : acceptable (strings.TrimSpace u) = true).
  { pose proof (fold_step_acceptable ops feedSources0 feedSources0_acceptable) as H.
    rewrite Forall_forall in H. now apply H. }
  rewrite apiAddSourceHandler_eq. cbv zeta.
  apply acceptable_spec in Hacc. destruct Hacc as (_ & _ & Habs).
  rewrite He, Habs. cbn [orb negb].
  assert (Hout : hasSource (filter (keeps (strings.TrimSpace u)) (run ops))
                           (strings.TrimSpace u) = false).
  { apply hasSource_not_In. intros Hin. apply filter_keeps_In in Hin. now destruct Hin. }
  now rewrite Hout.
Qed.

Lemma remove_then_add_witness :
  apiAddSourceHandler (Payload (str "https://news.ycombinator.com/rss"))
    (snd (apiRemoveSourceHandler (Payload (str "https://news.ycombinator.com/rss"))
            feedSources0))
  = (WriteHeader StatusCreated,
     [str "https://www.reddit.com/r/golang/.rss"; str "https://news.ycombinator.com/rss"]).
Proof.
  apply (remove_then_add [] (str "https://news.ycombinator.com/rss")).
  vm_compute. reflexivity.
Defined.

(** X9.  A request that succeeded is refused when it is repeated.  After an
    Add answered with 201, the same Add is answered with 409; after a
    Remove answered with 200, the same Remove is answered with 404; the
    repeated request leaves the registry as the first one made it. *)
Theorem repeated_request_refused (feedSources : list gostring) (r : RequestBody) :
  (StatusCode (fst (apiAddSourceHandler r feedSources)) = StatusCreated ->
   apiAddSourceHandler r (snd (apiAddSourceHandler r feedSources))
     = (http_Error (str "source already exists") StatusConflict,
        snd (apiAddSourceHandler r feedSources))) /\
  (StatusCode (fst (apiRemoveSourceHandler r feedSources)) = StatusOK ->
   apiRemoveSourceHandler r (snd (apiRemoveSourceHandler r feedSources))
     = (http_Error (str "source not found") StatusNotFound,
        snd (apiRemoveSourceHandler r feedSources))).
Proof.
  destruct r as [|u]; [split; discriminate|].
  rewrite apiAddSourceHandler_eq, apiRemoveSourceHandler_eq. cbv zeta.
  destruct (url.isEmpty (strings.TrimSpace u)) eqn:He; [split; discriminate|].
  cbn [orb]. split.
  - destruct (absoluteURL (strings.TrimSpace u)) eqn:Ha; [|discriminate]. cbn [negb].
    destruct (hasSource feedSources (strings.TrimSpace u)) eqn:Hh; [discriminate|].
    intros _. cbn [snd]. rewrite apiAddSourceHandler_eq. cbv zeta.
    rewrite He, Ha. cbn [orb negb].
    assert (Hin : hasSource (feedSources ++ [strings.TrimSpace u]) (strings.TrimSpace u)
                  = true).
    { apply hasSource_In, in_or_app. right. now left. }
    now rewrite Hin.
  - destruct (hasSource feedSources (strings.TrimSpace u)) eqn:Hh; [|discriminate].
    intros _. cbn [snd]. rewrite apiRemoveSourceHandler_eq. cbv zeta. rewrite He.
    assert (Hout : hasSource (filter (keeps (strings.TrimSpace u)) feedSources)
                             (strings.TrimSpace u) = false).
    { apply hasSource_not_In. intros Hin. apply filter_keeps_In in Hin. now destruct Hin. }
    now rewrite Hout.
Qed.

Lemma repeated_request_refused_witness :
  StatusCode (fst (apiAddSourceHandler (Payload (str "https://x/rss"))
                     (snd (apiAddSourceHandler (Payload (str "https://x/rss"))
                             feedSources0))))
    = StatusConflict /\
  StatusCode (fst (apiRemoveSourceHandler (Payload (str "https://news.ycombinator.com/rss"))
                     (snd (apiRemoveSourceHandler
                             (Payload (str "https://news.ycombinator.com/rss"))
                             feedSources0))))
    = StatusNotFound.
Proof.
  split.
  - rewrite (proj1 (repeated_request_refused feedSources0 (Payload (str "https://x/rss"))));
      [reflexivity | vm_compute; reflexivity].
  - rewrite (proj2 (repeated_request_refused feedSources0
                      (Payload (str "https://news.ycombinator.com/rss"))));
      [reflexivity | vm_compute; reflexivity].
Defined.

(** X10.  White space around the url of a request does not count: the Add
    and the Remove handlers answer a url and the same url trimmed alike,
    with the same effect on the registry. *)
Theorem handlers_ignore_outer_space (feedSources : list gostring) (u : gostring) :
  apiAddSourceHandler (Payload (strings.TrimSpace u)) feedSources
    = apiAddSourceHandler (Payload u) feedSources /\
  apiRemoveSourceHandler (Payload (strings.TrimSpace u)) feedSources
    = apiRemoveSourceHandler (Payload u) feedSources.
Proof.
  rewrite !apiAddSourceHandler_eq, !apiRemoveSourceHandler_eq. cbv zeta.
  now rewrite trim_fixed.TrimSpace_idempotent.
Qed.

(** X11.  The Add handler stores a url only if, once trimmed, it starts
    with a scheme and a colon: a letter, then letters, digits and [+ - .],
    then [:].  A url without one, such as [example.com/feed], is answered
    with 400. *)
Theorem add_requires_scheme (feedSources : list gostring) (u : gostring) :
  StatusCode (fst (apiAddSourceHandler (Payload u) feedSources)) <> StatusBadRequest ->
  exists c p rest,
    strings.TrimSpace u = c :: p ++ ":"%char :: rest /\
    letter c = true /\ forallb schemeByte p = true.
Proof.
  rewrite apiAddSourceHandler_eq. cbv zeta.
  destruct (absoluteURL (strings.TrimSpace u)) eqn:Ha.
  - intros _. now apply url_facts.absoluteURL_scheme.
  - rewrite orb_true_r. cbn. congruence.
Qed.

Lemma add_requires_scheme_witness :
  exists c p rest,
    strings.TrimSpace (str " https://x/rss ") = c :: p ++ ":"%char :: rest /\
    letter c = true /\ forallb schemeByte p = true.
Proof.
  apply (add_requires_scheme feedSources0 (str " https://x/rss ")).
  vm_compute. discriminate.
Defined.

(* ===================================================================== *)
(** * The fetcher: errors, panics, links that are not resolved *)
(* ===================================================================== *)

Lemma Parse_control_byte (s : gostring) :
  url.stringContainsCTLByte (beforeFragment s) = true -> url.Parse s = None.
Proof.
  unfold beforeFragment, url.Parse. destruct (strings.Cut s (str "#")) as [[u frag] b].
  cbn [fst]. intros H. unfold url.parse. now rewrite H.
Qed.

Lemma resolvedLink_kept (base : url.URL) (it_Link : gostring) :
  url.Parse it_Link = None \/
  (exists link, url.Parse it_Link = Some link /\ url.IsAbs link = true) ->
  resolvedLink base it_Link = it_Link.
Proof.
  unfold resolvedLink. intros [->|(link & -> & ->)]; reflexivity.
Qed.

(** X12.  [fetchFeed] never panics.  Its [base] is [nil] when the feed URL
    does not parse, and [base.ResolveReference] would then panic on a
    relative link; but a feed URL that does not parse makes [http.Get]
    fail, and [fetchFeed] returns before it comes to the links. *)
Theorem fetchFeed_never_panics {E : Env} (feedURL : gostring) (w : World) :
  (exists r w', fetchFeed feedURL w = (Done r, w')) /\
  (forall body w1, http_Get feedURL w = (Done (Some body), w1) ->
     url.Parse feedURL <> None) /\
  (url.Parse feedURL = None ->
     fetchFeed feedURL w = (Done (inr (GET_error feedURL)), w)).
Proof.
  split; [apply fetchFeed_Done|]. split.
  - intros body w1 H.
    destruct (http_Get_Done feedURL w) as (r & w' & Hget & Hr).
    rewrite Hget in H. injection H as -> ->.
    destruct (Hr body eq_refl) as (u & Hu & _). congruence.
  - intros Hp. unfold fetchFeed, bind, http_Get. rewrite Hp. reflexivity.
Qed.

(** X13.  The errors of [fetchFeed].  An error of [fetchFeed] is the GET
    error, when [http.Get] failed, or the XML error, when the body did not
    decode; it names the feed URL; the world is then as the GET left it.
    No date and no link of an item makes [fetchFeed] fail. *)
Theorem fetchFeed_errors {E : Env} (feedURL : gostring) (w w' : World) (e : error) :
  fetchFeed feedURL w = (Done (inr e), w') ->
  (e = GET_error feedURL /\ http_Get feedURL w = (Done None, w')) \/
  (e = decode_XML_error feedURL /\
   exists body, http_Get feedURL w = (Done (Some body), w') /\ xml_Decode body = None).
Proof.
  intros H. destruct (fetchFeed_cases feedURL w) as (r & w1 & Hget & Hr).
  destruct r as [body|].
  - destruct (xml_Decode body) as [rss|] eqn:Hx.
    + destruct Hr as (base & items & w2 & _ & _ & Hf & _). congruence.
    + rewrite Hr in H. injection H as <- <-. right. split; [reflexivity|].
      exists body. now split.
  - rewrite Hr in H. injection H as <- <-. left. now split.
Qed.

Lemma fetchFeed_errors_witness :
  @http_Get (demoEnv demoSite) (str "https://example.com/none") 5 = (Done None, 5).
Proof.
  destruct (@fetchFeed_errors (demoEnv demoSite) (str "https://example.com/none") 5 5
              (GET_error (str "https://example.com/none")))
    as [[_ H]|[H _]].
  - vm_compute. reflexivity.
  - exact H.
  - discriminate.
Defined.

(** X14.  Links that are left alone.  In a successfully decoded feed, the
    link of an item that does not parse as a URL, or that parses as an
    absolute URL, is not resolved against the feed URL: the feed item has
    that link, trimmed. *)
Theorem fetchFeed_other_links_kept {E : Env} (feedURL body : gostring) (rss : RSS.t)
    (w w1 : World) :
  http_Get feedURL w = (Done (Some body), w1) ->
  xml_Decode body = Some rss ->
  exists items w',
    fetchFeed feedURL w = (Done (inl items), w') /\
    forall k it,
      nth_error (Channel.Items (RSS.Channel rss)) k = Some it ->
      url.Parse (Item.Link it) = None \/
      (exists link, url.Parse (Item.Link it) = Some link /\ url.IsAbs link = true) ->
      exists fi, nth_error items k = Some fi /\
        FeedItem.Link fi = strings.TrimSpace (Item.Link it).
Proof.
  intros Hget Hx.
  destruct (fetchFeed_decoded feedURL w w1 body rss Hget Hx)
    as (base & items & w' & _ & _ & Hf & Hall).
  exists items, w'. split; [exact Hf|]. intros k it Hk Hlink.
  destruct (Forall2_nth_error _ _ _ Hall k it Hk) as (fi & Hfi & Hn).
  exists fi. split; [exact Hfi|].
  destruct Hn as (_ & Hl & _). rewrite Hl. now rewrite resolvedLink_kept.
Qed.

Lemma fetchFeed_other_links_kept_witness :
  exists items w',
    @fetchFeed (demoEnv demoSite) (str "https://example.com/rss") 100
      = (Done (inl items), w') /\
    exists fi, nth_error items 1 = Some fi /\
      FeedItem.Link fi = str "https://other.org/a".
Proof.
  destruct (@fetchFeed_other_links_kept (demoEnv demoSite) (str "https://example.com/rss")
              (str "https://example.com/rss") demoFeed 100 100)
    as (items & w' & Hf & Hk).
  - vm_compute. reflexivity.
  - vm_compute. reflexivity.
  - exists items, w'. split; [exact Hf|].
    destruct (Hk 1%nat (Item.mk (str "Second") (str "https://other.org/a") (str " two ")
                                (str "yesterday")) eq_refl) as (fi & Hfi & Hl).
    + right. eexists. split; [vm_compute; reflexivity | reflexivity].
    + exists fi. split; [exact Hfi|]. rewrite Hl. vm_compute. reflexivity.
Defined.

(** X15.  A link with a control byte is not resolved.  When the link of an
    item holds, before its fragment, a byte below 0x20 or the byte 0x7f --
    a relative link on a line of its own in the document, between two
    newlines, is one -- [url.Parse] refuses it and the feed item has the
    link as it is in the document, trimmed: a relative link stays
    relative. *)
Theorem fetchFeed_control_byte_link {E : Env} (feedURL body : gostring) (rss : RSS.t)
    (w w1 : World) :
  http_Get feedURL w = (Done (Some body), w1) ->
  xml_Decode body = Some rss ->
  exists items w',
    fetchFeed feedURL w = (Done (inl items), w') /\
    forall k it,
      nth_error (Channel.Items (RSS.Channel rss)) k = Some it ->
      url.stringContainsCTLByte (beforeFragment (Item.Link it)) = true ->
      exists fi, nth_error items k = Some fi /\
        FeedItem.Link fi = strings.TrimSpace (Item.Link it).
Proof.
  intros Hget Hx.
  destruct (fetchFeed_decoded feedURL w w1 body rss Hget Hx)
    as (base & items & w' & _ & _ & Hf & Hall).
  exists items, w'. split; [exact Hf|]. intros k it Hk Hctl.
  destruct (Forall2_nth_error _ _ _ Hall k it Hk) as (fi & Hfi & Hn).
  exists fi. split; [exact Hfi|].
  destruct Hn as (_ & Hl & _). rewrite Hl.
  rewrite resolvedLink_kept; [reflexivity|]. left. now apply Parse_control_byte.
Qed.

Lemma fetchFeed_control_byte_link_witness :
  exists items w',
    @fetchFeed (demoEnv lineSite) (str "https://example.com/lines") 0
      = (Done (inl items), w') /\
    exists fi, nth_error items 0 = Some fi /\ FeedItem.Link fi = str "/foo".
Proof.
  destruct (@fetchFeed_control_byte_link (demoEnv lineSite)
              (str "https://example.com/lines") (str "https://example.com/lines")
              lineFeed 0 0) as (items & w' & Hf & Hk).
  - vm_compute. reflexivity.
  - vm_compute. reflexivity.
  - exists items, w'. split; [exact Hf|].
    destruct (Hk 0%nat (Item.mk (str "Only") ("010"%char :: str "/foo" ++ ["010"%char]) []
                                (str "2024-01-01T00:00:00Z")) eq_refl) as (fi & Hfi & Hl).
    + vm_compute. reflexivity.
    + exists fi. split; [exact Hfi|]. rewrite Hl. vm_compute. reflexivity.
Defined.

(** X16.  Sources that are accepted and cannot be fetched.  The Add handler
    asks for an absolute URL only.  A new url whose scheme is not http or
    https, or that has no host, is stored (201); and fetching it fails with
    the GET error in every state of the world, without a round trip: the
    world is as before. *)
Theorem unfetchable_source_accepted {E : Env} (feedSources : list gostring)
    (u : gostring) (U : url.URL) (w : World) :
  url.Parse (strings.TrimSpace u) = Some U ->
  url.IsAbs U = true -> fetchable U = false ->
  ~ In (strings.TrimSpace u) feedSources ->
  apiAddSourceHandler (Payload u) feedSources
    = (WriteHeader StatusCreated, feedSources ++ [strings.TrimSpace u]) /\
  fetchFeed (strings.TrimSpace u) w
    = (Done (inr (GET_error (strings.TrimSpace u))), w).
Proof.
  intros Hp Habs Hf Hin. split.
  - assert (Ha : absoluteURL (strings.TrimSpace u) = true).
    { unfold absoluteURL. now rewrite Hp. }
    destruct (url_facts.absoluteURL_scheme _ Ha) as (c & p & rest & Hs & _).
    rewrite apiAddSourceHandler_eq. cbv zeta. rewrite Ha, Hs. cbn [url.isEmpty orb negb].
    rewrite <- Hs. now rewrite (proj2 (hasSource_not_In _ _) Hin).
  - unfold fetchFeed, bind, http_Get. rewrite Hp.
    unfold fetchable in Hf. rewrite Hf. reflexivity.
Qed.

Lemma unfetchable_source_accepted_witness :
  apiAddSourceHandler (Payload (str "ftp://example.com/feed.xml")) feedSources0
    = (WriteHeader StatusCreated, feedSources0 ++ [str "ftp://example.com/feed.xml"]) /\
  @fetchFeed (demoEnv demoSite) (str "ftp://example.com/feed.xml") 0
    = (Done (inr (GET_error (str "ftp://example.com/feed.xml"))), 0).
Proof.
  destruct (url.Parse (str "ftp://example.com/feed.xml")) as [U|] eqn:HU;
    [|vm_compute in HU; discriminate].
  apply (@unfetchable_source_accepted (demoEnv demoSite) feedSources0
           (str "ftp://example.com/feed.xml") U 0).
  - rewrite <- HU. vm_compute. reflexivity.
  - vm_compute in HU. injection HU as <-. vm_compute. reflexivity.
  - vm_compute in HU. injection HU as <-. vm_compute. reflexivity.
  - vm_compute. intros [H|[H|[]]]; discriminate.
Defined.

(** X18.  The text fields of a feed item are in trimmed form: trimming the
    title, the link or the description of an item that [fetchFeed] returned
    once more changes nothing.  ([Source], the title of the channel, is
    stored as the document has it.) *)
Theorem fetchFeed_fields_trimmed_once {E : Env} (feedURL : gostring) (w w' : World)
    (items : list FeedItem.t) :
  fetchFeed feedURL w = (Done (inl items), w') ->
  forall fi, In fi items ->
    strings.TrimSpace (FeedItem.Title fi) = FeedItem.Title fi /\
    strings.TrimSpace (FeedItem.Link fi) = FeedItem.Link fi /\
    strings.TrimSpace (FeedItem.Description fi) = FeedItem.Description fi.
Proof.
  intros H fi Hfi.
  destruct (fetchFeed_cases feedURL w) as (r & w1 & _ & Hr).
  destruct r as [body|]; [|congruence].
  destruct (xml_Decode body) as [rss|]; [|congruence].
  destruct Hr as (base & items' & w2 & _ & _ & Hf & Hall).
  rewrite Hf in H. injection H as -> ->.
  destruct (Forall2_In_r _ _ _ Hall fi Hfi) as (it & _ & Ht & Hl & Hd & _).
  rewrite Ht, Hl, Hd. now rewrite !trim_fixed.TrimSpace_idempotent.
Qed.

Lemma fetchFeed_fields_trimmed_once_witness :
  strings.TrimSpace (str "Only") = str "Only" /\
  strings.TrimSpace (str "/foo") = str "/foo" /\
  strings.TrimSpace [] = [].
Proof.
  apply (@fetchFeed_fields_trimmed_once (demoEnv lineSite)
           (str "https://example.com/lines") 0 0
           [FeedItem.mk (str "Only") (str "/foo") [] 1704067200000000000 (str "Lines")]
           ltac:(vm_compute; reflexivity)
           (FeedItem.mk (str "Only") (str "/foo") [] 1704067200000000000 (str "Lines"))).
  left. reflexivity.
Defined.

Lemma fetchFeed_never_panics_witness :
  @fetchFeed (demoEnv demoSite) (str ":") 0 = (Done (inr (GET_error (str ":"))), 0).
Proof.
  apply (proj2 (proj2 (@fetchFeed_never_panics (demoEnv demoSite) (str ":") 0))).
  vm_compute. reflexivity.
Defined.

(* ===================================================================== *)
(** * The fetcher under a clock that advances *)
(* ===================================================================== *)

(** The fetch of the source number [k] starts in the world that the fetches
    before it left. *)
Lemma fetchResults_nth {E : Env} (sources : list gostring) :
  forall (w : World) (k : nat) (src : gostring),
  nth_error sources k = Some src ->
  exists r w',
    fetchFeed src (snd (fetchResults (firstn k sources) w)) = (Done r, w') /\
    nth_error (fst (fetchResults sources w)) k = Some r.
Proof.
  induction sources as [|s rest IH]; intros w k src Hk; [destruct k; discriminate|].
  destruct (fetchFeed_Done s w) as (r & w' & Hf).
  destruct k as [|k]; cbn [nth_error] in Hk.
  - injection Hk as <-. exists r, w'. cbn [firstn fetchResults snd]. split; [exact Hf|].
    rewrite Hf. destruct (fetchResults rest w'). reflexivity.
  - destruct (IH w' k src Hk) as (r' & w'' & Hf' & Hn).
    exists r', w''. cbn [firstn fetchResults]. rewrite Hf. split.
    + destruct (fetchResults (firstn k rest) w'). exact Hf'.
    + destruct (fetchResults rest w'). exact Hn.
Qed.

Lemma successes_In (rs : list (list FeedItem.t + error)) (k : nat)
    (itms : list FeedItem.t) (fi : FeedItem.t) :
  nth_error rs k = Some (inl itms) -> In fi itms -> In fi (successes rs).
Proof.
  intros Hk Hfi. unfold successes. apply in_concat. exists itms. split; [|exact Hfi].
  apply in_map_iff. exists (inl itms). split; [reflexivity|].
  eapply nth_error_In, Hk.
Qed.

(** In a list that is newest first, an item stands after every newer
    one. *)
Lemma newestFirstOrder_nth (l : list FeedItem.t) :
  newestFirstOrder l ->
  forall a b x y, (a < b)%nat -> nth_error l a = Some x -> nth_error l b = Some y ->
  FeedItem.Published y <= FeedItem.Published x.
Proof.
  unfold newestFirstOrder. intros H.
  induction H as [|z l S IH F]; intros a b x y Hab Ha Hb; [destruct a; discriminate|].
  destruct b as [|b]; [lia|]. cbn [nth_error] in Hb.
  destruct a as [|a]; cbn [nth_error] in Ha.
  - injection Ha as <-. rewrite Forall_forall in F. apply F.
    eapply nth_error_In, Hb.
  - apply (IH a b); auto. lia.
Qed.

Lemma newer_stands_before (l : list FeedItem.t) (a b : nat) (x y : FeedItem.t) :
  newestFirstOrder l ->
  nth_error l a = Some x -> nth_error l b = Some y ->
  FeedItem.Published x < FeedItem.Published y -> (b < a)%nat.
Proof.
  intros H Ha Hb Hlt.
  destruct (Nat.lt_trichotomy a b) as [Hab|[->|Hab]]; [| |exact Hab].
  - pose proof (newestFirstOrder_nth l H a b x y Hab Ha Hb). lia.
  - rewrite Ha in Hb. injection Hb as ->. lia.
Qed.

Section Clock.

Context {E : Env}.

(** The reading of the clock in a state of the world; reading the clock
    takes time. *)
Variable tick : World -> Z.
Hypothesis Now_reads : forall w, fst (time_Now w) = tick w.
Hypothesis Now_advances : forall w, tick w < tick (snd (time_Now w)).

Lemma parsePubDate_undated (v : gostring) (w : World) :
  undated v ->
  parsePubDate v w
  = (Done (tick w, Some (unparseable_date v)), snd (time_Now w)).
Proof.
  intros Hu. unfold parsePubDate.
  assert (H1 : parsePubDate_layouts layouts v = None).
  { apply parsePubDate_layouts_none. intros l Hl. apply Hu, in_or_app. now left. }
  assert (H2 : time_Parse (str "Mon, 02 Jan 2006 15:04:05") v = None).
  { apply Hu, in_or_app. right. now left. }
  rewrite H1, H2. unfold bind, now. rewrite <- Now_reads.
  now destruct (time_Now w).
Qed.

Lemma parsePubDate_tick (v : gostring) (w w' : World) (t : time.Time)
    (e : option error) :
  parsePubDate v w = (Done (t, e), w') -> tick w <= tick w'.
Proof.
  unfold parsePubDate.
  destruct (parsePubDate_layouts layouts v);
    [intros H; injection H as _ _ <-; lia|].
  destruct (time_Parse _ v); [intros H; injection H as _ _ <-; lia|].
  unfold bind, now. pose proof (Now_advances w) as Ha.
  destruct (time_Now w) as [t0 w0]. cbn [snd] in Ha.
  intros H. injection H as _ _ <-. lia.
Qed.

(** Along the loop of [fetchFeed] the clock does not go back; an undated
    item is stamped between the start and the end of the loop, and before
    every undated item after it. *)
Lemma fetchFeed_items_tick (base : url.URL) (title : gostring) (its : list Item.t) :
  forall (w w' : World) (items : list FeedItem.t),
  fetchFeed_items (Some base) title its w = (Done items, w') ->
  tick w <= tick w' /\
  (forall k it fi,
     nth_error its k = Some it -> nth_error items k = Some fi ->
     undated (Item.PubDate it) -> tick w <= FeedItem.Published fi < tick w') /\
  (forall i j it_i it_j fi_i fi_j, (i < j)%nat ->
     nth_error its i = Some it_i -> nth_error its j = Some it_j ->
     nth_error items i = Some fi_i -> nth_error items j = Some fi_j ->
     undated (Item.PubDate it_i) -> undated (Item.PubDate it_j) ->
     FeedItem.Published fi_i < FeedItem.Published fi_j).
Proof.
  induction its as [|it its IH]; intros w w' items H; cbn [fetchFeed_items] in H.
  - injection H as <- <-. split; [lia|].
    split; intros; destruct k || destruct i; discriminate.
  - unfold bind at 1 in H.
    destruct (parsePubDate_Done (Item.PubDate it) w) as (t & e & w1 & Hp).
    rewrite Hp in H. unfold bind at 1 in H. rewrite fetchFeed_link_base in H.
    unfold bind at 1 in H.
    destruct (fetchFeed_items_spec base title its w1) as (items' & w2 & Hitems & _).
    rewrite Hitems in H. injection H as <- <-.
    destruct (IH w1 w2 items' Hitems) as (Ht & Hone & Htwo).
    pose proof (parsePubDate_tick _ _ _ _ _ Hp) as Ht1.
    assert (Hhead : undated (Item.PubDate it) -> t = tick w /\ tick w < tick w1).
    { intros Hu. rewrite (parsePubDate_undated _ w Hu) in Hp.
      injection Hp as <- _ <-. split; [reflexivity | apply Now_advances]. }
    split; [lia|]. split.
    + intros k it0 fi Hk Hfi Hu. destruct k as [|k]; cbn [nth_error] in Hk, Hfi.
      * injection Hk as <-. injection Hfi as <-. cbn [FeedItem.Published].
        destruct (Hhead Hu). lia.
      * pose proof (Hone k it0 fi Hk Hfi Hu). lia.
    + intros i j it_i it_j fi_i fi_j Hij Hi Hj Hfi Hfj Hui Huj.
      destruct j as [|j]; [lia|]. cbn [nth_error] in Hj, Hfj.
      destruct i as [|i]; cbn [nth_error] in Hi, Hfi.
      * injection Hi as <-. injection Hfi as <-. cbn [FeedItem.Published].
        destruct (Hhead Hui). pose proof (Hone j it_j fi_j Hj Hfj Huj). lia.
      * apply (Htwo i j it_i it_j fi_i fi_j); auto. lia.
Qed.

(** X17.  Undated items under a clock that advances.  In a successfully
    decoded feed, the items whose date no layout parses are stamped with
    the readings of the clock as the loop comes to them: not before the
    response arrived and before the end of the fetch, and, of two such
    items, the later one in the document with the strictly later
    instant. *)
Theorem undated_items_later_is_newer (feedURL body : gostring) (rss : RSS.t)
    (w w1 : World) :
  http_Get feedURL w = (Done (Some body), w1) ->
  xml_Decode body = Some rss ->
  exists items w',
    fetchFeed feedURL w = (Done (inl items), w') /\
    (forall k it, nth_error (Channel.Items (RSS.Channel rss)) k = Some it ->
       undated (Item.PubDate it) ->
       exists fi, nth_error items k = Some fi /\
         tick w1 <= FeedItem.Published fi < tick w') /\
    (forall i j it_i it_j, (i < j)%nat ->
       nth_error (Channel.Items (RSS.Channel rss)) i = Some it_i ->
       nth_error (Channel.Items (RSS.Channel rss)) j = Some it_j ->
       undated (Item.PubDate it_i) -> undated (Item.PubDate it_j) ->
       exists fi_i fi_j,
         nth_error items i = Some fi_i /\ nth_error items j = Some fi_j /\
         FeedItem.Published fi_i < FeedItem.Published fi_j).
Proof.
  intros Hget Hx.
  destruct (http_Get_Done feedURL w) as (r & w0 & Hget' & Hr).
  rewrite Hget in Hget'. injection Hget' as <- <-.
  destruct (Hr body eq_refl) as (base & Hbase & _).
  destruct (fetchFeed_items_spec base (Channel.Title (RSS.Channel rss))
              (Channel.Items (RSS.Channel rss)) w1) as (items & w' & Hitems & Hall).
  exists items, w'. split.
  { unfold fetchFeed, bind. rewrite Hget, Hx, Hbase, Hitems. reflexivity. }
  destruct (fetchFeed_items_tick _ _ _ _ _ _ Hitems) as (_ & Hone & Htwo).
  split.
  - intros k it Hk Hu.
    destruct (Forall2_nth_error _ _ _ Hall k it Hk) as (fi & Hfi & _).
    exists fi. split; [exact Hfi|]. now apply (Hone k it fi).
  - intros i j it_i it_j Hij Hi Hj Hui Huj.
    destruct (Forall2_nth_error _ _ _ Hall i it_i Hi) as (fi_i & Hfi & _).
    destruct (Forall2_nth_error _ _ _ Hall j it_j Hj) as (fi_j & Hfj & _).
    exists fi_i, fi_j. split; [exact Hfi|]. split; [exact Hfj|].
    now apply (Htwo i j it_i it_j fi_i fi_j).
Qed.

(** X19.  Undated items in the merged list.  Under a clock that advances,
    when the fetch of a source of the registry succeeds, of two items of
    that feed whose dates no layout parses the later one in the document
    stands before the earlier one in the list that [aggregateFeeds]
    returns: the merged list has the undated items of a feed in the reverse
    of their order in the document. *)
Theorem undated_items_merged_in_reverse (feedSources : list gostring) (k : nat)
    (feedURL body : gostring) (rss : RSS.t) (w w1 : World) :
  nth_error feedSources k = Some feedURL ->
  http_Get feedURL (snd (fetchResults (firstn k feedSources) w)) = (Done (Some body), w1) ->
  xml_Decode body = Some rss ->
  exists merged itms,
    fst (aggregateFeeds feedSources w) = Done (merged, None) /\
    nth_error (fst (fetchResults feedSources w)) k = Some (inl itms) /\
    forall i j it_i it_j, (i < j)%nat ->
      nth_error (Channel.Items (RSS.Channel rss)) i = Some it_i ->
      nth_error (Channel.Items (RSS.Channel rss)) j = Some it_j ->
      undated (Item.PubDate it_i) -> undated (Item.PubDate it_j) ->
      exists fi_i fi_j,
        nth_error itms i = Some fi_i /\ nth_error itms j = Some fi_j /\
        In fi_i merged /\ In fi_j merged /\
        forall a b, nth_error merged a = Some fi_i -> nth_error merged b = Some fi_j ->
                    (b < a)%nat.
Proof.
  intros Hk Hget Hx.
  set (wk := snd (fetchResults (firstn k feedSources) w)) in *.
  destruct (http_Get_Done feedURL wk) as (r & w0 & Hget' & Hr).
  rewrite Hget in Hget'. injection Hget' as <- <-.
  destruct (Hr body eq_refl) as (base & Hbase & _).
  destruct (fetchFeed_items_spec base (Channel.Title (RSS.Channel rss))
              (Channel.Items (RSS.Channel rss)) w1) as (itms & w' & Hitems & Hall).
  assert (Hf : fetchFeed feedURL wk = (Done (inl itms), w')).
  { unfold fetchFeed, bind. rewrite Hget, Hx, Hbase, Hitems. reflexivity. }
  destruct (fetchResults_nth feedSources w k feedURL Hk) as (r & w'' & Hf' & Hn).
  fold wk in Hf'. rewrite Hf in Hf'. injection Hf' as <- <-.
  exists (sort.Slice newestFirst xorshiftNext (successes (fst (fetchResults feedSources w)))),
         itms.
  split; [now rewrite aggregateFeeds_eq|]. split; [exact Hn|].
  intros i j it_i it_j Hij Hi Hj Hui Huj.
  destruct (fetchFeed_items_tick _ _ _ _ _ _ Hitems) as (_ & _ & Htwo).
  destruct (Forall2_nth_error _ _ _ Hall i it_i Hi) as (fi_i & Hfi & _).
  destruct (Forall2_nth_error _ _ _ Hall j it_j Hj) as (fi_j & Hfj & _).
  exists fi_i, fi_j. split; [exact Hfi|]. split; [exact Hfj|].
  assert (Hin : forall fi n, nth_error itms n = Some fi ->
            In fi (sort.Slice newestFirst xorshiftNext
                     (successes (fst (fetchResults feedSources w))))).
  { intros fi n Hfin.
    apply (Permutation_in fi
             (Permutation_sym (sort_perm.Slice_Permutation newestFirst xorshiftNext _))).
    apply (successes_In _ k itms); [exact Hn|]. eapply nth_error_In, Hfin. }
  split; [now apply (Hin fi_i i)|]. split; [now apply (Hin fi_j j)|].
  intros a b Ha Hb.
  apply (newer_stands_before
           (sort.Slice newestFirst xorshiftNext
              (successes (fst (fetchResults feedSources w)))) a b fi_i fi_j);
    [apply newest_facts.Slice_newestFirstOrder | exact Ha | exact Hb |].
  now apply (Htwo i j it_i it_j fi_i fi_j).
Qed.

End Clock.

Lemma undated_items_later_is_newer_witness :
  exists items w',
    @fetchFeed (demoEnv demoSite) (str "https://example.com/rss") 100
      = (Done (inl items), w') /\
    exists fi_i fi_j,
      nth_error items 1 = Some fi_i /\ nth_error items 2 = Some fi_j /\
      FeedItem.Published fi_i < FeedItem.Published fi_j.
Proof.
  destruct (@undated_items_later_is_newer (demoEnv demoSite) (fun w => w)
              (fun w => eq_refl) (fun w => Z.lt_succ_diag_r w)
              (str "https://example.com/rss") (str "https://example.com/rss") demoFeed
              100 100) as (items & w' & Hf & _ & Htwo).
  - vm_compute. reflexivity.
  - vm_compute. reflexivity.
  - exists items, w'. split; [exact Hf|].
    apply (Htwo 1%nat 2%nat
             (Item.mk (str "Second") (str "https://other.org/a") (str " two ")
                      (str "yesterday"))
             (Item.mk (str "Third") (str "  bar  ") (str "") (str ""))).
    + lia.
    + reflexivity.
    + reflexivity.
    + intros l Hl. cbn in Hl.
      repeat (destruct Hl as [<-|Hl]; [vm_compute; reflexivity|]). destruct Hl.
    + intros l Hl. cbn in Hl.
      repeat (destruct Hl as [<-|Hl]; [vm_compute; reflexivity|]). destruct Hl.
Defined.

Lemma undated_items_merged_in_reverse_witness :
  exists merged,
    fst (@aggregateFeeds (demoEnv demoSite) [str "https://example.com/rss"] 100)
      = Done (merged, None) /\
    titles merged = ["First"; "Third"; "Second"]%string /\
    exists fi_i fi_j,
      FeedItem.Title fi_i = str "Second" /\ FeedItem.Title fi_j = str "Third" /\
      forall a b, nth_error merged a = Some fi_i -> nth_error merged b = Some fi_j ->
                  (b < a)%nat.
Proof.
  destruct (@undated_items_merged_in_reverse (demoEnv demoSite) (fun w => w)
              (fun w => eq_refl) (fun w => Z.lt_succ_diag_r w)
              [str "https://example.com/rss"] 0%nat
              (str "https://example.com/rss") (str "https://example.com/rss") demoFeed
              100 100) as (merged & itms & Hm & Hn & Htwo).
  - reflexivity.
  - vm_compute. reflexivity.
  - vm_compute. reflexivity.
  - exists merged. split; [exact Hm|].
    split.
    { vm_compute in Hm. injection Hm as <-. vm_compute. reflexivity. }
    destruct (Htwo 1%nat 2%nat
                (Item.mk (str "Second") (str "https://other.org/a") (str " two ")
                         (str "yesterday"))
                (Item.mk (str "Third") (str "  bar  ") (str "") (str "")))
      as (fi_i & fi_j & Hi & Hj & _ & _ & Hab).
    + lia.
    + reflexivity.
    + reflexivity.
    + intros l Hl. cbn in Hl.
      repeat (destruct Hl as [<-|Hl]; [vm_compute; reflexivity|]). destruct Hl.
    + intros l Hl. cbn in Hl.
      repeat (destruct Hl as [<-|Hl]; [vm_compute; reflexivity|]). destruct Hl.
    + exists fi_i, fi_j.
      vm_compute in Hn. injection Hn as <-.
      cbn [nth_error] in Hi, Hj. injection Hi as <-. injection Hj as <-.
      split; [reflexivity|]. split; [reflexivity | exact Hab].
Defined.
